(** * Untangle: struct catalogue and layout resolver

    A shallow embedding of [symex_tool/extract.py] ([parse_struct_ptr],
    [extract_structs], [extract_function_pointers]), of the cache
    helpers of [symex_tool/utils.py] ([save_object], [restore_object])
    and of the text processing of [analyzer.py] ([find_globals],
    [parse_constraints]), with the properties of the layout resolver,
    of the two extractors and of the analyzer stated and proved over
    the embedding.

    Python values are modelled as follows.
    - [str] is [string]; a character is a code point below 256.
    - [int] is [Z]; [//] is [Z.div] (both round towards minus infinity),
      with the division by zero raised explicitly.
    - A [dict] is a [gmap] where the code only looks up and stores, and
      an association list in insertion order where the code iterates
      over it.
    - Objects that are mutated through aliases (the [Pointer] nodes that
      sit both in the work queue and in their owner's [fields]) live in a
      store, a [list Pointer] indexed by handles.
    - An exception is a value of [exn]; a computation is a [result]. *)

From stdpp Require Import base strings gmap list.
From Stdlib Require Import Ascii ZArith Lia.

#[local] Open Scope Z_scope.
#[local] Set Warnings "-register-all,-clear-no-such-hyp".

(** ** Exceptions and results *)

Inductive exn :=
  | ValueError
  | ZeroDivisionError
  | KeyError
  | FileNotFoundError
  | EOFError
  | UnpicklingError.

#[global] Instance exn_eq_dec : EqDecision exn.
Proof. solve_decision. Defined.

(** [Diverge] is the answer of a loop that was not given enough fuel. *)
Inductive result (A : Type) :=
  | Ok (a : A)
  | Raise (e : exn)
  | Diverge.
Arguments Ok {A} a.
Arguments Raise {A} e.
Arguments Diverge {A}.

#[global] Instance result_ret : MRet result := λ A a, Ok a.

#[global] Instance result_bind : MBind result := λ A B k m,
  match m with
  | Ok a => k a
  | Raise e => Raise e
  | Diverge => Diverge
  end.

(** ** The fragment of Python's [str] and [int] used by the resolver *)

Module Py.

Definition chars (s : string) : list ascii := String.list_ascii_of_string s.
Definition str (l : list ascii) : string := String.string_of_list_ascii l.

(** [s.endswith(c)] for a one-character suffix. *)
Definition endswith (s : string) (c : ascii) : bool :=
  match last (chars s) with
  | Some c' => bool_decide (c' = c)
  | None => false
  end.

(** [s.rfind(c)]: the highest index holding [c], or [-1]. *)
Fixpoint rfind_from (i : Z) (c : ascii) (l : list ascii) (acc : Z) : Z :=
  match l with
  | [] => acc
  | x :: l' => rfind_from (i + 1) c l' (if bool_decide (x = c) then i else acc)
  end.

Definition rfind (s : string) (c : ascii) : Z := rfind_from 0 c (chars s) (-1).

(** Slice bounds: a negative index counts from the end, and every index
    is clamped to [0, len]. *)
Definition clamp (n i : Z) : Z :=
  if i <? 0 then Z.max 0 (i + n) else Z.min i n.

(** [s[lo:hi]]. *)
Definition slice (s : string) (lo hi : Z) : string :=
  let n := Z.of_nat (length (chars s)) in
  let lo' := clamp n lo in
  let hi' := clamp n hi in
  str (take (Z.to_nat (hi' - lo')) (drop (Z.to_nat lo') (chars s))).

(** The white space that [str.strip()] removes, among the code points
    below 256. *)
Definition is_space (c : ascii) : bool :=
  let n := nat_of_ascii c in
  ((9 <=? n) && (n <=? 13) || (28 <=? n) && (n <=? 32)
   || (n =? 133) || (n =? 160))%nat.

Fixpoint lstrip (l : list ascii) : list ascii :=
  match l with
  | [] => []
  | c :: l' => if is_space c then lstrip l' else l
  end.

Definition strip_chars (l : list ascii) : list ascii :=
  reverse (lstrip (reverse (lstrip l))).

(** [s.strip()]. *)
Definition strip (s : string) : string := str (strip_chars (chars s)).

Definition digit (c : ascii) : option Z :=
  let n := nat_of_ascii c in
  if ((48 <=? n) && (n <=? 57))%nat then Some (Z.of_nat n - 48) else None.

(** Decimal digits, with single underscores allowed between digits. *)
Fixpoint digits (l : list ascii) (acc : Z) (after_digit : bool) : option Z :=
  match l with
  | [] => if after_digit then Some acc else None
  | c :: l' =>
      if bool_decide (c = "_"%char) then
        if after_digit then digits l' acc false else None
      else
        match digit c with
        | Some d => digits l' (10 * acc + d) true
        | None => None
        end
  end.

(** The white space that [int()] skips around a literal: among the code
    points below 256, the ASCII white space 9-13 and 32, and 133 and
    160, which [int()] turns into blanks beforehand.  The separators
    28-31, which [str.strip()] removes, are not skipped: [int] refuses
    them. *)
Definition is_int_space (c : ascii) : bool :=
  let n := nat_of_ascii c in
  ((9 <=? n) && (n <=? 13) || (n =? 32) || (n =? 133) || (n =? 160))%nat.

Fixpoint int_lstrip (l : list ascii) : list ascii :=
  match l with
  | [] => []
  | c :: l' => if is_int_space c then int_lstrip l' else l
  end.

Definition int_strip_chars (l : list ascii) : list ascii :=
  reverse (int_lstrip (reverse (int_lstrip l))).

(** [sys.get_int_max_str_digits()] as the interpreter sets it by
    default: [int()] refuses a literal of more digits (leading zeros
    counted, underscores and sign not). *)
Definition max_str_digits : Z := 4300.

Definition digit_count (l : list ascii) : Z :=
  Z.of_nat (length (filter (λ c, c ≠ "_"%char) l)).

Definition int_of_digits (l : list ascii) : option Z :=
  if max_str_digits <? digit_count l then None else digits l 0 false.

(** [int(s)] in base ten; [None] stands for [ValueError]. *)
Definition int (s : string) : option Z :=
  match int_strip_chars (chars s) with
  | "+"%char :: l => int_of_digits l
  | "-"%char :: l => Z.opp <$> int_of_digits l
  | l => int_of_digits l
  end.

(** [set(s)]: the one-character strings of [s]. *)
Definition set_of_str (s : string) : list string :=
  (λ c, String c EmptyString) <$> chars s.

End Py.

(** ** Data model *)

(** [StructField = namedtuple('StructField', ('name', 'type', 'offset', 'size'))] *)
Record StructField := mkStructField {
  f_name : string;
  f_type : string;
  f_offset : Z;
  f_size : Z;
}.

(** [Struct = namedtuple('Struct', ('size', 'fields'))] *)
Record Struct := mkStruct {
  s_size : Z;
  s_fields : list StructField;
}.

(** A value stored in [Pointer.fields]: the size of a scalar slot, or a
    reference to a child [Pointer]. *)
Inductive value :=
  | VInt (n : Z)
  | VRef (h : nat).

(** Modelled from the spec: the class [Pointer] imported from
    [.variable] is not part of the sources; [parse_struct_ptr] builds it
    as [Pointer(name, size, fields)] and reads [name] and [fields], which
    is the spec's LayoutNode (type_name, total_size, fields). *)
Record Pointer := mkPointer {
  p_name : string;
  p_size : Z;
  p_fields : gmap Z value;
}.

#[global] Instance Pointer_inhabited : Inhabited Pointer :=
  populate (mkPointer "" 0 ∅).

(** The state of the loop of [parse_struct_ptr]: the object store, the
    deque [q] of handles and the dict [parent]. *)
Record state := mkState {
  heap : list Pointer;
  q : list nat;
  parent : gmap string string;
}.

(** [PRIMITIVE_TYPES], as the module builds it. *)
Definition INTS : list string :=
  ["char"; "short"; "int"; "long"; "long long"]%string.

Definition PRIMITIVE_TYPES : list string :=
  app ["float"; "double"; "long double"; "bool"; "(unnamed enum)";
       "..(*)(..)"; "void"]%string
      (t ← INTS;
       [t; t +:+ " *"; "unsigned " +:+ t; "unsigned " +:+ t +:+ " *"]%string).

(** ** [parse_struct_ptr] *)

(** [obj.fields[off] = v] on the object behind handle [h]. *)
Definition set_field (h : nat) (off : Z) (v : value) (hp : list Pointer)
  : list Pointer :=
  alter (λ p, mkPointer (p_name p) (p_size p) (<[off:=v]> (p_fields p))) h hp.

(** Lines 38-42: the array suffix.  Returns [(array_sz, ftype, fsize)]. *)
Definition array_member (ftype : string) (fsize : Z) : result (Z * string * Z) :=
  if Py.endswith ftype "]" then
    let start := Py.rfind ftype "[" in
    match Py.int (Py.slice ftype (start + 1) (-1)) with
    | None => Raise ValueError
    | Some array_sz =>
        let ftype' := Py.slice ftype 0 start in
        if bool_decide (array_sz = 0) then Raise ZeroDivisionError
        else Ok (array_sz, ftype', fsize `div` array_sz)
    end
  else Ok (1, ftype, fsize).

(** Lines 60-70: the [while par in parent] loop; the answer is [inf]. *)
Fixpoint walk (fuel : nat) (parent : gmap string string) (ftype par : string)
    (seen : list string) : option bool :=
  match fuel with
  | O => None
  | S fuel' =>
      match parent !! par with
      | None => Some false
      | Some newpar =>
          if bool_decide (newpar = ftype) || bool_decide (newpar ∈ seen)
          then Some true
          else if bool_decide (newpar = par) then Some false
          else walk fuel' parent ftype newpar (newpar :: seen)
      end
  end.

(** Lines 51-70: [inf]. *)
Definition detect_loop (parent : gmap string string) (ftype cur_name : string)
  : result bool :=
  if bool_decide (ftype = cur_name) then Ok true
  else
    match walk (S (size parent)) parent ftype ftype (Py.set_of_str ftype) with
    | Some inf => Ok inf
    | None => Diverge
    end.

(** Lines 84-85. *)
Definition store_scalars (cur : nat) (foff fsize array_sz : Z) (st : state)
  : state :=
  mkState
    (foldl (λ hp i, set_field cur (foff + i * fsize) (VInt fsize) hp)
           (heap st) (seqZ 0 array_sz))
    (q st) (parent st).

(** Lines 76-79: one round of the [for i in range(array_sz)] loop. *)
Definition add_child (structs : gmap string Struct) (cur : nat)
    (ftype : string) (foff fsize : Z) (st : state) (i : Z) : state :=
  match structs !! ftype with
  | Some s =>
      let p := length (heap st) in
      mkState
        (set_field cur (foff + i * fsize) (VRef p)
                   (heap st ++ [mkPointer ftype (s_size s) ∅]))
        (q st ++ [p]) (parent st)
  | None => st
  end.

(** Lines 73-79. *)
Definition expand (structs : gmap string Struct) (cur : nat) (cur_name : string)
    (ftype : string) (foff fsize array_sz : Z) (st : state) : state :=
  foldl (add_child structs cur ftype foff fsize)
        (mkState (heap st) (q st) (<[ftype:=cur_name]> (parent st)))
        (seqZ 0 array_sz).

(** Lines 29-85: the body of [for f in structs[cur.name].fields]. *)
Definition process_field (structs : gmap string Struct) (cur : nat)
    (st : state) (f : StructField) : result state :=
  let cur_name := p_name (heap st !!! cur) in
  if bool_decide (f_type f ∈ ["struct <unnamed>"; "union <unnamed>"]%string)
  then
    Ok (mkState (set_field cur (f_offset f) (VInt (f_size f)) (heap st))
                (q st) (parent st))
  else
    '(array_sz, ftype, fsize) ← array_member (f_type f) (f_size f);
    let foff := f_offset f in
    if Py.endswith ftype "*" then
      let ftype := Py.strip (Py.slice ftype 0 (-1)) in
      if negb (Py.endswith ftype "*")
         && negb (bool_decide (ftype ∈ PRIMITIVE_TYPES)) then
        inf ← detect_loop (parent st) ftype cur_name;
        if (inf : bool) then Ok (store_scalars cur foff fsize array_sz st)
        else Ok (expand structs cur cur_name ftype foff fsize array_sz st)
      else Ok (store_scalars cur foff fsize array_sz st)
    else Ok (store_scalars cur foff fsize array_sz st).

Fixpoint process_fields (structs : gmap string Struct) (cur : nat)
    (st : state) (fs : list StructField) : result state :=
  match fs with
  | [] => Ok st
  | f :: fs' =>
      st' ← process_field structs cur st f;
      process_fields structs cur st' fs'
  end.

(** Lines 25-85: the [while q] loop; one unit of fuel per dequeued node. *)
Fixpoint bfs (fuel : nat) (structs : gmap string Struct) (st : state)
  : result state :=
  match q st with
  | [] => Ok st
  | cur :: rest =>
      match fuel with
      | O => Diverge
      | S fuel' =>
          match structs !! p_name (heap st !!! cur) with
          | None => Raise KeyError
          | Some s =>
              st' ← process_fields structs cur
                     (mkState (heap st) rest (parent st)) (s_fields s);
              bfs fuel' structs st'
          end
      end
  end.

(** [parse_struct_ptr(name, structs)].  The value returned by Python is
    [None] or the reference [root]; here it is the final object store,
    in which [root] has handle [0]. *)
Definition parse_struct_ptr (fuel : nat) (name : string)
    (structs : gmap string Struct) : result (option (list Pointer)) :=
  match structs !! name with
  | None => Ok None
  | Some s =>
      let root := mkPointer name (s_size s) ∅ in
      st ← bfs fuel structs (mkState [root] [0%nat] ∅);
      Ok (Some (heap st))
  end.

(** ** The returned object graph as a tree *)

Inductive LayoutNode :=
  | Node (type_name : string) (total_size : Z) (fields : gmap Z FieldSlot)
with FieldSlot :=
  | Scalar (size : Z)
  | Nested (child : LayoutNode).

(** Reads the tree under handle [h] out of the store; [None] when the
    references do not form a tree of depth below [depth] (a dangling
    or cyclic reference). *)
Fixpoint layout (depth : nat) (hp : list Pointer) (h : nat) : option LayoutNode :=
  match depth with
  | O => None
  | S depth' =>
      p ← hp !! h;
      slots ← mapM (λ kv : Z * value,
                      match kv.2 with
                      | VInt n => Some (kv.1, Scalar n)
                      | VRef c => (λ t, (kv.1, Nested t)) <$> layout depth' hp c
                      end) (map_to_list (p_fields p));
      Some (Node (p_name p) (p_size p) (list_to_map slots))
  end.

(** The spec's [resolve(catalogue, root_name)]: [parse_struct_ptr], with
    the object graph it returns read as a tree. *)
Definition resolve (fuel : nat) (structs : gmap string Struct) (name : string)
  : result (option LayoutNode) :=
  r ← parse_struct_ptr fuel name structs;
  match r with
  | None => Ok None
  | Some hp =>
      match layout (length hp) hp 0 with
      | Some t => Ok (Some t)
      | None => Diverge
      end
  end.

(** ** [extract_structs]: building the catalogue *)

(** One row of the result of [run_codeql_query] (which is not part of
    the sources): the tuple [(s, sz, fname, ftype, foff, fsize)] that
    line 101 unpacks.  The three numeric columns are the text that
    lines 104-107 pass to [int()]. *)
Record Row := mkRow {
  r_struct : string;
  r_size : string;
  r_fname : string;
  r_ftype : string;
  r_foff : string;
  r_fsize : string;
}.

(** [int(s)], raising [ValueError]. *)
Definition py_int (s : string) : result Z :=
  match Py.int s with
  | Some n => Ok n
  | None => Raise ValueError
  end.

(** Lines 102-108: the body of the [for] loop. *)
Definition add_row (structs : gmap string Struct) (r : Row)
  : result (gmap string Struct) :=
  if bool_decide (r_struct r ≠ "struct <unnamed>"%string) then
    structs ← match structs !! r_struct r with
              | Some _ => Ok structs
              | None =>
                  sz ← py_int (r_size r);
                  Ok (<[r_struct r := mkStruct sz []]> structs)
              end;
    foff ← py_int (r_foff r);
    fsize ← py_int (r_fsize r);
    Ok (alter (λ st, mkStruct (s_size st)
                       (s_fields st
                        ++ [mkStructField (r_fname r) (r_ftype r) foff fsize]))
              (r_struct r) structs)
  else Ok structs.

(** Lines 101-108. *)
Fixpoint add_rows (structs : gmap string Struct) (rows : list Row)
  : result (gmap string Struct) :=
  match rows with
  | [] => Ok structs
  | r :: rows' => structs' ← add_row structs r; add_rows structs' rows'
  end.

(** Lines 99-108: the catalogue of a query result. *)
Definition build (rows : list Row) : result (gmap string Struct) :=
  add_rows ∅ rows.

(** ** The cache of [utils.py] *)

(** [pickle] and the file system are not code of the repository.  The
    file system is a map from paths to the blobs stored under them;
    [pickle.dump] and [pickle.load] are parameters, [load] answering
    with the exception [pickle.load] raises on the blob, if any. *)
Section Cache.
Context {blob obj : Type}.
Variable dump : obj → blob.
Variable load : blob → result obj.

(** [open(fname, 'rb')] followed by reading the file. *)
Definition open_rb (fname : string) (files : gmap string blob) : result blob :=
  match files !! fname with
  | Some b => Ok b
  | None => Raise FileNotFoundError
  end.

(** [save_object(obj, fname)]: [open(fname, 'wb')] creates or truncates
    the file and [pickle.dump] fills it. *)
Definition save_object (o : obj) (fname : string) (files : gmap string blob)
  : gmap string blob :=
  <[fname := dump o]> files.

(** [try: body except FileNotFoundError: return None
     except EOFError: return None] *)
Definition except_missing_or_eof (body : result (option obj))
  : result (option obj) :=
  match body with
  | Raise FileNotFoundError => Ok None
  | Raise EOFError => Ok None
  | r => r
  end.

(** [restore_object(fname)]; [None] is Python's [None]. *)
Definition restore_object (fname : string) (files : gmap string blob)
  : result (option obj) :=
  except_missing_or_eof (b ← open_rb fname files; o ← load b; Ok (Some o)).

End Cache.

(** [extract_structs(codeql_db_path, cache_fname)], lines 90-115, on the
    rows that [run_codeql_query] would answer; returns the catalogue
    and the file system it leaves. *)
Definition extract_structs {blob : Type} (dump : gmap string Struct → blob)
    (load : blob → result (gmap string Struct)) (rows : list Row)
    (cache_fname : option string) (files : gmap string blob)
  : result (gmap string Struct * gmap string blob) :=
  res ← match cache_fname with
        | Some fname => restore_object load fname files
        | None => Ok None
        end;
  match res with
  | Some structs => Ok (structs, files)
  | None =>
      structs ← build rows;
      Ok (structs,
          match cache_fname with
          | Some fname => save_object dump structs fname files
          | None => files
          end)
  end.

(** ** [extract_function_pointers] *)

(** Python's [dict] keeps its keys in insertion order, and this
    function iterates over its dicts: they are association lists with
    pairwise distinct keys, a new key going to the end. *)
Section Dict.
Context {K V : Type} `{EqDecision K}.

(** [d[k]], [None] standing for a missing key. *)
Fixpoint dict_get (k : K) (d : list (K * V)) : option V :=
  match d with
  | [] => None
  | (k', v) :: d' => if decide (k = k') then Some v else dict_get k d'
  end.

(** [d[k] = v]. *)
Fixpoint dict_set (k : K) (v : V) (d : list (K * V)) : list (K * V) :=
  match d with
  | [] => [(k, v)]
  | (k', v') :: d' =>
      if decide (k = k') then (k', v) :: d' else (k', v') :: dict_set k v d'
  end.

(** [d[k]] on a [defaultdict] whose factory answers [dflt], followed by
    the in-place update [f] of the value. *)
Fixpoint dict_update (f : V → V) (dflt : V) (k : K) (d : list (K * V))
  : list (K * V) :=
  match d with
  | [] => [(k, f dflt)]
  | (k', v) :: d' =>
      if decide (k = k') then (k', f v) :: d'
      else (k', v) :: dict_update f dflt k d'
  end.

End Dict.

(** A [for] loop whose body may raise. *)
Fixpoint for_each {A B : Type} (body : A → B → result A) (a : A) (l : list B)
  : result A :=
  match l with
  | [] => Ok a
  | x :: l' => a' ← body a x; for_each body a' l'
  end.

(** [(exported_func, exported_loc, sig)] *)
Definition Export : Type := string * string * string.

(** A call location [(file, start_row, start_col, end_row, end_col)]. *)
Definition Loc : Type := string * list Z.

(** One element of the result:
    [(name, loc, len(seen_locs) - 1, exp_func, sig)]. *)
Record Hit := mkHit {
  h_name : string;
  h_loc : Loc;
  h_index : Z;
  h_func : string;
  h_sig : string;
}.

(** Line 131:
    [name, typ, decl_loc, *call_loc, exported_func, exported_loc, sig = row];
    a row of fewer than six columns raises [ValueError]. *)
Definition unpack_row (row : list string)
  : result (string * string * list string * Export) :=
  match row with
  | name :: typ :: decl_loc :: rest =>
      match reverse rest with
      | sig :: exported_loc :: exported_func :: rev_call_loc =>
          Ok (name, decl_loc, reverse rev_call_loc,
              (exported_func, exported_loc, sig))
      | _ => Raise ValueError
      end
  | _ => Raise ValueError
  end.

(** Lines 131-133: the body of the first loop, on
    [(fptr_decls, fptr_calls)]. *)
Definition record_row
    (st : list (string * string)
          * list (string * list (list string * list Export)))
    (row : list string)
  : result (list (string * string)
            * list (string * list (list string * list Export))) :=
  '(name, decl_loc, call_loc, export) ← unpack_row row;
  Ok (dict_set name decl_loc st.1,
      dict_update (dict_update (λ exports, exports ++ [export]) [] call_loc)
                  [] name st.2).

(** [tuple(map(int, l))] *)
Fixpoint ints (l : list string) : result (list Z) :=
  match l with
  | [] => Ok []
  | s :: l' => n ← py_int s; ns ← ints l'; Ok (n :: ns)
  end.

(** Lines 143-144: [caller, file, *loc_in_file = call_loc] and [loc]. *)
Definition location (call_loc : list string) : result Loc :=
  match call_loc with
  | caller :: file :: loc_in_file =>
      ns ← ints loc_in_file; Ok (file, ns)
  | _ => Raise ValueError
  end.

(** Lines 146-147, on the set [seen_locs] kept in insertion order. *)
Definition see (loc : Loc) (seen_locs : list Loc) : list Loc :=
  if decide (loc ∈ seen_locs) then seen_locs else seen_locs ++ [loc].

(** Lines 143-150: the body of [for call_loc in calls], on
    [(res, seen_locs)]. *)
Definition emit_call (name : string)
    (calls : list (list string * list Export))
    (st : list Hit * list Loc) (call_loc : list string)
  : result (list Hit * list Loc) :=
  loc ← location call_loc;
  let seen_locs := see loc st.2 in
  Ok (st.1 ++ ((λ e : Export,
                  mkHit name loc (Z.of_nat (length seen_locs) - 1) e.1.1 e.2)
               <$> default [] (dict_get call_loc calls)),
      seen_locs).

(** Lines 139-150: the body of [for name, decl_loc in fptr_decls.items()]. *)
Definition emit_decl
    (fptr_calls : list (string * list (list string * list Export)))
    (st : list Hit * list Loc) (decl : string * string)
  : result (list Hit * list Loc) :=
  let calls := default [] (dict_get decl.1 fptr_calls) in
  for_each (emit_call decl.1 calls) st (calls.*1).

(** Lines 128-150: the result list of a query answer. *)
Definition function_pointers (rows : list (list string)) : result (list Hit) :=
  '(fptr_decls, fptr_calls) ← for_each record_row ([], []) rows;
  '(res, seen_locs) ← for_each (emit_decl fptr_calls) ([], []) fptr_decls;
  Ok res.

(** [extract_function_pointers(codeql_db_path, cache_fname)], lines
    118-155, on the rows that [run_codeql_query] would answer. *)
Definition extract_function_pointers {blob : Type} (dump : list Hit → blob)
    (load : blob → result (list Hit)) (rows : list (list string))
    (cache_fname : option string) (files : gmap string blob)
  : result (list Hit * gmap string blob) :=
  res ← match cache_fname with
        | Some fname => restore_object load fname files
        | None => Ok None
        end;
  match res with
  | Some hits => Ok (hits, files)
  | None =>
      hits ← function_pointers rows;
      Ok (hits,
          match cache_fname with
          | Some fname => save_object dump hits fname files
          | None => files
          end)
  end.

(** ** The analyzer: [find_globals] and [parse_constraints] *)

(** The fragment of [str] that [analyzer.py] adds to the one above. *)

(** [s.find(c)] for a one-character [c]: the lowest index holding [c],
    or [-1]. *)
Fixpoint find_from (i : Z) (c : ascii) (l : list ascii) : Z :=
  match l with
  | [] => -1
  | x :: l' => if bool_decide (x = c) then i else find_from (i + 1) c l'
  end.

Definition str_find (s : string) (c : ascii) : Z := find_from 0 c (Py.chars s).

Fixpoint starts_with (sub l : list ascii) : bool :=
  match sub, l with
  | [], _ => true
  | _ :: _, [] => false
  | x :: sub', y :: l' => bool_decide (x = y) && starts_with sub' l'
  end.

Fixpoint occurs (sub l : list ascii) : bool :=
  starts_with sub l
  || match l with
     | [] => false
     | _ :: l' => occurs sub l'
     end.

(** [sub in s] *)
Definition str_in (sub s : string) : bool := occurs (Py.chars sub) (Py.chars s).

Fixpoint split_chars (c : ascii) (l : list ascii) : list (list ascii) :=
  match l with
  | [] => [[]]
  | x :: l' =>
      if bool_decide (x = c) then [] :: split_chars c l'
      else match split_chars c l' with
           | part :: parts => (x :: part) :: parts
           | [] => [[x]]
           end
  end.

(** [s.split(c)] for a one-character separator. *)
Definition str_split (s : string) (c : ascii) : list string :=
  Py.str <$> split_chars c (Py.chars s).

(** [class Variable] of [variable.py] ([Variable] itself is a reserved
    word here); [type] is [None] unless given. *)
Record Variable_ := mkVariable {
  v_name : string;
  v_type : option string;
  v_size : Z;
  v_address : Z;
}.

(** What [parse_constraints] reads of a section of the loaded binary
    ([self.proj.loader.main_object.sections_map[section]]). *)
Record SectionInfo := mkSectionInfo {
  vaddr : Z;
  memsize : Z;
}.

(** The ways a call of the analyzer ends with an exception: one of
    [exn], or the [UnboundLocalError] of a local variable read before
    any assignment. *)
Inductive failure :=
  | Builtin (e : exn)
  | UnboundLocalError.

Inductive ended (A : Type) :=
  | Returned (a : A)
  | Raised (f : failure).
Arguments Returned {A} a.
Arguments Raised {A} f.

(** [find_globals(state)], lines 24-32, on the constraints of the
    solver; [str] is the text of a constraint. *)
Definition find_globals {C : Type} (str : C → string) (constraints : list C)
  : list string :=
  str <$> filter (λ c, str_in ".bss" (str c) || str_in ".data" (str c)) constraints.

(** What [print(e)] writes for the [SectionException] of line 52.  (The
    class comes from a module [exception] that is not part of the
    sources; it is taken to be an ordinary exception class, whose text
    is its argument.) *)
Definition no_section_message : string :=
  "Could not find .bss or .data in constraint.".

(** Lines 38-57, the body of the loop, on the value of the local
    variable [section] left by the constraints before ([None]: not yet
    bound).  The answer is what the body prints, and the new value of
    [section] with the parsed variable. *)
Definition parse_constraint (sections_map : gmap string SectionInfo)
    (section : option string) (c : string)
  : list string * ended (string * Variable_) :=
  let start_index := str_find c "[" in
  let end_index := str_find c "]" in
  let size_slice := Py.slice c (start_index + 1) end_index in
  match str_split size_slice ":" with
  | [max_pos; min_pos] =>
      match Py.int max_pos, Py.int min_pos with
      | Some max_pos, Some min_pos =>
          let size := (max_pos - min_pos + 1) `div` 8 in
          let '(out, section) :=
            if str_in ".bss" c then ([], Some ".bss"%string)
            else if str_in ".data" c then ([], Some ".data"%string)
            else ([no_section_message], section) in
          match section with
          | None => (out, Raised UnboundLocalError)
          | Some section =>
              match sections_map !! section with
              | None => (out, Raised (Builtin KeyError))
              | Some sec =>
                  let address :=
                    vaddr sec + memsize sec - (max_pos + 1) `div` 8 in
                  (out, Returned (section, mkVariable section None size address))
              end
          end
      | _, _ => ([], Raised (Builtin ValueError))
      end
  | _ => ([], Raised (Builtin ValueError))
  end.

(** Lines 37-57: the loop, from a value of [section] and a list
    [parsed_constraints]. *)
Fixpoint parse_constraints_from (sections_map : gmap string SectionInfo)
    (section : option string) (parsed_constraints : list Variable_)
    (constraints : list string) : list string * ended (list Variable_) :=
  match constraints with
  | [] => ([], Returned parsed_constraints)
  | c :: constraints' =>
      match parse_constraint sections_map section c with
      | (out, Returned (section', v)) =>
          let '(out', r) :=
            parse_constraints_from sections_map (Some section')
              (parsed_constraints ++ [v]) constraints' in
          (out ++ out', r)
      | (out, Raised f) => (out, Raised f)
      end
  end.

(** [parse_constraints(constraints)], lines 34-58: what it prints and
    how it ends. *)
Definition parse_constraints (sections_map : gmap string SectionInfo)
    (constraints : list string) : list string * ended (list Variable_) :=
  parse_constraints_from sections_map None [] constraints.

(** * Vocabulary of the properties *)

(** ** Ancestor chains, used to bound the loop of [parse_struct_ptr] *)

(** [rooted p x d]: following [parent] from [x] leaves the keys of
    [parent] after [d] hops (the [while par in parent] loop started at
    [x] would stop because [par] is no key). *)
Inductive rooted (p : gmap string string) : string → nat → Prop :=
  | rooted_end x : p !! x = None → rooted p x 0%nat
  | rooted_step x y d : p !! x = Some y → rooted p y d → rooted p x (S d).

(** A name whose chain never leaves the keys of [parent]. *)
Definition looping (p : gmap string string) (x : string) : Prop :=
  ∀ d, ¬ rooted p x d.

(** A node met at breadth-first level [l] has, when rooted, at least
    [l] ancestors. *)
Definition deep (p : gmap string string) (l : nat) (x : string) : Prop :=
  ∀ d, rooted p x d → (l ≤ d)%nat.

(** The number of children one field can enqueue. *)
Definition fanout_field (f : StructField) : nat :=
  match array_member (f_type f) (f_size f) with
  | Ok (array_sz, _, _) => Z.to_nat array_sz
  | _ => 0%nat
  end.

Definition fanout (fs : list StructField) : nat :=
  sum_list (fanout_field <$> fs).

Definition max_fanout (structs : gmap string Struct) : nat :=
  max_list ((λ kv, fanout (s_fields kv.2)) <$> map_to_list structs).

(** [weight B r] bounds the size of a tree of height [r] and arity [B]. *)
Fixpoint weight (B r : nat) : nat :=
  match r with
  | O => 1%nat
  | S r' => (1 + B * weight B r')%nat
  end.

(** The height still available to a node of level [k] when [z] names
    are known to loop, in a catalogue of [n] names. *)
Definition rank (n k z : nat) : nat := ((n - k) + (n - z))%nat.

(** The work left in a queue whose first [a] nodes are of level [k]
    and whose last [b] nodes are of level [S k]. *)
Definition work (B n k z a b : nat) : nat :=
  (a * weight B (rank n k z) + b * weight B (rank n (S k) z))%nat.

(** Fuel that suffices for every [resolve] on [structs]. *)
Definition enough_fuel (structs : gmap string Struct) : nat :=
  S (weight (max_fanout structs) (2 * size structs)).

(** ** The state of the loop *)

(** The immutable part of a [Pointer]. *)
Definition header (p : Pointer) : string * Z := (p_name p, p_size p).

(** The two ways a field leaves the state: only slots of [cur] are
    written, or [parent[t]] is set and [n] children named [t] are
    appended to the store and to the queue. *)
Definition field_step (structs : gmap string Struct) (cur : nat)
    (f : StructField) (st st' : state) : Prop :=
  (q st' = q st ∧ parent st' = parent st
   ∧ header <$> heap st' = header <$> heap st)
  ∨ ∃ t n sz,
      detect_loop (parent st) t (p_name (heap st !!! cur)) = Ok false
      ∧ parent st' = <[t:=p_name (heap st !!! cur)]> (parent st)
      ∧ q st' = q st ++ seq (length (heap st)) n
      ∧ header <$> heap st' = (header <$> heap st) ++ replicate n (t, sz)
      ∧ (n ≤ fanout_field f)%nat
      ∧ (n ≠ 0%nat → ∃ s, structs !! t = Some s ∧ sz = s_size s).

(** No name is its own parent, and every parent is a catalogue name. *)
Definition closed (K : gset string) (p : gmap string string) : Prop :=
  ∀ x y, p !! x = Some y → x ≠ y ∧ y ∈ K.

(** Handle [h] is a node of the store, named by the catalogue, met at
    level [l]. *)
Definition at_level (structs : gmap string Struct) (st : state) (l h : nat)
  : Prop :=
  ∃ x sz, (header <$> heap st) !! h = Some (x, sz)
          ∧ x ∈ dom structs ∧ deep (parent st) l x.

(** The queue is [q1 ++ q2], nodes of level [k] before nodes of level
    [S k]; the names of [L] are known to loop. *)
Definition bfs_inv (structs : gmap string Struct) (k : nat) (L : gset string)
    (q1 q2 : list nat) (st : state) : Prop :=
  q st = q1 ++ q2
  ∧ closed (dom structs) (parent st)
  ∧ L ⊆ dom structs
  ∧ (∀ x, x ∈ L → looping (parent st) x)
  ∧ Forall (at_level structs st k) q1
  ∧ Forall (at_level structs st (S k)) q2.

(** Every reference of the store points forward, to an existing object. *)
Definition forward (hp : list Pointer) : Prop :=
  ∀ h p off c, hp !! h = Some p → p_fields p !! off = Some (VRef c) →
               (h < c < length hp)%nat.

(** The only exceptions of the resolver: a field whose array suffix does
    not parse ([ValueError]) or is zero ([ZeroDivisionError]). *)
Definition malformed (fs : list StructField) (e : exn) : Prop :=
  ∃ f, f ∈ fs ∧ array_member (f_type f) (f_size f) = Raise e.

(** Every field of every structure has a usable array suffix (or none). *)
Definition array_suffix_ok (f : StructField) : bool :=
  match array_member (f_type f) (f_size f) with
  | Ok _ => true
  | _ => false
  end.

Definition well_formed (structs : gmap string Struct) : bool :=
  forallb (λ kv, forallb array_suffix_ok (s_fields kv.2)) (map_to_list structs).

(** ** The nodes the loop dequeues *)

(** [visits structs st st']: the [while q] loop entered in state [st]
    tests its condition in state [st'], every round before that test
    having ended without an exception. *)
Inductive visits (structs : gmap string Struct) : state → state → Prop :=
  | visits_here st : visits structs st st
  | visits_round st cur rest s st1 st' :
      q st = cur :: rest →
      structs !! p_name (heap st !!! cur) = Some s →
      process_fields structs cur (mkState (heap st) rest (parent st))
        (s_fields s) = Ok st1 →
      visits structs st1 st' →
      visits structs st st'.

(** [parse_struct_ptr(name, structs)] dequeues a node of structure [x]:
    [q.popleft()] on line 26 returns a [Pointer] named [x]. *)
Definition dequeues (structs : gmap string Struct) (name x : string) : Prop :=
  ∃ s0 st cur rest,
    structs !! name = Some s0
    ∧ visits structs (mkState [mkPointer name (s_size s0) ∅] [0%nat] ∅) st
    ∧ q st = cur :: rest
    ∧ p_name (heap st !!! cur) = x.

(** [f] is the first field of [fs] whose array suffix raises, and [e]
    is the exception. *)
Definition first_malformed (fs : list StructField) (f : StructField)
    (e : exn) : Prop :=
  ∃ pre post, fs = pre ++ f :: post
              ∧ Forall (λ g, array_suffix_ok g = true) pre
              ∧ array_member (f_type f) (f_size f) = Raise e.

(** The loop dequeues a node whose structure has a malformed field, the
    first of which raises [e]. *)
Definition meets_malformed (structs : gmap string Struct) (name : string)
    (e : exn) : Prop :=
  ∃ x s f, dequeues structs name x ∧ structs !! x = Some s
           ∧ first_malformed (s_fields s) f e.

(** ** Trees, example catalogues and catalogue entries *)

Definition type_name (t : LayoutNode) : string :=
  match t with Node n _ _ => n end.

Definition total_size (t : LayoutNode) : Z :=
  match t with Node _ sz _ => sz end.

Definition fields (t : LayoutNode) : gmap Z FieldSlot :=
  match t with Node _ _ fs => fs end.

(** [{A: Struct(szA, [(nA, "B *", offA, fsA)]),
      B: Struct(szB, [(nB, "A *", offB, fsB)])}] *)
Definition mutual (szA szB offA offB fsA fsB : Z) (nA nB : string)
  : gmap string Struct :=
  <["A" := mkStruct szA [mkStructField nA "B *" offA fsA]]>
    (<["B" := mkStruct szB [mkStructField nB "A *" offB fsB]]> ∅).

(** [{S: Struct(4, [("a", "int []", 0, 4)])}] *)
Definition empty_suffix : gmap string Struct :=
  {[ "S" := mkStruct 4 [mkStructField "a" "int []" 0 4] ]}.

(** [{A: Struct(8, [("b", "B *", 0, 8)]),
      B: Struct(16, [("a", "A *", 0, 8), ("x", "int [0]", 8, 8)])}] *)
Definition zero_suffix_cycle : gmap string Struct :=
  <["A" := mkStruct 8 [mkStructField "b" "B *" 0 8]]>
    (<["B" := mkStruct 16 [mkStructField "a" "A *" 0 8;
                           mkStructField "x" "int [0]" 8 8]]> ∅).

(** [{S: Struct(8, [("a", "int", 0, 4), ("b", "int [0]", 4, 4)])}] *)
Definition zero_suffix : gmap string Struct :=
  {[ "S" := mkStruct 8 [mkStructField "a" "int" 0 4;
                        mkStructField "b" "int [0]" 4 4] ]}.

(** The rows that declare structure [s], in the order of the input. *)
Definition rows_of (s : string) (rows : list Row) : list Row :=
  filter (λ r, r_struct r = s) rows.

Definition to_int (s : string) : Z := default 0 (Py.int s).

Definition field_of (r : Row) : StructField :=
  mkStructField (r_fname r) (r_ftype r) (to_int (r_foff r)) (to_int (r_fsize r)).

(** The entry of a structure with earlier entry [old] after its rows [rs]. *)
Definition entry (old : option Struct) (rs : list Row) : option Struct :=
  match old, rs with
  | Some st, _ => Some (mkStruct (s_size st) (s_fields st ++ (field_of <$> rs)))
  | None, [] => None
  | None, r :: _ => Some (mkStruct (to_int (r_size r)) (field_of <$> rs))
  end.

Definition numeric (r : Row) : Prop :=
  is_Some (Py.int (r_size r)) ∧ is_Some (Py.int (r_foff r))
  ∧ is_Some (Py.int (r_fsize r)).

(** ** The result of [extract_function_pointers] *)

Definition Calls : Type := list (list string * list Export).

(** The rows behind the dict of dicts [fptr_calls]. *)
Definition flat_calls (fptr_calls : list (string * Calls))
  : list (string * list string * Export) :=
  kv ← fptr_calls; ce ← kv.2; (λ e, (kv.1, ce.1, e)) <$> ce.2.

(** What the second loop relies on. *)
Definition recorded (fptr_decls : list (string * string))
    (fptr_calls : list (string * Calls)) : Prop :=
  fptr_decls.*1 = fptr_calls.*1
  ∧ NoDup fptr_calls.*1
  ∧ Forall (λ kv, NoDup kv.2.*1 ∧ Forall (λ ce, ce.2 ≠ []) kv.2) fptr_calls.

Definition part (u : string * string * list string * Export)
  : string * list string * Export := (u.1.1.1, u.1.2, u.2).

(** Lines 143-150 on one call location with its exports. *)
Definition emit (st : list Hit * list Loc)
    (t : string * (list string * list Export)) : result (list Hit * list Loc) :=
  loc ← location t.2.1;
  let seen_locs := see loc st.2 in
  Ok (st.1 ++ ((λ e : Export,
                  mkHit t.1 loc (Z.of_nat (length seen_locs) - 1) e.1.1 e.2)
               <$> t.2.2),
      seen_locs).

(** The call locations of [fptr_calls], in the order of the second loop. *)
Definition call_sites (fptr_calls : list (string * Calls))
  : list (string * (list string * list Export)) :=
  kv ← fptr_calls; (λ ce, (kv.1, ce)) <$> kv.2.

Definition Core : Type := string * Loc * string * string.

Definition hit_core (h : Hit) : Core := (h_name h, h_loc h, h_func h, h_sig h).

Definition core_of (p : string * list string * Export) : result Core :=
  loc ← location p.1.2; Ok (p.1.1, loc, p.2.1.1, p.2.2).

(** What a row contributes to the result, index apart. *)
Definition row_core (row : list string) : result Core :=
  '(name, decl_loc, call_loc, export) ← unpack_row row;
  loc ← location call_loc;
  Ok (name, loc, export.1.1, export.2).

Definition well_formed_row (row : list string) : Prop :=
  ∃ name typ decl_loc caller file loc_in_file exported_func exported_loc sig,
    row = [name; typ; decl_loc; caller; file] ++ loc_in_file
          ++ [exported_func; exported_loc; sig]
    ∧ Forall (λ s, is_Some (Py.int s)) loc_in_file.

(** The number of distinct call locations among hits. *)
Definition distinct_locs (hits : list Hit) : nat :=
  length (remove_dups (h_loc <$> hits)).

(** [seen_locs] holds the locations of [res], and every hit carries the
    number of distinct locations up to itself, less one. *)
Definition indexed (st : list Hit * list Loc) : Prop :=
  NoDup st.2
  ∧ (∀ loc, loc ∈ st.2 ↔ loc ∈ h_loc <$> st.1)
  ∧ ∀ i h, st.1 !! i = Some h →
           h_index h = Z.of_nat (distinct_locs (take (S i) st.1)) - 1.

(** The distinct elements of a list, in the order of their first
    occurrences. *)
Fixpoint firsts {A} `{EqDecision A} (l : list A) : list A :=
  match l with
  | [] => []
  | x :: l' => x :: filter (λ y, y ≠ x) (firsts l')
  end.

(** The rows grouped as the result has them: the function pointers in
    the order of their first rows, under each one its call locations in
    the order of their first rows, under each of those the rows in their
    order. *)
Definition regroup (ps : list (string * list string * Export))
  : list (string * list string * Export) :=
  name ← firsts ps.*1.*1;
  call_loc ← firsts (filter (λ p, p.1.1 = name) ps).*1.*2;
  filter (λ p, p.1 = (name, call_loc)) ps.

(** The part of a row that the first loop stores. *)
Definition row_part (row : list string)
  : option (string * list string * Export) :=
  match unpack_row row with
  | Ok u => Some (part u)
  | _ => None
  end.

Definition tabulate {K V} (g : K → V) (ks : list K) : list (K * V) :=
  (λ k, (k, g k)) <$> ks.

(** [fptr_calls] after the rows [ps]. *)
Definition grouped (ps : list (string * list string * Export))
  : list (string * Calls) :=
  tabulate
    (λ name,
       tabulate (λ call_loc,
                   (λ p, p.2) <$> filter (λ p, p.1 = (name, call_loc)) ps)
                (firsts (filter (λ p, p.1.1 = name) ps).*1.*2))
    (firsts ps.*1.*1).

Definition example_rows : list (list string) :=
  [["fp"; "void (*)(int)"; "a.c:3"; "f"; "a.c"; "10"; "2"; "10"; "9";
    "api"; "a.c:1"; "int"];
   ["hp"; "hook_t"; "b.c:7"; "g"; "b.c"; "4"; "1"; "4"; "8";
    "run"; "b.c:2"; "void"];
   ["hp"; "hook_t"; "b.c:7"; "f"; "a.c"; "10"; "2"; "10"; "9";
    "api"; "a.c:1"; "int"]]%string.

Definition example_hits : list Hit :=
  [mkHit "fp" ("a.c", [10; 2; 10; 9]) 0 "api" "int";
   mkHit "hp" ("b.c", [4; 1; 4; 8]) 1 "run" "void";
   mkHit "hp" ("a.c", [10; 2; 10; 9]) 1 "api" "int"]%string.

(** A file system that holds pickled catalogues and pickled results. *)
Definition pickle_structs (structs : gmap string Struct)
  : gmap string Struct + list Hit := inl structs.

Definition unpickle_structs (b : gmap string Struct + list Hit)
  : result (gmap string Struct) :=
  match b with inl structs => Ok structs | inr _ => Raise UnpicklingError end.

Definition pickle_hits (hits : list Hit) : gmap string Struct + list Hit :=
  inr hits.

Definition unpickle_hits (b : gmap string Struct + list Hit) : result (list Hit) :=
  match b with inr hits => Ok hits | inl _ => Raise UnpicklingError end.

(** ** The object store, ancestors and children *)

(** Every object of the store is an entry of the catalogue, with the
    size the catalogue declares. *)
Definition catalogued (structs : gmap string Struct) (hp : list Pointer) : Prop :=
  ∀ h p, hp !! h = Some p →
         ∃ s, structs !! p_name p = Some s ∧ p_size p = s_size s.

(** No object is referenced by two slots. *)
Definition unshared (hp : list Pointer) : Prop :=
  ∀ h1 p1 off1 h2 p2 off2 c,
    hp !! h1 = Some p1 → p_fields p1 !! off1 = Some (VRef c) →
    hp !! h2 = Some p2 → p_fields p2 !! off2 = Some (VRef c) →
    h1 = h2 ∧ off1 = off2.

(** The objects still in the queue exist and have no slot yet. *)
Definition pending (st : state) : Prop :=
  ∀ h, h ∈ q st → ∃ p, heap st !! h = Some p ∧ p_fields p = ∅.

(** What the loop of [parse_struct_ptr] keeps true of its state. *)
Definition sound (structs : gmap string Struct) (st : state) : Prop :=
  catalogued structs (heap st) ∧ forward (heap st) ∧ unshared (heap st)
  ∧ pending st ∧ NoDup (q st).

Definition sound_at (structs : gmap string Struct) (cur : nat) (st : state)
  : Prop :=
  sound structs st ∧ (cur < length (heap st))%nat ∧ cur ∉ q st.

(** [reaches p x k y]: [y] is [k] hops of [parent] above [x]. *)
Inductive reaches (p : gmap string string) : string → nat → string → Prop :=
  | reaches_O x : reaches p x 0 x
  | reaches_S x y k z : p !! x = Some y → reaches p y k z → reaches p x (S k) z.

(** The state after the rounds [l] of the loop of lines 75-79, for a
    known target. *)
Definition children_added (cur : nat) (new : Pointer) (foff e : Z)
    (l : list Z) (st st' : state) : Prop :=
  q st' = q st ++ seq (length (heap st)) (length l)
  ∧ parent st' = parent st
  ∧ length (heap st') = (length (heap st) + length l)%nat
  ∧ (∀ h, (h < length (heap st))%nat → h ≠ cur → heap st' !! h = heap st !! h)
  ∧ (∀ k, (k < length l)%nat → heap st' !! (length (heap st) + k)%nat = Some new)
  ∧ ∀ p, heap st !! cur = Some p →
         ∃ p', heap st' !! cur = Some p'
               ∧ p_name p' = p_name p ∧ p_size p' = p_size p
               ∧ (∀ k i, l !! k = Some i →
                         (∀ k' i', (k < k')%nat → l !! k' = Some i' →
                                   foff + i' * e ≠ foff + i * e) →
                         p_fields p' !! (foff + i * e)
                         = Some (VRef (length (heap st) + k)))
               ∧ (∀ off, (∀ i, i ∈ l → off ≠ foff + i * e) →
                         p_fields p' !! off = p_fields p !! off).

(** ** The analyzer *)

(** The section a constraint names, [.bss] first. *)
Definition section_of (c : string) : option string :=
  if str_in ".bss" c then Some ".bss"%string
  else if str_in ".data" c then Some ".data"%string
  else None.

(** The bit range [(max_pos, min_pos)] that lines 38-43 read off a
    constraint, when they do not raise. *)
Definition bit_range (c : string) : option (Z * Z) :=
  match str_split (Py.slice c (str_find c "[" + 1) (str_find c "]")) ":" with
  | [max_pos; min_pos] =>
      match Py.int max_pos, Py.int min_pos with
      | Some max_pos, Some min_pos => Some (max_pos, min_pos)
      | _, _ => None
      end
  | _ => None
  end.

(** The value of the local variable [section] after the constraints
    [cs], from the value [section]. *)
Definition section_after (section : option string) (cs : list string)
  : option string :=
  foldl (λ sec c, match section_of c with Some s => Some s | None => sec end)
        section cs.

Definition example_sections : gmap string SectionInfo :=
  {[ ".bss" := mkSectionInfo 4096 64; ".data" := mkSectionInfo 8192 32 ]}%string.

Definition example_constraints : list string :=
  ["<Bool .bss_0_512[511:504] == 65>"; "<Bool .data_1_256[15:0] != 0>";
   "<Bool argv1[7:0] == 0>"]%string.

Definition example_variables : list Variable_ :=
  [mkVariable ".bss" None 1 4096; mkVariable ".data" None 2 8222;
   mkVariable ".data" None 1 8223]%string.

(** ** Trees that conform to the catalogue *)

(** [off] is the place of an element of a member of [s] whose element
    type [t] and element size [e] satisfy [P]. *)
Definition element_of (s : Struct) (off : Z) (P : string → Z → Prop) : Prop :=
  ∃ f n t e i,
    f ∈ s_fields s ∧ array_member (f_type f) (f_size f) = Ok (n, t, e)
    ∧ 0 ≤ i < n ∧ off = f_offset f + i * e ∧ P t e.

(** The pointer target that lines 44-45 read off an element type. *)
Definition target (t : string) : string := Py.strip (Py.slice t 0 (-1)).

(** Every slot of the store comes from a member of its node's
    structure: a scalar slot holds the element size, a reference leads
    to an object named by the member's pointer target. *)
Definition slots_declared (structs : gmap string Struct) (hp : list Pointer)
  : Prop :=
  ∀ h p off v, hp !! h = Some p → p_fields p !! off = Some v →
    ∃ s, structs !! p_name p = Some s
         ∧ element_of s off (λ t e,
             match v with
             | VInt sz => sz = e
             | VRef c =>
                 Py.endswith t "*" = true
                 ∧ ∃ pc, hp !! c = Some pc ∧ p_name pc = target t
             end).

(** A tree conforms to the catalogue: every node is an entry of the
    catalogue with the declared size, every slot is the place of an
    element of a member of that entry, a scalar slot holds the element
    size and a nested node has the type the member points to. *)
Inductive conforms (structs : gmap string Struct) : LayoutNode → Prop :=
  | conforms_node name size fs s :
      structs !! name = Some s → size = s_size s →
      (∀ off sz, fs !! off = Some (Scalar sz) →
                 element_of s off (λ _ e, sz = e)) →
      (∀ off child, fs !! off = Some (Nested child) →
         element_of s off (λ t _, Py.endswith t "*" = true
                                  ∧ type_name child = target t)
         ∧ conforms structs child) →
      conforms structs (Node name size fs).

(** * Proofs *)

(** ** Chains *)

Lemma rooted_fun p x d d' : rooted p x d → rooted p x d' → d = d'.
Proof.
  intros H; revert d'; induction H as [x Hx|x y d Hxy _ IH]; intros d' H'.
  - inversion H'; simplify_eq; done.
  - inversion H'; simplify_eq. f_equal. by apply IH.
Qed.

(** A chain of the updated map either is a chain of the old map, or
    runs through the new edge and then along an old chain of [c]. *)
Lemma rooted_insert p t c x d :
  rooted (<[t:=c]> p) x d →
  rooted p x d ∨ ∃ d2, rooted p c d2 ∧ (d2 < d)%nat.
Proof.
  induction 1 as [x Hx|x y d Hxy Hy IH].
  - left. constructor. destruct (decide (t = x)) as [->|Hne].
    + by rewrite lookup_insert_eq in Hx.
    + by rewrite lookup_insert_ne in Hx.
  - destruct (decide (t = x)) as [->|Hne].
    + rewrite lookup_insert_eq in Hxy. simplify_eq. right.
      destruct IH as [IH|(d2 & IH & Hlt)]; [exists d|exists d2]; split; auto; lia.
    + rewrite lookup_insert_ne in Hxy by done.
      destruct IH as [IH|(d2 & IH & Hlt)].
      * left. by econstructor.
      * right. exists d2. split; [done|lia].
Qed.

(** Updating the parent of a rooted name roots nothing new. *)
Lemma rooted_insert_old p t c x d dt :
  rooted p t dt → rooted (<[t:=c]> p) x d → ∃ d', rooted p x d'.
Proof.
  intros Ht. induction 1 as [x Hx|x y d Hxy Hy IH].
  - destruct (decide (t = x)) as [->|Hne]; [by eauto|].
    rewrite lookup_insert_ne in Hx by done. exists 0%nat. by constructor.
  - destruct (decide (t = x)) as [->|Hne]; [by eauto|].
    rewrite lookup_insert_ne in Hxy by done.
    destruct IH as [d' IH]. exists (S d'). by econstructor.
Qed.

Lemma looping_insert p t c x dt :
  rooted p t dt → looping p x → looping (<[t:=c]> p) x.
Proof.
  intros Ht Hx d Hd. destruct (rooted_insert_old _ _ _ _ _ _ Ht Hd) as [d' Hd'].
  by apply (Hx d').
Qed.

(** Hanging a name under a looping name makes it loop. *)
Lemma looping_insert_new p t c dt :
  rooted p t dt → looping p c → looping (<[t:=c]> p) t.
Proof.
  intros Ht Hc d Hd. inversion Hd as [x Hx|x y d' Hxy Hy]; simplify_eq.
  - by rewrite lookup_insert_eq in Hx.
  - rewrite lookup_insert_eq in Hxy. simplify_eq.
    destruct (rooted_insert_old _ _ _ _ _ _ Ht Hy) as [d2 Hd2]. by apply (Hc d2).
Qed.

(** Levels survive an expansion made by a node of level [k]. *)
Lemma deep_insert p t c k l x :
  deep p k c → deep p l x → (l ≤ S k)%nat → deep (<[t:=c]> p) l x.
Proof.
  intros Hc Hx Hl d Hd.
  destruct (rooted_insert _ _ _ _ _ Hd) as [Hd'|(d2 & Hd2 & Hlt)].
  - by apply Hx.
  - apply Hc in Hd2. lia.
Qed.

Lemma deep_insert_new p t c k :
  deep p k c → deep (<[t:=c]> p) (S k) t.
Proof.
  intros Hc d Hd. inversion Hd as [x Hx|x y d' Hxy Hy]; simplify_eq.
  - by rewrite lookup_insert_eq in Hx.
  - rewrite lookup_insert_eq in Hxy. simplify_eq.
    destruct (rooted_insert _ _ _ _ _ Hy) as [Hd'|(d2 & Hd2 & Hlt)].
    + apply Hc in Hd'. lia.
    + apply Hc in Hd2. lia.
Qed.

Lemma deep_mono p l l' x : (l' ≤ l)%nat → deep p l x → deep p l' x.
Proof. intros Hl Hx d Hd. apply Hx in Hd. lia. Qed.

(** The names on a chain are pairwise distinct. *)
Lemma rooted_chain p x d :
  rooted p x d →
  ∃ l : list string,
    length l = S d ∧ NoDup l
    ∧ (∀ z, z ∈ l → z = x ∨ ∃ w, p !! w = Some z)
    ∧ (∀ z, z ∈ l → ∃ dz, (dz ≤ d)%nat ∧ rooted p z dz).
Proof.
  induction 1 as [x Hx|x y d Hxy Hy (l & Hlen & Hnd & Hval & Hdep)].
  - exists [x]. split_and!; [done|apply NoDup_singleton|..].
    + intros z ->%list_elem_of_singleton. by left.
    + intros z ->%list_elem_of_singleton. exists 0%nat. split; [lia|by constructor].
  - exists (x :: l). split_and!.
    + simpl. by rewrite Hlen.
    + apply NoDup_cons. split; [|done]. intros Hin.
      destruct (Hdep _ Hin) as (dz & Hle & Hz).
      assert (dz = S d) by (eapply rooted_fun; [done|by econstructor]). lia.
    + intros z [->|Hin]%elem_of_cons; [by left|]. right.
      destruct (Hval _ Hin) as [->|?]; eauto.
    + intros z [->|Hin]%elem_of_cons.
      * exists (S d). split; [lia|by econstructor].
      * destruct (Hdep _ Hin) as (dz & Hle & Hz). exists dz. split; [lia|done].
Qed.

(** A chain that starts in a set of names closed under [parent] is
    shorter than the set. *)
Lemma rooted_bound (K : gset string) p x d :
  (∀ w z, p !! w = Some z → z ∈ K) → x ∈ K → rooted p x d →
  (d < size K)%nat.
Proof.
  intros Hval Hx Hd.
  destruct (rooted_chain _ _ _ Hd) as (l & Hlen & Hnd & Hin & _).
  assert (list_to_set l ⊆ K) as Hsub.
  { intros z Hz%elem_of_list_to_set. destruct (Hin _ Hz) as [->|[w Hw]]; eauto. }
  apply subseteq_size in Hsub. rewrite size_list_to_set in Hsub by done. lia.
Qed.

(** ** The ancestor walk *)

(** The walk visits each key of [parent] at most once, so the fuel
    that [detect_loop] gives it is enough. *)
Lemma walk_is_Some fuel p ftype par seen :
  par ∈ (list_to_set seen ∪ {[ftype]} : gset string) →
  (size (dom p ∖ ((list_to_set seen ∪ {[ftype]}) ∖ {[par]})) < fuel)%nat →
  is_Some (walk fuel p ftype par seen).
Proof.
  revert par seen. induction fuel as [|fuel IH]; intros par seen Hpar Hlt; [lia|].
  simpl. destruct (p !! par) as [newpar|] eqn:Hp; [|by eauto].
  destruct (bool_decide (newpar = ftype) || bool_decide (newpar ∈ seen)) eqn:Hchk;
    [by eauto|].
  apply orb_false_iff in Hchk as [Hne%bool_decide_eq_false Hns%bool_decide_eq_false].
  case_bool_decide as Hself; [by eauto|].
  apply IH; [set_solver|].
  assert (par ∈ dom p) by (apply elem_of_dom; eauto).
  set (A' := dom p ∖ ((list_to_set (newpar :: seen) ∪ {[ftype]}) ∖ {[newpar]})).
  set (A := dom p ∖ ((list_to_set seen ∪ {[ftype]}) ∖ {[par]})) in Hlt.
  assert (size ({[par]} ∪ A') ≤ size A)%nat as Hle
    by (apply subseteq_size; set_solver).
  rewrite size_union, size_singleton in Hle by set_solver. lia.
Qed.

Lemma detect_loop_is_Ok p ftype cur_name :
  ∃ inf, detect_loop p ftype cur_name = Ok inf.
Proof.
  unfold detect_loop. case_bool_decide; [by eauto|].
  destruct (walk_is_Some (S (size p)) p ftype ftype (Py.set_of_str ftype))
    as [inf Hinf]; [set_solver| |rewrite Hinf; by eauto].
  rewrite <-size_dom. apply Nat.lt_succ_r, subseteq_size. set_solver.
Qed.

(** When the walk answers [inf = False], the chain from the start is
    rooted (no key of [parent] is its own parent). *)
Lemma walk_false_rooted fuel p ftype par seen :
  (∀ x, p !! x ≠ Some x) →
  walk fuel p ftype par seen = Some false → ∃ d, rooted p par d.
Proof.
  intros Hirr. revert par seen.
  induction fuel as [|fuel IH]; intros par seen Hw; [done|].
  simpl in Hw. destruct (p !! par) as [newpar|] eqn:Hp.
  - destruct (bool_decide (newpar = ftype) || bool_decide (newpar ∈ seen)); [done|].
    case_bool_decide as Hself; [subst; by destruct (Hirr par)|].
    destruct (IH _ _ Hw) as [d Hd]. exists (S d). by econstructor.
  - exists 0%nat. by constructor.
Qed.

Lemma detect_loop_false_rooted p ftype cur_name :
  (∀ x, p !! x ≠ Some x) →
  detect_loop p ftype cur_name = Ok false →
  ftype ≠ cur_name ∧ ∃ d, rooted p ftype d.
Proof.
  intros Hirr. unfold detect_loop. case_bool_decide; [done|].
  destruct (walk _ _ _ _ _) as [[]|] eqn:Hw; try done.
  intros _. split; [done|]. by eapply walk_false_rooted.
Qed.

(** ** Strings *)

Lemma chars_app s1 s2 : Py.chars (s1 +:+ s2) = Py.chars s1 ++ Py.chars s2.
Proof.
  unfold Py.chars. induction s1 as [|c s1 IH]; simpl; [done|]. by rewrite IH.
Qed.

Lemma str_chars s : Py.str (Py.chars s) = s.
Proof. apply String.string_of_list_ascii_of_string. Qed.

Lemma chars_str l : Py.chars (Py.str l) = l.
Proof. apply String.list_ascii_of_string_of_list_ascii. Qed.

Lemma append_snoc s c s' :
  s +:+ String c s' = (s +:+ String c EmptyString) +:+ s'.
Proof.
  induction s as [|x s IH]; [done|].
  change (String x (s +:+ String c s') = String x ((s +:+ String c "") +:+ s')).
  by rewrite <-IH.
Qed.

Lemma endswith_snoc s c c' :
  Py.endswith (s +:+ String c EmptyString) c' = bool_decide (c = c').
Proof. unfold Py.endswith. rewrite chars_app. simpl. by rewrite last_snoc. Qed.

Lemma slice_drop_last s c :
  Py.slice (s +:+ String c EmptyString) 0 (-1) = s.
Proof.
  unfold Py.slice, Py.clamp. rewrite chars_app, length_app. simpl.
  replace (Z.min 0 _) with 0 by lia.
  replace (Z.to_nat 0) with 0%nat by done. rewrite drop_0.
  replace (Z.to_nat _) with (length (Py.chars s)) by lia.
  by rewrite take_app_length, str_chars.
Qed.

Lemma lstrip_snoc l c :
  Py.lstrip (l ++ [c])
  = match Py.lstrip l with
    | [] => if Py.is_space c then [] else [c]
    | _ => Py.lstrip l ++ [c]
    end.
Proof.
  induction l as [|x l IH]; simpl; [done|]. by destruct (Py.is_space x).
Qed.

Lemma strip_chars_snoc_space l c :
  Py.is_space c = true → Py.strip_chars (l ++ [c]) = Py.strip_chars l.
Proof.
  intros Hc. unfold Py.strip_chars. rewrite lstrip_snoc, Hc.
  destruct (Py.lstrip l) as [|x l'] eqn:Hl; [done|].
  rewrite reverse_app. simpl. by rewrite Hc.
Qed.

Lemma strip_chars_snoc_other l c :
  Py.is_space c = false → ∃ l', Py.strip_chars (l ++ [c]) = l' ++ [c].
Proof.
  intros Hc. unfold Py.strip_chars. rewrite lstrip_snoc, Hc.
  destruct (Py.lstrip l) as [|x l'] eqn:Hl.
  - exists []. simpl. by rewrite Hc.
  - rewrite reverse_app. simpl. rewrite Hc. rewrite reverse_cons, reverse_involutive.
    by eauto.
Qed.

(** ** [int()] at the edges of its syntax *)

(** [int()] skips blanks, tabs and line ends around the literal but
    refuses the separators 28-31 that [str.strip()] removes; it accepts
    one sign and single underscores between digits; and it refuses a
    literal of more than 4300 digits. *)
Lemma int_examples :
  Py.int " 4 " = Some 4
  ∧ Py.int (String (ascii_of_nat 160) "4") = Some 4
  ∧ Py.int (String (ascii_of_nat 28) "4") = None
  ∧ Py.strip (String (ascii_of_nat 28) "4") = "4"%string
  ∧ Py.int "-1_0" = Some (-10)
  ∧ Py.int "+ 4" = None
  ∧ Py.int "" = None
  ∧ Py.int (Py.str (replicate 4300 "0"%char)) = Some 0
  ∧ Py.int (Py.str (replicate 4301 "0"%char)) = None
  ∧ array_member ("int [" +:+ String (ascii_of_nat 28) "4]") 16 = Raise ValueError.
Proof. split_and!; vm_compute; reflexivity. Qed.

(** ** What one field does to the state *)

Lemma header_set_field h off v hp :
  header <$> set_field h off v hp = header <$> hp.
Proof.
  unfold set_field. rewrite (list_fmap_alter header _ id).
  - revert h. induction hp as [|p hp IH]; intros [|h]; simpl; try done.
    f_equal. apply IH.
  - by apply Forall_true.
Qed.

Lemma length_set_field h off v hp : length (set_field h off v hp) = length hp.
Proof. apply length_alter. Qed.

Lemma store_scalars_frame cur foff fsize array_sz st :
  q (store_scalars cur foff fsize array_sz st) = q st
  ∧ parent (store_scalars cur foff fsize array_sz st) = parent st
  ∧ header <$> heap (store_scalars cur foff fsize array_sz st) = header <$> heap st.
Proof.
  unfold store_scalars; simpl. split_and!; try done.
  generalize (seqZ 0 array_sz) as l. generalize (heap st) as hp.
  intros hp l; revert hp. induction l as [|i l IH]; intros hp; simpl; [done|].
  by rewrite IH, header_set_field.
Qed.

Lemma add_child_None structs cur t foff fsize st l :
  structs !! t = None →
  foldl (add_child structs cur t foff fsize) st l = st.
Proof.
  intros Ht. induction l as [|i l IH]; simpl; [done|].
  unfold add_child at 2. by rewrite Ht.
Qed.

Lemma add_child_Some structs cur t foff fsize s st l :
  structs !! t = Some s →
  let st' := foldl (add_child structs cur t foff fsize) st l in
  q st' = q st ++ seq (length (heap st)) (length l)
  ∧ parent st' = parent st
  ∧ header <$> heap st' = (header <$> heap st) ++ replicate (length l) (t, s_size s).
Proof.
  intros Ht. revert st. induction l as [|i l IH]; intros st; simpl.
  - by rewrite !app_nil_r.
  - destruct (IH (add_child structs cur t foff fsize st i)) as (Hq & Hp & Hh).
    rewrite Hq, Hp, Hh. unfold add_child. rewrite Ht. simpl.
    rewrite header_set_field, length_set_field, fmap_app, length_app, <-!app_assoc.
    simpl. by rewrite Nat.add_1_r.
Qed.

Lemma process_field_step structs cur st f :
  (∃ e, process_field structs cur st f = Raise e
        ∧ array_member (f_type f) (f_size f) = Raise e)
  ∨ ∃ st', process_field structs cur st f = Ok st'
           ∧ field_step structs cur f st st'.
Proof.
  unfold process_field. case_bool_decide as Hun.
  { right. eexists. split; [done|]. left. simpl. by rewrite header_set_field. }
  destruct (array_member (f_type f) (f_size f)) as [[[array_sz ftype] fsize]|e|] eqn:Ham;
    simpl; [|left; by eauto|].
  - assert (fanout_field f = Z.to_nat array_sz) as Hfan
      by (unfold fanout_field; by rewrite Ham).
    assert (∀ st0, st0 = store_scalars cur (f_offset f) fsize array_sz st →
      ∃ st', Ok st0 = Ok st' ∧ field_step structs cur f st st') as Hsc.
    { intros st0 ->. eexists. split; [done|]. left. apply store_scalars_frame. }
    right. destruct (Py.endswith ftype "*"); [|by apply Hsc].
    destruct (negb _ && negb _); [|by apply Hsc].
    destruct (detect_loop_is_Ok (parent st) (Py.strip (Py.slice ftype 0 (-1)))
                (p_name (heap st !!! cur))) as [inf Hinf].
    rewrite Hinf. simpl. destruct inf; [by apply Hsc|].
    eexists. split; [done|]. right.
    set (t := Py.strip (Py.slice ftype 0 (-1))) in *. unfold expand.
    destruct (structs !! t) as [s|] eqn:Hs.
    + exists t, (length (seqZ 0 array_sz)), (s_size s).
      edestruct (add_child_Some structs cur t (f_offset f) fsize s) as (Hq & Hp & Hh);
        [done|]. rewrite Hq, Hp, Hh. simpl.
      split_and!; try done; [by rewrite length_seqZ, Hfan|by eauto].
    + exists t, 0%nat, 0. rewrite add_child_None by done. simpl.
      rewrite !app_nil_r. split_and!; try done; lia.
  - unfold array_member in Ham. repeat case_match; done.
Qed.

(** ** The invariant of the [while q] loop *)

Lemma at_level_name structs st l h :
  at_level structs st l h →
  p_name (heap st !!! h) ∈ dom structs ∧ deep (parent st) l (p_name (heap st !!! h)).
Proof.
  intros (x & sz & Hlk & HK & Hd). rewrite list_lookup_fmap in Hlk.
  destruct (heap st !! h) as [p|] eqn:Hp; [|done].
  rewrite (list_lookup_total_correct _ _ _ Hp).
  unfold header in Hlk. by simplify_eq/=.
Qed.

Lemma at_level_step structs st st' l h ext :
  header <$> heap st' = (header <$> heap st) ++ ext →
  (∀ x, deep (parent st) l x → deep (parent st') l x) →
  at_level structs st l h → at_level structs st' l h.
Proof.
  intros Hh Hd (x & sz & Hlk & HK & Hx). exists x, sz. split_and!; auto.
  rewrite Hh. by apply lookup_app_l_Some.
Qed.

Lemma field_step_inv structs k L q1 q2 cur f st st' :
  bfs_inv structs k L q1 q2 st → at_level structs st k cur →
  field_step structs cur f st st' →
  ∃ L' n,
    L ⊆ L' ∧ (n ≤ fanout_field f)%nat
    ∧ bfs_inv structs k L' q1 (q2 ++ seq (length (heap st)) n) st'
    ∧ at_level structs st' k cur
    ∧ (n ≠ 0%nat → (size structs ≤ k)%nat → (size L < size L')%nat).
Proof.
  intros (Hq & Hcl & HL & Hloop & Hq1 & Hq2) Hcur
    [(Hq' & Hp' & Hh')|(t & n & sz & Hdet & Hp' & Hq' & Hh' & Hn & Hs)].
  - exists L, 0%nat. rewrite app_nil_r.
    assert (header <$> heap st' = (header <$> heap st) ++ []) as Hh
      by by rewrite app_nil_r.
    split_and!; [done|lia| |eapply at_level_step; [done|by rewrite Hp'|done]|done].
    unfold bfs_inv. rewrite Hq', Hp'. split_and!; try done.
    + eapply Forall_impl; [done|]. intros h. eapply at_level_step; [done|by rewrite Hp'].
    + eapply Forall_impl; [done|]. intros h. eapply at_level_step; [done|by rewrite Hp'].
  - destruct (at_level_name _ _ _ _ Hcur) as [HcK Hcd].
    set (c := p_name (heap st !!! cur)) in *.
    destruct (detect_loop_false_rooted (parent st) t c) as (Htc & dt & Ht);
      [intros x Hx; by destruct (Hcl _ _ Hx)|done|].
    assert (∀ l x, (l ≤ S k)%nat → deep (parent st) l x → deep (parent st') l x)
      as Hdeep by (intros l x Hl Hx; rewrite Hp'; by eapply deep_insert).
    assert (closed (dom structs) (parent st')) as Hcl'.
    { intros x y. rewrite Hp'. destruct (decide (t = x)) as [->|Hne].
      - rewrite lookup_insert_eq. by intros [= <-].
      - rewrite lookup_insert_ne by done. apply Hcl. }
    assert (Forall (at_level structs st' (S k)) (seq (length (heap st)) n)) as Hnew.
    { apply Forall_forall. intros h [Hlo Hhi]%elem_of_seq.
      destruct Hs as (s & Hst & ->); [lia|]. exists t, (s_size s). split_and!.
      - rewrite Hh'. rewrite lookup_app_r by (rewrite length_fmap; lia).
        rewrite length_fmap. apply lookup_replicate_2. lia.
      - apply elem_of_dom. eauto.
      - rewrite Hp'. by apply deep_insert_new. }
    assert (∀ L', L ⊆ L' → L' ⊆ dom structs →
                  (∀ x, x ∈ L' → looping (parent st') x) →
                  bfs_inv structs k L' q1 (q2 ++ seq (length (heap st)) n) st') as Hinv.
    { intros L' _ HL' Hloop'. unfold bfs_inv. split_and!; try done.
      - by rewrite Hq', Hq, app_assoc.
      - eapply Forall_impl; [done|]. intros h.
        eapply at_level_step; [done|]. intros x. apply Hdeep. lia.
      - apply Forall_app. split; [|done]. eapply Forall_impl; [done|]. intros h.
        eapply at_level_step; [done|]. intros x. by apply Hdeep. }
    assert (at_level structs st' k cur) as Hcur'.
    { eapply at_level_step; [done| |done]. intros x. apply Hdeep. lia. }
    destruct (decide (n ≠ 0%nat ∧ (size structs ≤ k)%nat)) as [[Hn0 Hk]|Hno].
    + destruct Hs as (s & Hst & ->); [done|].
      assert (t ∈ dom structs) by (apply elem_of_dom; eauto).
      assert (looping (parent st) c) as Hc.
      { intros d Hd. pose proof (Hcd _ Hd).
        assert (d < size (dom structs))%nat.
        { apply (rooted_bound (dom structs) (parent st) c d); [|done..].
          intros w z Hw. by destruct (Hcl _ _ Hw). }
        rewrite size_dom in *. lia. }
      assert (t ∉ L) by (intros Hin; by apply (Hloop _ Hin dt)).
      exists ({[t]} ∪ L), n. split_and!; [set_solver|done| |done|].
      * apply Hinv; [set_solver|set_solver|].
        intros x [->%elem_of_singleton|Hx]%elem_of_union; rewrite Hp'.
        -- by eapply looping_insert_new.
        -- eapply looping_insert; [done|by apply Hloop].
      * intros _ _. rewrite size_union, size_singleton by set_solver. lia.
    + exists L, n. split_and!; [done|done| |done|intros; by destruct Hno].
      apply Hinv; [done|done|]. intros x Hx. rewrite Hp'.
      eapply looping_insert; [done|by apply Hloop].
Qed.

(** ** The store is a forest *)

Lemma forward_set_int h off n hp :
  forward hp → forward (set_field h off (VInt n) hp).
Proof.
  intros Hf h' p' off' c Hp' Hc. rewrite length_set_field. unfold set_field in Hp'.
  destruct (decide (h = h')) as [->|Hne].
  - rewrite list_lookup_alter_eq in Hp'.
    destruct (hp !! h') as [p|] eqn:Hp; simplify_eq/=.
    destruct (decide (off = off')) as [->|Hoff].
    + by rewrite lookup_insert_eq in Hc.
    + rewrite lookup_insert_ne in Hc by done. by eapply Hf.
  - rewrite list_lookup_alter_ne in Hp' by done. by eapply Hf.
Qed.

Lemma forward_set_new h off hp p0 :
  forward hp → (h < length hp)%nat → p_fields p0 = ∅ →
  forward (set_field h off (VRef (length hp)) (hp ++ [p0])).
Proof.
  intros Hf Hh Hp0 h' p' off' c Hp' Hc. rewrite length_set_field, length_app. simpl.
  assert (∀ p, (hp ++ [p0]) !! h' = Some p →
               p_fields p !! off' = Some (VRef c) → (h' < c < length hp + 1)%nat) as Hold.
  { intros p [[_ Hp]|[-> <-]]%lookup_snoc_Some Hpc.
    - specialize (Hf _ _ _ _ Hp Hpc). lia.
    - by rewrite Hp0, lookup_empty in Hpc. }
  unfold set_field in Hp'. destruct (decide (h = h')) as [->|Hne].
  - rewrite list_lookup_alter_eq in Hp'.
    destruct ((hp ++ [p0]) !! h') as [p|] eqn:Hp; simplify_eq/=.
    destruct (decide (off = off')) as [->|Hoff].
    + rewrite lookup_insert_eq in Hc. simplify_eq. lia.
    + rewrite lookup_insert_ne in Hc by done. by eapply Hold.
  - rewrite list_lookup_alter_ne in Hp' by done. by eapply Hold.
Qed.

Lemma store_scalars_forward cur foff fsize array_sz st :
  forward (heap st) → forward (heap (store_scalars cur foff fsize array_sz st)).
Proof.
  unfold store_scalars; simpl. generalize (seqZ 0 array_sz) as l.
  generalize (heap st) as hp. intros hp l; revert hp.
  induction l as [|i l IH]; intros hp Hf; simpl; [done|].
  by apply IH, forward_set_int.
Qed.

Lemma add_child_forward structs cur t foff fsize st l :
  forward (heap st) → (cur < length (heap st))%nat →
  forward (heap (foldl (add_child structs cur t foff fsize) st l)).
Proof.
  revert st. induction l as [|i l IH]; intros st Hf Hcur; simpl; [done|].
  unfold add_child at 2. destruct (structs !! t) as [s|]; [|by apply IH].
  apply IH; simpl.
  - by apply forward_set_new.
  - rewrite length_set_field, length_app. lia.
Qed.

Lemma process_field_forward structs cur st f st' :
  process_field structs cur st f = Ok st' →
  forward (heap st) → (cur < length (heap st))%nat → forward (heap st').
Proof.
  unfold process_field. intros Hpf Hf Hcur. case_bool_decide.
  { simplify_eq. simpl. by apply forward_set_int. }
  destruct (array_member (f_type f) (f_size f)) as [[[array_sz ftype] fsize]| |];
    simpl in Hpf; try done.
  assert (∀ st0, Ok (store_scalars cur (f_offset f) fsize array_sz st) = Ok st0 →
                 forward (heap st0)) as Hsc.
  { intros st0 [= <-]. by apply store_scalars_forward. }
  destruct (Py.endswith ftype "*"); [|by apply Hsc].
  destruct (negb _ && negb _); [|by apply Hsc].
  destruct (detect_loop _ _ _) as [[]| |]; simpl in Hpf; try done; [by apply Hsc|].
  simplify_eq. unfold expand. by apply add_child_forward.
Qed.

Lemma process_fields_inv structs k L q1 q2 cur fs st :
  bfs_inv structs k L q1 q2 st → at_level structs st k cur →
  (∃ e, process_fields structs cur st fs = Raise e ∧ malformed fs e)
  ∨ ∃ st' L' q2' ext,
      process_fields structs cur st fs = Ok st'
      ∧ L ⊆ L' ∧ (length q2' ≤ fanout fs)%nat
      ∧ bfs_inv structs k L' q1 (q2 ++ q2') st'
      ∧ header <$> heap st' = (header <$> heap st) ++ ext
      ∧ (q2' ≠ [] → (size structs ≤ k)%nat → (size L < size L')%nat)
      ∧ (forward (heap st) → forward (heap st')).
Proof.
  revert st L q2. induction fs as [|f fs IH]; intros st L q2 Hinv Hcur.
  { right. exists st, L, [], []. rewrite !app_nil_r. by split_and!. }
  simpl. destruct (process_field_step structs cur st f)
    as [(e & -> & He)|(st1 & Hpf & Hstep)]; [|rewrite Hpf].
  { left. exists e. split; [done|]. exists f. split; [apply elem_of_cons; by left|done]. }
  destruct (field_step_inv _ _ _ _ _ _ _ _ _ Hinv Hcur Hstep)
    as (L1 & n & HL1 & Hn & Hinv1 & Hcur1 & Hsz1).
  assert (∃ ext1, header <$> heap st1 = (header <$> heap st) ++ ext1) as [ext1 Hext1].
  { destruct Hstep as [(_ & _ & ->)|(t & m & sz & _ & _ & _ & -> & _)]; [exists []|by eauto].
    by rewrite app_nil_r. }
  simpl. destruct (IH _ _ _ Hinv1 Hcur1)
    as [(e & -> & f' & Hf' & He)
       |(st' & L' & q2' & ext & -> & HL' & Hlen & Hinv' & Hext & Hsz' & Hfw)].
  { left. exists e. split; [done|]. exists f'. split; [apply elem_of_cons; by right|done]. }
  right. exists st', L', (seq (length (heap st)) n ++ q2'), (ext1 ++ ext).
  split_and!; [done|set_solver| |by rewrite app_assoc| | |].
  - rewrite length_app, length_seq.
    change (fanout (f :: fs)) with (fanout_field f + fanout fs)%nat. lia.
  - by rewrite Hext, Hext1, app_assoc.
  - intros Hne Hk. pose proof (subseteq_size _ _ HL1). pose proof (subseteq_size _ _ HL').
    destruct (decide (n = 0%nat)) as [->|Hn0].
    + simpl in Hne. specialize (Hsz' Hne Hk). lia.
    + specialize (Hsz1 Hn0 Hk). lia.
  - intros Hf. apply Hfw. eapply process_field_forward; [done..|].
    destruct Hcur as (x & sz & Hx & _). apply lookup_lt_Some in Hx.
    by rewrite length_fmap in Hx.
Qed.

(** ** The measure *)

Lemma weight_pos B r : (1 ≤ weight B r)%nat.
Proof. destruct r; simpl; lia. Qed.

Lemma weight_S B r : (weight B r ≤ weight B (S r))%nat.
Proof.
  induction r as [|r IH]; [simpl; lia|].
  change (1 + B * weight B r ≤ 1 + B * weight B (S r))%nat. nia.
Qed.

Lemma weight_mono B r r' : (r ≤ r')%nat → (weight B r ≤ weight B r')%nat.
Proof.
  induction 1 as [|r' _ IH]; [done|]. etrans; [exact IH|apply weight_S].
Qed.

Lemma fanout_le_max structs x s :
  structs !! x = Some s → (fanout (s_fields s) ≤ max_fanout structs)%nat.
Proof.
  intros Hx. apply max_list_elem_of_le, list_elem_of_fmap.
  exists (x, s). split; [done|]. by apply elem_of_map_to_list.
Qed.

(** Dequeuing a node of level [k] that enqueues [c ≤ B] nodes of level
    [S k] lowers the work left. *)
Lemma work_decrease B n k z z' a b c :
  (z ≤ z')%nat → (z' ≤ n)%nat → (c ≤ B)%nat →
  (c ≠ 0 → n ≤ k → z < z')%nat →
  (work B n k z' a (b + c) < work B n k z (S a) b)%nat.
Proof.
  intros Hz Hz' Hc Hgrow. unfold work.
  pose proof (weight_mono B (rank n k z') (rank n k z)) as H1.
  pose proof (weight_mono B (rank n (S k) z') (rank n (S k) z)) as H2.
  assert (c * weight B (rank n (S k) z') < weight B (rank n k z))%nat as H3.
  { destruct (decide (c = 0%nat)) as [->|Hc0].
    - pose proof (weight_pos B (rank n k z)). lia.
    - assert (rank n (S k) z' < rank n k z)%nat as Hr.
      { unfold rank. destruct (decide (n ≤ k)%nat) as [Hk|Hk]; [specialize (Hgrow Hc0 Hk)|]; lia. }
      destruct (rank n k z) as [|r0] eqn:Hr0; [lia|]. simpl.
      pose proof (weight_mono B (rank n (S k) z') r0). nia. }
  unfold rank in *. nia.
Qed.

(** ** Termination of the [while q] loop *)

(** When the nodes of level [k] are used up, the queue holds level
    [S k] only, and its head is at the current level again. *)
Lemma bfs_inv_head structs B k L q1 q2 st cur rest :
  bfs_inv structs k L q1 q2 st → q st = cur :: rest →
  ∃ k' q1' q2',
    bfs_inv structs k' L (cur :: q1') q2' st ∧ rest = q1' ++ q2'
    ∧ (work B (size structs) k' (size L) (S (length q1')) (length q2')
       ≤ work B (size structs) k (size L) (length q1) (length q2))%nat.
Proof.
  intros (Hq & Hcl & HL & Hloop & Hq1 & Hq2) Hcur. rewrite Hcur in Hq.
  destruct q1 as [|h q1]; simpl in Hq.
  - subst q2. exists (S k), rest, []. rewrite app_nil_r.
    split_and!; [|done|unfold work; simpl; lia].
    unfold bfs_inv. rewrite app_nil_r. by split_and!.
  - simplify_eq. exists k, q1, q2. split_and!; [|done|done].
    unfold bfs_inv. by split_and!.
Qed.

Lemma bfs_total structs fuel st k L q1 q2 :
  bfs_inv structs k L q1 q2 st →
  (work (max_fanout structs) (size structs) k (size L) (length q1) (length q2)
   < fuel)%nat →
  (∃ st' ext, bfs fuel structs st = Ok st'
              ∧ header <$> heap st' = (header <$> heap st) ++ ext
              ∧ (forward (heap st) → forward (heap st')))
  ∨ (∃ e x s, bfs fuel structs st = Raise e
              ∧ structs !! x = Some s ∧ malformed (s_fields s) e).
Proof.
  revert st k L q1 q2. induction fuel as [|fuel IH]; intros st k L q1 q2 Hinv Hw; [lia|].
  destruct (q st) as [|cur rest] eqn:Hq.
  { left. exists st, []. destruct st; simpl in *; subst. by rewrite app_nil_r. }
  destruct (bfs_inv_head _ (max_fanout structs) _ _ _ _ _ _ _ Hinv Hq)
    as (k' & q1' & q2' & (_ & Hcl & HL & Hloop & Hq1 & Hq2) & -> & Hle).
  apply Forall_cons in Hq1 as [Hcur Hq1].
  destruct (at_level_name _ _ _ _ Hcur) as [[s Hs]%elem_of_dom _].
  unfold bfs; fold bfs. rewrite Hq, Hs.
  set (st1 := mkState (heap st) (q1' ++ q2') (parent st)).
  assert (bfs_inv structs k' L q1' q2' st1) as Hinv1 by by split_and!.
  destruct (process_fields_inv _ _ _ _ _ cur (s_fields s) _ Hinv1 Hcur)
    as [(e & -> & He)
       |(st' & L' & new & ext & -> & HL' & Hlen & Hinv' & Hext & Hsz & Hfw)].
  { right. exists e, (p_name (heap st !!! cur)), s. by split_and!. }
  simpl. destruct (IH st' k' L' q1' (q2' ++ new) Hinv')
    as [(st'' & ext' & -> & Hext' & Hfw')|(e & x & s' & -> & Hx & He)].
  - assert (work (max_fanout structs) (size structs) k' (size L')
                 (length q1') (length q2' + length new)
            < work (max_fanout structs) (size structs) k' (size L)
                   (S (length q1')) (length q2'))%nat as Hdec.
    { apply work_decrease.
      - by apply subseteq_size.
      - destruct Hinv' as (_ & _ & HL'' & _). apply subseteq_size in HL''.
        by rewrite size_dom in HL''.
      - etrans; [exact Hlen|]. by eapply fanout_le_max.
      - intros Hc. apply Hsz. by destruct new. }
    rewrite length_app. lia.
  - left. exists st'', (ext ++ ext'). split_and!; [done| |by auto].
    by rewrite Hext', Hext, app_assoc.
  - right. by exists e, x, s'.
Qed.

(** More fuel does not change an answer. *)
Lemma bfs_fuel_mono structs fuel fuel' st :
  (fuel ≤ fuel')%nat → bfs fuel structs st ≠ Diverge →
  bfs fuel' structs st = bfs fuel structs st.
Proof.
  revert fuel' st. induction fuel as [|fuel IH]; intros fuel' st Hle Hnd.
  - destruct fuel'; [done|]. simpl in *. by destruct (q st).
  - destruct fuel' as [|fuel']; [lia|]. simpl in *.
    destruct (q st) as [|cur rest]; [done|].
    destruct (structs !! _) as [s|]; [|done].
    destruct (process_fields _ _ _ _) as [st'| |]; simpl in *; try done.
    apply IH; [lia|done].
Qed.

Lemma enough_fuel_initial structs :
  (work (max_fanout structs) (size structs) 0 (size (∅ : gset string)) 1 0
   < enough_fuel structs)%nat.
Proof.
  unfold work, enough_fuel, rank. rewrite size_empty.
  replace (size structs - 0 + (size structs - 0))%nat with (2 * size structs)%nat by lia.
  lia.
Qed.

Lemma initial_inv structs name s :
  structs !! name = Some s →
  bfs_inv structs 0 ∅ [0%nat] [] (mkState [mkPointer name (s_size s) ∅] [0%nat] ∅)
  ∧ at_level structs (mkState [mkPointer name (s_size s) ∅] [0%nat] ∅) 0 0.
Proof.
  intros Hs.
  assert (at_level structs (mkState [mkPointer name (s_size s) ∅] [0%nat] ∅) 0 0).
  { exists name, (s_size s). split_and!; [done|apply elem_of_dom; eauto|].
    intros d _. lia. }
  split; [|done]. unfold bfs_inv; simpl. split_and!.
  - done.
  - intros x y Hxy. by rewrite lookup_empty in Hxy.
  - set_solver.
  - set_solver.
  - by apply Forall_singleton.
  - apply Forall_nil_2.
Qed.

(** [parse_struct_ptr] on [enough_fuel]: it returns [None] for an absent
    root, the store whose first object is the root otherwise, unless a
    field of the catalogue has a malformed array suffix. *)
Lemma parse_struct_ptr_total structs name :
  match structs !! name with
  | None => parse_struct_ptr (enough_fuel structs) name structs = Ok None
  | Some s =>
      (∃ hp, parse_struct_ptr (enough_fuel structs) name structs = Ok (Some hp)
             ∧ header <$> hp !! 0%nat = Some (name, s_size s) ∧ forward hp)
      ∨ (∃ e x s', parse_struct_ptr (enough_fuel structs) name structs = Raise e
                   ∧ structs !! x = Some s' ∧ malformed (s_fields s') e)
  end.
Proof.
  unfold parse_struct_ptr. destruct (structs !! name) as [s|] eqn:Hs; [|done].
  destruct (initial_inv structs name s Hs) as [Hinv _].
  destruct (bfs_total structs (enough_fuel structs) _ _ _ _ _ Hinv
              (enough_fuel_initial structs))
    as [(st' & ext & -> & Hext & Hfw)|(e & x & s' & -> & Hx & He)].
  - left. exists (heap st'). split_and!; [done| |].
    + rewrite <-list_lookup_fmap, Hext. done.
    + apply Hfw. intros h p off c Hp Hc. simpl in Hp.
      apply list_lookup_singleton_Some in Hp as [-> <-]. simpl in Hc.
      by rewrite lookup_empty in Hc.
  - right. by exists e, x, s'.
Qed.

(** ** Reading the store as a tree *)

(** A store whose references point forward reads back as a tree. *)
Lemma layout_forward hp depth h p :
  forward hp → hp !! h = Some p → (length hp - h ≤ depth)%nat →
  ∃ fs, layout depth hp h = Some (Node (p_name p) (p_size p) fs).
Proof.
  intros Hf. revert h p. induction depth as [|depth IH]; intros h p Hp Hd.
  { apply lookup_lt_Some in Hp. lia. }
  simpl. rewrite Hp. simpl.
  destruct (mapM_is_Some_2
    (λ kv : Z * value, match kv.2 with
                       | VInt n => Some (kv.1, Scalar n)
                       | VRef c => (λ t, (kv.1, Nested t)) <$> layout depth hp c
                       end) (map_to_list (p_fields p))) as [slots ->]; [|by eauto].
  apply Forall_forall. intros [off [n|c]] Hin; simpl; [by eauto|].
  apply elem_of_map_to_list in Hin. destruct (Hf _ _ _ _ Hp Hin) as [Hlo Hhi].
  destruct (lookup_lt_is_Some_2 hp c Hhi) as [p' Hp'].
  destruct (IH c p' Hp') as [fs ->]; [lia|]. by eauto.
Qed.

Lemma mapM_total {A B} (f : A → option B) (g : A → B) l :
  Forall (λ x, f x = Some (g x)) l → mapM f l = Some (g <$> l).
Proof.
  induction 1 as [|x l Hx _ IH]; [done|]. simpl. by rewrite Hx, IH.
Qed.

(** A node whose slots are all scalar reads back as a leaf. *)
Lemma layout_scalars hp depth h p (m : gmap Z Z) :
  hp !! h = Some p → p_fields p = VInt <$> m →
  layout (S depth) hp h = Some (Node (p_name p) (p_size p) (Scalar <$> m)).
Proof.
  intros Hp Hm. simpl. rewrite Hp. simpl.
  rewrite (mapM_total _ (prod_map id (λ v, match v with
                                           | VInt n => Scalar n
                                           | VRef _ => Scalar 0
                                           end))).
  - simpl. do 2 f_equal. rewrite list_to_map_fmap, list_to_map_to_list, Hm.
    by rewrite <-map_fmap_compose.
  - apply Forall_forall. intros [off v] Hin%elem_of_map_to_list.
    rewrite Hm, lookup_fmap in Hin. destruct (m !! off); by simplify_eq/=.
Qed.

(** ** [resolve] is total *)

Lemma resolve_total structs name :
  match structs !! name with
  | None => resolve (enough_fuel structs) structs name = Ok None
  | Some s =>
      (∃ fs, resolve (enough_fuel structs) structs name
             = Ok (Some (Node name (s_size s) fs)))
      ∨ (∃ e x s', resolve (enough_fuel structs) structs name = Raise e
                   ∧ structs !! x = Some s' ∧ malformed (s_fields s') e)
  end.
Proof.
  pose proof (parse_struct_ptr_total structs name) as Hp. unfold resolve.
  destruct (structs !! name) as [s|]; [|by rewrite Hp].
  destruct Hp as [(hp & -> & Hroot & Hfw)|(e & x & s' & -> & Hx & He)].
  - left. simpl. destruct (hp !! 0%nat) as [p|] eqn:Hp0; [|done].
    destruct (layout_forward hp (length hp) 0 p Hfw Hp0) as [fs ->]; [lia|].
    unfold header in Hroot. simpl in Hroot. injection Hroot as <- <-. by eauto.
  - right. by exists e, x, s'.
Qed.

Lemma parse_struct_ptr_fuel_mono structs name fuel fuel' :
  (fuel ≤ fuel')%nat → parse_struct_ptr fuel name structs ≠ Diverge →
  parse_struct_ptr fuel' name structs = parse_struct_ptr fuel name structs.
Proof.
  unfold parse_struct_ptr. intros Hle Hnd. destruct (structs !! name) as [s|]; [|done].
  rewrite (bfs_fuel_mono structs fuel fuel'); [done..|].
  intros Hd. by rewrite Hd in Hnd.
Qed.

Lemma resolve_fuel_mono structs name fuel fuel' :
  (fuel ≤ fuel')%nat → resolve fuel structs name ≠ Diverge →
  resolve fuel' structs name = resolve fuel structs name.
Proof.
  unfold resolve. intros Hle Hnd.
  rewrite (parse_struct_ptr_fuel_mono structs name fuel fuel'); [done..|].
  intros Hd. by rewrite Hd in Hnd.
Qed.

(** An answer obtained with any fuel is the answer on [enough_fuel]. *)
Lemma resolve_canonical structs name fuel :
  resolve fuel structs name ≠ Diverge →
  resolve fuel structs name = resolve (enough_fuel structs) structs name.
Proof.
  intros Hnd.
  rewrite <-(resolve_fuel_mono structs name fuel (fuel `max` enough_fuel structs))
    by (done || lia).
  apply resolve_fuel_mono; [lia|].
  pose proof (resolve_total structs name) as Ht.
  destruct (structs !! name); [|by rewrite Ht].
  destruct Ht as [[fs ->]|(e & x & s' & -> & _)]; done.
Qed.

Lemma bfs_Ok_empty structs fuel st st' :
  bfs fuel structs st = Ok st' → q st' = [].
Proof.
  revert st. induction fuel as [|fuel IH]; intros st; simpl.
  - destruct (q st) eqn:Hq; [|done]. by intros [= <-].
  - destruct (q st) as [|cur rest] eqn:Hq; [by intros [= <-]|].
    destruct (structs !! _) as [s|]; [|done].
    destruct (process_fields _ _ _ _) as [st1| |]; simpl; try done. apply IH.
Qed.

Lemma well_formed_not_malformed structs x s e :
  well_formed structs = true → structs !! x = Some s →
  ¬ malformed (s_fields s) e.
Proof.
  intros Hwf Hx (f & Hf & He). unfold well_formed in Hwf.
  rewrite forallb_forall in Hwf.
  specialize (Hwf (x, s)). simpl in Hwf. rewrite forallb_forall in Hwf.
  assert (array_suffix_ok f = true) as Hok.
  { apply Hwf; [|by apply list_elem_of_In].
    apply list_elem_of_In. by apply elem_of_map_to_list. }
  unfold array_suffix_ok in Hok. by rewrite He in Hok.
Qed.

(** ** The exceptions of the loop *)

Lemma array_member_Raise ftype fsize e :
  array_member ftype fsize = Raise e → e = ValueError ∨ e = ZeroDivisionError.
Proof.
  unfold array_member. destruct (Py.endswith ftype "]"); [|done].
  destruct (Py.int _); [|intros [= <-]; by left].
  case_bool_decide; [intros [= <-]; by right|done].
Qed.

Lemma array_member_not_Diverge ftype fsize :
  array_member ftype fsize ≠ Diverge.
Proof. unfold array_member. repeat case_match; done. Qed.

Lemma unnamed_array_member f :
  f_type f ∈ ["struct <unnamed>"; "union <unnamed>"]%string →
  array_member (f_type f) (f_size f) = Ok (1, f_type f, f_size f).
Proof.
  intros [->|[->|[]%elem_of_nil]%elem_of_cons]%elem_of_cons; reflexivity.
Qed.

Lemma process_field_Raise_iff structs cur st f e :
  process_field structs cur st f = Raise e
  ↔ array_member (f_type f) (f_size f) = Raise e.
Proof.
  split.
  - destruct (process_field_step structs cur st f)
      as [(e' & -> & He')|(st' & -> & _)]; [|done].
    by intros [= <-].
  - intros He. unfold process_field. case_bool_decide as Hun.
    + by rewrite unnamed_array_member in He.
    + by rewrite He.
Qed.

Lemma process_field_ok structs cur st f :
  array_suffix_ok f = true → ∃ st', process_field structs cur st f = Ok st'.
Proof.
  intros Hok. destruct (process_field_step structs cur st f)
    as [(e & _ & He)|(st' & -> & _)]; [|by eauto].
  unfold array_suffix_ok in Hok. by rewrite He in Hok.
Qed.

Lemma process_fields_first_malformed structs cur st fs f e :
  first_malformed fs f e → process_fields structs cur st fs = Raise e.
Proof.
  intros (pre & post & -> & Hpre & He). revert st.
  induction Hpre as [|g pre Hg Hpre IH]; intros st; simpl.
  - by rewrite (proj2 (process_field_Raise_iff structs cur st f e) He).
  - destruct (process_field_ok structs cur st g Hg) as [st' ->]. simpl. apply IH.
Qed.

Lemma process_fields_Raise_first structs cur st fs e :
  process_fields structs cur st fs = Raise e → ∃ f, first_malformed fs f e.
Proof.
  revert st. induction fs as [|g fs IH]; intros st; simpl; [done|].
  destruct (process_field structs cur st g) as [st'|e'|] eqn:Hg; simpl; [| |done].
  - intros (f & pre & post & -> & Hpre & He)%IH.
    exists f, (g :: pre), post. split_and!; [done| |done].
    apply Forall_cons. split; [|done]. unfold array_suffix_ok.
    destruct (array_member (f_type g) (f_size g)) as [?|e'|] eqn:Ham; [done| |].
    + apply (process_field_Raise_iff structs cur st) in Ham. by rewrite Ham in Hg.
    + by destruct (array_member_not_Diverge _ _ Ham).
  - intros [= ->]. exists g, [], fs. split_and!; [done|by apply Forall_nil|].
    by apply (process_field_Raise_iff structs cur st).
Qed.

Lemma visits_raises structs st0 st cur rest s e :
  visits structs st0 st → q st = cur :: rest →
  structs !! p_name (heap st !!! cur) = Some s →
  process_fields structs cur (mkState (heap st) rest (parent st)) (s_fields s)
  = Raise e →
  ∃ n, ∀ fuel, (n ≤ fuel)%nat → bfs fuel structs st0 = Raise e.
Proof.
  intros Hv Hq Hs He.
  induction Hv as [st|st cur' rest' s' st1 st' Hq' Hs' Hok Hv IH].
  - exists 1%nat. intros [|fuel] Hle; [lia|]. simpl. by rewrite Hq, Hs, He.
  - destruct (IH Hq Hs He) as [n Hn]. exists (S n).
    intros [|fuel] Hle; [lia|]. simpl. rewrite Hq', Hs', Hok. simpl.
    apply Hn. lia.
Qed.

Lemma bfs_Raise_visits structs fuel st0 e :
  bfs fuel structs st0 = Raise e →
  ∃ st cur rest,
    visits structs st0 st ∧ q st = cur :: rest
    ∧ match structs !! p_name (heap st !!! cur) with
      | None => e = KeyError
      | Some s =>
          process_fields structs cur (mkState (heap st) rest (parent st))
            (s_fields s) = Raise e
      end.
Proof.
  revert st0. induction fuel as [|fuel IH]; intros st0; simpl.
  - by destruct (q st0).
  - destruct (q st0) as [|cur rest] eqn:Hq; [done|].
    destruct (structs !! p_name (heap st0 !!! cur)) as [s|] eqn:Hs.
    + destruct (process_fields _ _ _ _) as [st1|e'|] eqn:Hfs; simpl; [| |done].
      * intros (st & cur' & rest' & Hv & Hq' & Hm)%IH.
        exists st, cur', rest'. split_and!; [|done..]. by eapply visits_round.
      * intros [= ->]. exists st0, cur, rest.
        split_and!; [constructor|done|]. by rewrite Hs.
    + intros [= <-]. exists st0, cur, rest.
      split_and!; [constructor|done|]. by rewrite Hs.
Qed.

(** [resolve] raises exactly when the loop dequeues a node with a
    malformed field, and then the exception of the first such field. *)
Lemma resolve_Raise_iff structs name e :
  (∃ fuel, resolve fuel structs name = Raise e) ↔ meets_malformed structs name e.
Proof.
  split.
  - intros [fuel Hr].
    assert (e = ValueError ∨ e = ZeroDivisionError) as Hkind.
    { rewrite resolve_canonical in Hr by (by rewrite Hr).
      pose proof (resolve_total structs name) as Ht.
      destruct (structs !! name); [|by rewrite Ht in Hr].
      destruct Ht as [[fs Hfs]|(e' & x & s' & He' & _ & f & _ & Hf)];
        [by rewrite Hfs in Hr|].
      rewrite He' in Hr. injection Hr as ->. by eapply array_member_Raise. }
    unfold resolve, parse_struct_ptr in Hr.
    destruct (structs !! name) as [s0|] eqn:Hs0; [|done].
    destruct (bfs fuel structs _) as [st1|e'|] eqn:Hb; simpl in Hr; [|..|done].
    { by destruct (layout _ _ _). }
    injection Hr as ->.
    destruct (bfs_Raise_visits _ _ _ _ Hb) as (st & cur & rest & Hv & Hq & Hm).
    destruct (structs !! p_name (heap st !!! cur)) as [s|] eqn:Hs.
    + destruct (process_fields_Raise_first _ _ _ _ _ Hm) as [f Hf].
      exists (p_name (heap st !!! cur)), s, f. split_and!; [|done..].
      by exists s0, st, cur, rest.
    + subst e. by destruct Hkind.
  - intros (x & s & f & (s0 & st & cur & rest & Hs0 & Hv & Hq & <-) & Hs & Hf).
    destruct (visits_raises structs _ st cur rest s e Hv Hq Hs) as [n Hn].
    { by eapply process_fields_first_malformed. }
    exists n. unfold resolve, parse_struct_ptr. rewrite Hs0.
    by rewrite (Hn n) by lia.
Qed.

Lemma resolve_Raise_enough structs name fuel e :
  resolve fuel structs name = Raise e →
  resolve (enough_fuel structs) structs name = Raise e.
Proof. intros Hr. rewrite <-Hr. symmetry. apply resolve_canonical. by rewrite Hr. Qed.

(** [resolve] returns exactly when the loop dequeues no node with a
    malformed field. *)
Lemma resolve_Ok_iff structs name :
  (∃ r, resolve (enough_fuel structs) structs name = Ok r)
  ↔ ¬ ∃ e, meets_malformed structs name e.
Proof.
  split.
  - intros [r Hr] [e [fuel He]%resolve_Raise_iff].
    apply resolve_Raise_enough in He. by rewrite He in Hr.
  - intros Hno. pose proof (resolve_total structs name) as Ht.
    destruct (structs !! name) as [s|]; [|by eauto].
    destruct Ht as [[fs ->]|(e & x & s' & He & _)]; [by eauto|].
    destruct Hno. exists e. apply resolve_Raise_iff. by eauto.
Qed.

Lemma root_dequeued structs name s :
  structs !! name = Some s → dequeues structs name name.
Proof.
  intros Hs. exists s, (mkState [mkPointer name (s_size s) ∅] [0%nat] ∅), 0%nat, [].
  split_and!; [done|constructor|done..].
Qed.

Lemma resolve_root_malformed structs name s f e fuel :
  structs !! name = Some s → first_malformed (s_fields s) f e →
  resolve (S fuel) structs name = Raise e.
Proof.
  intros Hs Hf. unfold resolve, parse_struct_ptr. rewrite Hs. simpl.
  change (p_name ([mkPointer name (s_size s) ∅] !!! 0%nat)) with name.
  rewrite Hs. by rewrite (process_fields_first_malformed _ _ _ _ f e Hf).
Qed.

(** * The claims *)

(** C1, as the code has it: on a catalogue with a malformed array
    suffix the loop is left through an exception and no tree is
    returned, however long the run; a cycle in the catalogue changes
    nothing about it. *)
Lemma resolve_returns_no_tree_on_bad_suffix :
  resolve (enough_fuel empty_suffix) empty_suffix "S" = Raise ValueError
  ∧ bfs (enough_fuel empty_suffix) empty_suffix
        (mkState [mkPointer "S" 4 ∅] [0%nat] ∅) = Raise ValueError
  ∧ resolve (enough_fuel zero_suffix_cycle) zero_suffix_cycle "A"
    = Raise ZeroDivisionError.
Proof. split_and!; vm_compute; reflexivity. Qed.

(** C1, amended.  For every finite catalogue, cyclic or not, and every
    root name, [resolve] terminates: [enough_fuel structs] rounds of
    the loop of [parse_struct_ptr] suffice and more fuel never changes
    the answer.  A loop that ends normally has emptied the work queue.
    The answer is [None] for an absent root, a finite [LayoutNode]
    tree, or the [ValueError] or [ZeroDivisionError] of a field with a
    malformed array suffix; [resolve] returns exactly when the loop
    dequeues no node whose structure has such a field, in particular
    when the catalogue has none, and it then returns a tree if the
    root is a key. *)
Theorem resolve_terminates (structs : gmap string Struct) (name : string) :
  (∀ fuel, (enough_fuel structs ≤ fuel)%nat →
           resolve fuel structs name = resolve (enough_fuel structs) structs name)
  ∧ (∀ fuel st st', bfs fuel structs st = Ok st' → q st' = [])
  ∧ ((structs !! name = None
      ∧ resolve (enough_fuel structs) structs name = Ok None)
     ∨ (∃ t, resolve (enough_fuel structs) structs name = Ok (Some t))
     ∨ (∃ e x s, resolve (enough_fuel structs) structs name = Raise e
                 ∧ (e = ValueError ∨ e = ZeroDivisionError)
                 ∧ structs !! x = Some s ∧ malformed (s_fields s) e))
  ∧ ((∃ r, resolve (enough_fuel structs) structs name = Ok r)
     ↔ ¬ ∃ e, meets_malformed structs name e)
  ∧ (well_formed structs = true → is_Some (structs !! name) →
     ∃ t, resolve (enough_fuel structs) structs name = Ok (Some t)).
Proof.
  pose proof (resolve_total structs name) as Ht. split_and!.
  - intros fuel Hle. apply resolve_fuel_mono; [done|].
    destruct (structs !! name); [|by rewrite Ht].
    destruct Ht as [[fs ->]|(e & x & s' & -> & _)]; done.
  - intros fuel st st'. apply bfs_Ok_empty.
  - destruct (structs !! name) as [s|]; [|by left].
    destruct Ht as [[fs Hfs]|(e & x & s' & He & Hx & Hm)].
    + right; left. by eauto.
    + right; right. exists e, x, s'. split_and!; try done.
      destruct Hm as (f & _ & Hf). by eapply array_member_Raise.
  - apply resolve_Ok_iff.
  - intros Hwf [s Hs]. rewrite Hs in Ht.
    destruct Ht as [[fs Hfs]|(e & x & s' & He & Hx & Hm)]; [by eauto|].
    by destruct (well_formed_not_malformed _ _ _ _ Hwf Hx Hm).
Qed.

(** C5, as the code has it: [resolve] does raise.  A field reached by
    the traversal whose type is ["int []"] makes [int('')] raise
    [ValueError], and ["int [0]"] makes [fsize //= 0] raise
    [ZeroDivisionError]; nothing in [parse_struct_ptr] catches them. *)
Lemma resolve_raises_on_bad_suffix :
  resolve 1 {[ "S" := mkStruct 4 [mkStructField "a" "int []" 0 4] ]} "S"
  = Raise ValueError
  ∧ resolve 1 {[ "S" := mkStruct 4 [mkStructField "a" "int [0]" 0 4] ]} "S"
    = Raise ZeroDivisionError.
Proof. split; vm_compute; reflexivity. Qed.

(** C5, amended.  For every catalogue and every root name, [resolve]
    raises exactly when the loop of [parse_struct_ptr] dequeues a node
    whose structure has a field with a malformed array suffix: a type
    that ends in ["]"] and whose text between the last ["["] and that
    ["]"] is refused by [int()] ([ValueError]) or reads as zero
    ([ZeroDivisionError]).  The exception is that of the first such
    field of the structure, and it is raised on every run that is long
    enough.  The node of the root is always dequeued, so a malformed
    field of the root structure always raises.  Such a field is not
    degraded to a scalar: no field raises for another reason, no other
    exception is raised, and on a catalogue without such a field
    [resolve] returns, for every root name. *)
Theorem resolve_raises_only_on_bad_suffix (structs : gmap string Struct)
    (name : string) :
  (∀ ftype fsize e,
     array_member ftype fsize = Raise e
     ↔ Py.endswith ftype "]" = true
       ∧ let n := Py.int (Py.slice ftype (Py.rfind ftype "[" + 1) (-1)) in
         (n = None ∧ e = ValueError) ∨ (n = Some 0 ∧ e = ZeroDivisionError))
  ∧ (∀ cur st f e,
       process_field structs cur st f = Raise e
       ↔ (f_type f ∉ ["struct <unnamed>"; "union <unnamed>"]%string)
         ∧ array_member (f_type f) (f_size f) = Raise e)
  ∧ (∀ cur st f e,
       process_field structs cur st f = Raise e
       ↔ array_member (f_type f) (f_size f) = Raise e)
  ∧ (∀ e, (∃ fuel, resolve fuel structs name = Raise e)
          ↔ meets_malformed structs name e)
  ∧ (∀ fuel e, resolve fuel structs name = Raise e →
               resolve (enough_fuel structs) structs name = Raise e
               ∧ (e = ValueError ∨ e = ZeroDivisionError))
  ∧ (∀ s f e fuel, structs !! name = Some s →
                   first_malformed (s_fields s) f e →
                   dequeues structs name name
                   ∧ resolve (S fuel) structs name = Raise e)
  ∧ (well_formed structs = true →
     ∃ r, resolve (enough_fuel structs) structs name = Ok r).
Proof.
  split_and!.
  - intros ftype fsize e. unfold array_member.
    destruct (Py.endswith ftype "]"); [|split; [done|by intros [? _]]].
    destruct (Py.int _) as [n|]; simpl.
    + case_bool_decide as Hn.
      * subst n. split; [intros [= <-]; split; [done|by right]|].
        intros [_ [[? _]|[_ ->]]]; done.
      * split; [done|]. intros [_ [[? _]|[? _]]]; [done|]. by simplify_eq.
    + split; [intros [= <-]; split; [done|by left]|].
      intros [_ [[_ ->]|[? _]]]; done.
  - intros cur st f e. rewrite process_field_Raise_iff. split; [|by intros [_ ?]].
    intros He. split; [|done]. intros Hun.
    by rewrite unnamed_array_member in He.
  - intros cur st f e. apply process_field_Raise_iff.
  - intros e. apply resolve_Raise_iff.
  - intros fuel e Hr. split; [by eapply resolve_Raise_enough|].
    assert (meets_malformed structs name e) as (x & s & f & _ & _ & Hf)
      by (apply resolve_Raise_iff; by eauto).
    destruct Hf as (pre & post & _ & _ & Hf). by eapply array_member_Raise.
  - intros s f e fuel Hs Hf. split; [by eapply root_dequeued|].
    by eapply resolve_root_malformed.
  - intros Hwf. pose proof (resolve_total structs name) as Ht.
    destruct (structs !! name) as [s|]; [|by eauto].
    destruct Ht as [[fs ->]|(e & x & s' & _ & Hx & Hm)]; [by eauto|].
    by destruct (well_formed_not_malformed _ _ _ _ Hwf Hx Hm).
Qed.

(** C6, as the code has it: a root that is a key of the catalogue does
    not always come back as a node.  The second field of ["S"] has a
    zero array suffix, and [parse_struct_ptr("S", ...)] raises
    [ZeroDivisionError] instead of returning the root. *)
Lemma resolve_present_root_raises :
  zero_suffix !! "S"%string
  = Some (mkStruct 8 [mkStructField "a" "int" 0 4; mkStructField "b" "int [0]" 4 4])
  ∧ resolve (enough_fuel zero_suffix) zero_suffix "S" = Raise ZeroDivisionError.
Proof. split; vm_compute; reflexivity. Qed.

(** C6, amended.  [resolve] returns [None] exactly when the root name
    is no key of the catalogue, and then it does so on every run.
    When the root is a key, no run returns [None], every tree a run
    returns has the root's name and the size the catalogue declares
    for it, and the run returns such a tree exactly when the loop
    dequeues no node whose structure has a field with a malformed
    array suffix, in particular when the catalogue has no such field;
    otherwise it raises the [ValueError] or [ZeroDivisionError] of
    that field. *)
Theorem resolve_root (structs : gmap string Struct) (name : string) :
  match structs !! name with
  | None => ∀ fuel, resolve fuel structs name = Ok None
  | Some s =>
      (∀ fuel, resolve fuel structs name = Ok None → False)
      ∧ (∀ fuel t, resolve fuel structs name = Ok (Some t) →
                   type_name t = name ∧ total_size t = s_size s)
      ∧ ((∃ fs, resolve (enough_fuel structs) structs name
                = Ok (Some (Node name (s_size s) fs)))
         ∨ (∃ e x s', resolve (enough_fuel structs) structs name = Raise e
                      ∧ (e = ValueError ∨ e = ZeroDivisionError)
                      ∧ structs !! x = Some s' ∧ malformed (s_fields s') e))
      ∧ ((∃ fs, resolve (enough_fuel structs) structs name
                = Ok (Some (Node name (s_size s) fs)))
         ↔ ¬ ∃ e, meets_malformed structs name e)
      ∧ (well_formed structs = true →
         ∃ fs, resolve (enough_fuel structs) structs name
               = Ok (Some (Node name (s_size s) fs)))
  end.
Proof.
  pose proof (resolve_total structs name) as Ht.
  pose proof (resolve_Ok_iff structs name) as Hok.
  destruct (structs !! name) as [s|] eqn:Hs.
  - split_and!.
    + intros fuel. unfold resolve, parse_struct_ptr. rewrite Hs.
      destruct (bfs _ _ _) as [st| |]; simpl; try done.
      by destruct (layout _ _ _).
    + intros fuel t Hr.
      rewrite resolve_canonical in Hr by (by rewrite Hr).
      destruct Ht as [[fs Hfs]|(e & x & s' & He & _)]; rewrite Hr in *; by simplify_eq.
    + destruct Ht as [?|(e & x & s' & He & Hx & Hm)]; [by left|].
      right. exists e, x, s'. split_and!; try done.
      destruct Hm as (f & _ & Hf). by eapply array_member_Raise.
    + rewrite <-Hok. split; [intros [fs ->]; by eauto|].
      intros [r Hr]. destruct Ht as [?|(e & x & s' & He & _)]; [done|].
      by rewrite He in Hr.
    + intros Hwf. destruct Ht as [?|(e & x & s' & He & Hx & Hm)]; [done|].
      by destruct (well_formed_not_malformed _ _ _ _ Hwf Hx Hm).
  - intros fuel. unfold resolve, parse_struct_ptr. by rewrite Hs.
Qed.

(** ** Two structures that point at each other *)

Lemma parse_mutual szA szB offA offB fsA fsB nA nB :
  parse_struct_ptr 3 "A" (mutual szA szB offA offB fsA fsB nA nB)
  = Ok (Some [mkPointer "A" szA {[offA := VRef 1]};
              mkPointer "B" szB {[offB := VRef 2]};
              mkPointer "A" szA {[offA := VInt fsA]}]).
Proof.
  transitivity
    (Ok (Some [mkPointer "A" szA {[offA + 0 * fsA := VRef 1]};
               mkPointer "B" szB {[offB + 0 * fsB := VRef 2]};
               mkPointer "A" szA {[offA + 0 * fsA := VInt fsA]}])).
  - vm_compute. reflexivity.
  - by rewrite !Z.mul_0_l, !Z.add_0_r.
Qed.

(** C2, as the code has it: in [{A: [b: "B *"], B: [a: "A *"]}] the
    slot of [B]'s ["A *"] field is a nested node for [A], not a scalar.
    When [B] is processed [parent] is [{B: A}], the walk starts at
    ["A"], which is no key, and ends with [inf = False]. *)
Lemma mutual_cycle_second_hop_is_nested :
  ∃ child grandchild,
    resolve 3 (mutual 8 8 0 0 8 8 "b" "a") "A"
    = Ok (Some (Node "A" 8 {[0 := Nested child]}))
    ∧ type_name child = "B"
    ∧ fields child !! 0 = Some (Nested grandchild)
    ∧ type_name grandchild = "A"
    ∧ fields grandchild !! 0 = Some (Scalar 8).
Proof.
  exists (Node "B" 8 {[0 := Nested (Node "A" 8 {[0 := Scalar 8]})]}),
         (Node "A" 8 {[0 := Scalar 8]}).
  split_and!; [vm_compute; reflexivity|done..].
Qed.

(** C2, amended.  For every catalogue made of [A] with one field of
    type ["B *"] and [B] with one field of type ["A *"], whatever the
    sizes, offsets and field names, [resolve] on ["A"] returns the root
    [A] whose slot is a nested [B], whose slot is a nested [A], whose
    slot for its ["B *"] field is scalar: the cycle is broken two hops
    below the root. *)
Theorem mutual_cycle_collapse (szA szB offA offB fsA fsB : Z) (nA nB : string)
    (fuel : nat) :
  resolve (3 + fuel) (mutual szA szB offA offB fsA fsB nA nB) "A"
  = Ok (Some (Node "A" szA
                {[offA := Nested (Node "B" szB
                   {[offB := Nested (Node "A" szA
                      {[offA := Scalar fsA]})]})]})).
Proof.
  assert (resolve 3 (mutual szA szB offA offB fsA fsB nA nB) "A"
          = Ok (Some (Node "A" szA
                {[offA := Nested (Node "B" szB
                   {[offB := Nested (Node "A" szA
                      {[offA := Scalar fsA]})]})]}))) as H3.
  { unfold resolve. rewrite parse_mutual. simpl.
    do 3 (rewrite !map_to_list_singleton; simpl). reflexivity. }
  rewrite resolve_fuel_mono with (fuel := 3%nat); [done|lia|by rewrite H3].
Qed.

(** ** Pointers to names that are no key of the catalogue *)

(** C3, at the claim's catalogue
    [{Node: Struct(16, [(next, "struct Node *", 0, 8), (value, "int", 8, 4)])}]:
    the type of [next] strips to ["struct Node"], which is neither
    [cur.name] nor a key of the catalogue, so line 73 records its
    parent, the loop of lines 75-79 creates nothing, and [continue]
    skips the scalar slots: offset [0] has no slot.  With the type
    spelled ["Node *"] the self-reference is detected and the result is
    the one the claim states. *)
Theorem self_reference_example :
  resolve 1 {[ "Node" := mkStruct 16 [mkStructField "next" "struct Node *" 0 8;
                                      mkStructField "value" "int" 8 4] ]} "Node"
  = Ok (Some (Node "Node" 16 {[8 := Scalar 4]}))
  ∧ resolve 1 {[ "Node" := mkStruct 16 [mkStructField "next" "Node *" 0 8;
                                        mkStructField "value" "int" 8 4] ]} "Node"
    = Ok (Some (Node "Node" 16 (<[8 := Scalar 4]> {[0 := Scalar 8]}))).
Proof. split; vm_compute; reflexivity. Qed.

(** C4, at [{S: Struct(8, [(p, "Foo *", 0, 8)])}]: the pointer to the
    unknown structure [Foo] leaves no slot at all in [S], although the
    comment on line 83 sends "a ptr to a struct that we don't know
    about" to the scalar loop; the same field without the star does get
    its scalar slot. *)
Theorem unknown_pointer_target_example :
  resolve 1 {[ "S" := mkStruct 8 [mkStructField "p" "Foo *" 0 8] ]} "S"
  = Ok (Some (Node "S" 8 ∅))
  ∧ resolve 1 {[ "S" := mkStruct 8 [mkStructField "p" "Foo" 0 8] ]} "S"
    = Ok (Some (Node "S" 8 {[0 := Scalar 8]}))
  ∧ resolve 1 {[ "S" := mkStruct 32 [mkStructField "p" "Foo *[4]" 0 32] ]} "S"
    = Ok (Some (Node "S" 32 ∅)).
Proof. split_and!; vm_compute; reflexivity. Qed.

(** ** Array members *)

Lemma parse_int_array nm F sz :
  parse_struct_ptr 1 "S" {[ "S" := mkStruct sz [mkStructField nm "int [4]" F 16] ]}
  = Ok (Some [mkPointer "S" sz
                (<[F + 12 := VInt 4]>
                   (<[F + 8 := VInt 4]>
                      (<[F + 4 := VInt 4]> {[F := VInt 4]})))]).
Proof.
  transitivity
    (Ok (Some [mkPointer "S" sz
                 (<[F + 3 * 4 := VInt 4]>
                    (<[F + 2 * 4 := VInt 4]>
                       (<[F + 1 * 4 := VInt 4]> {[F + 0 * 4 := VInt 4]})))])).
  - vm_compute. reflexivity.
  - change (0 * 4) with 0. by rewrite Z.add_0_r.
Qed.

(** C7. A field declared ["int [4]"] with reported size [16] at offset
    [F] makes [parse_struct_ptr] store exactly four scalar slots of
    size [4] in the node that owns it, at [F], [F + 4], [F + 8] and
    [F + 12], and nothing else changes: the count is the bracket
    suffix, the element size is [16 // 4], and slot [i] is at
    [F + i * 4].  The last part is the whole of [resolve] on a
    structure with that single field. *)
Theorem array_expansion (structs : gmap string Struct) (cur : nat) (st : state)
    (nm : string) (F sz : Z) (fuel : nat) :
  array_member "int [4]" 16 = Ok (4, "int "%string, 4)
  ∧ process_field structs cur st (mkStructField nm "int [4]" F 16)
    = Ok (mkState
            (set_field cur (F + 12) (VInt 4)
               (set_field cur (F + 8) (VInt 4)
                  (set_field cur (F + 4) (VInt 4)
                     (set_field cur F (VInt 4) (heap st)))))
            (q st) (parent st))
  ∧ resolve (1 + fuel)
      {[ "S" := mkStruct sz [mkStructField nm "int [4]" F 16] ]} "S"
    = Ok (Some (Node "S" sz
                  (<[F + 12 := Scalar 4]>
                     (<[F + 8 := Scalar 4]>
                        (<[F + 4 := Scalar 4]> {[F := Scalar 4]}))))).
Proof.
  split_and!.
  - vm_compute. reflexivity.
  - transitivity
      (Ok (mkState
            (set_field cur (F + 3 * 4) (VInt 4)
               (set_field cur (F + 2 * 4) (VInt 4)
                  (set_field cur (F + 1 * 4) (VInt 4)
                     (set_field cur (F + 0 * 4) (VInt 4) (heap st)))))
            (q st) (parent st))).
    + vm_compute. reflexivity.
    + change (0 * 4) with 0. by rewrite Z.add_0_r.
  - assert (resolve 1 {[ "S" := mkStruct sz [mkStructField nm "int [4]" F 16] ]} "S"
            = Ok (Some (Node "S" sz
                  (<[F + 12 := Scalar 4]>
                     (<[F + 8 := Scalar 4]>
                        (<[F + 4 := Scalar 4]> {[F := Scalar 4]})))))) as H1.
    { unfold resolve. rewrite parse_int_array. cbn [mbind result_bind length].
      erewrite (layout_scalars _ _ _ _
                  (<[F + 12 := 4]> (<[F + 8 := 4]> (<[F + 4 := 4]> {[F := 4]}))));
        [|done|]; simpl; by rewrite !fmap_insert, map_fmap_singleton. }
    rewrite resolve_fuel_mono with (fuel := 1%nat); [done|lia|by rewrite H1].
Qed.

(** ** The catalogue builder *)

Lemma py_int_Ok s n : py_int s = Ok n → to_int s = n.
Proof. unfold py_int, to_int. destruct (Py.int s); by intros [= <-]. Qed.

Lemma add_row_Ok structs r structs' :
  add_row structs r = Ok structs' →
  (r_struct r = "struct <unnamed>"%string ∧ structs' = structs)
  ∨ (r_struct r ≠ "struct <unnamed>"%string
     ∧ ∃ st, entry (structs !! r_struct r) [r] = Some st
             ∧ structs' = <[r_struct r := st]> structs).
Proof.
  unfold add_row. case_bool_decide as Hun.
  2:{ intros [= <-]. by left. }
  intros Hadd. right. split; [done|].
  destruct (structs !! r_struct r) as [st|] eqn:Hst; simpl in Hadd.
  - destruct (py_int (r_foff r)) as [foff| |] eqn:Hfoff; simpl in Hadd; try done.
    destruct (py_int (r_fsize r)) as [fsize| |] eqn:Hfsize; simpl in Hadd; try done.
    apply py_int_Ok in Hfoff, Hfsize. simplify_eq. eexists. split; [done|].
    apply map_eq. intros s. destruct (decide (r_struct r = s)) as [<-|Hne].
    + by rewrite lookup_alter_eq, lookup_insert_eq, Hst.
    + by rewrite lookup_alter_ne, lookup_insert_ne.
  - destruct (py_int (r_size r)) as [sz| |] eqn:Hsz; simpl in Hadd; try done.
    destruct (py_int (r_foff r)) as [foff| |] eqn:Hfoff; simpl in Hadd; try done.
    destruct (py_int (r_fsize r)) as [fsize| |] eqn:Hfsize; simpl in Hadd; try done.
    apply py_int_Ok in Hsz, Hfoff, Hfsize. simplify_eq. eexists. split; [done|].
    apply map_eq. intros s. destruct (decide (r_struct r = s)) as [<-|Hne].
    + by rewrite lookup_alter_eq, !lookup_insert_eq.
    + by rewrite lookup_alter_ne, !lookup_insert_ne.
Qed.

Lemma entry_nil old : entry old [] = old.
Proof. destruct old as [[sz fs]|]; simpl; by rewrite ?app_nil_r. Qed.

Lemma entry_cons old r rs : entry (entry old [r]) rs = entry old (r :: rs).
Proof. destruct old as [[sz fs]|]; simpl; by rewrite <-?app_assoc. Qed.

Lemma add_rows_lookup structs rows structs' :
  add_rows structs rows = Ok structs' →
  ∀ s, structs' !! s =
       if decide (s = "struct <unnamed>"%string) then structs !! s
       else entry (structs !! s) (rows_of s rows).
Proof.
  revert structs. induction rows as [|r rows IH]; intros structs; simpl.
  { intros [= <-] s. unfold rows_of. rewrite filter_nil, entry_nil.
    by case_decide. }
  destruct (add_row structs r) as [structs1| |] eqn:Hr; simpl; try done.
  intros Hrows s. rewrite (IH _ Hrows s). unfold rows_of. rewrite filter_cons.
  destruct (add_row_Ok _ _ _ Hr) as [[Hun ->]|(Hun & st & Hst & ->)].
  - destruct (decide (s = _)) as [Hs|Hs]; [done|].
    by rewrite decide_False by congruence.
  - destruct (decide (s = _)) as [Hs|Hs].
    + rewrite lookup_insert_ne; [done|congruence].
    + destruct (decide (r_struct r = s)) as [<-|Hne].
      * rewrite lookup_insert_eq, <-Hst. apply entry_cons.
      * by rewrite lookup_insert_ne.
Qed.

Lemma py_int_result s :
  (∃ n, py_int s = Ok n ∧ Py.int s = Some n)
  ∨ (py_int s = Raise ValueError ∧ Py.int s = None).
Proof. unfold py_int. destruct (Py.int s); [left|right]; by eauto. Qed.

Lemma add_rows_result structs rows :
  (∃ structs', add_rows structs rows = Ok structs')
  ∨ (add_rows structs rows = Raise ValueError ∧ ¬ Forall numeric rows).
Proof.
  revert structs. induction rows as [|r rows IH]; intros structs; simpl; [by eauto|].
  assert ((∃ structs1, add_row structs r = Ok structs1)
          ∨ (add_row structs r = Raise ValueError ∧ ¬ numeric r)) as [[structs1 ->]|[-> Hr]].
  { unfold add_row, numeric. case_bool_decide; [|by eauto].
    destruct (py_int_result (r_size r)) as [(sz & -> & Hsz)|[-> Hsz]];
    destruct (py_int_result (r_foff r)) as [(foff & -> & Hfoff)|[-> Hfoff]];
    destruct (py_int_result (r_fsize r)) as [(fsize & -> & Hfsize)|[-> Hfsize]];
    destruct (structs !! r_struct r); simpl; eauto;
    right; (split; [done|]); rewrite ?Hsz, ?Hfoff, ?Hfsize;
    intros (? & ? & ?); by eapply is_Some_None. }
  - simpl. destruct (IH structs1) as [?|[-> Hrows]]; [by left|].
    right. split; [done|]. by intros [_ ?]%Forall_cons.
  - right. split; [done|]. by intros [? _]%Forall_cons.
Qed.

(** C8, as the code has it: two rows that declare ["S"] with sizes [8]
    and [16] leave size [8] in the catalogue, the first one seen,
    because line 103 creates the entry only when the name is new. *)
Lemma build_keeps_first_size :
  build [mkRow "S" "8" "a" "int" "0" "4"; mkRow "S" "16" "b" "int" "4" "4"]
  = Ok {[ "S" := mkStruct 8 [mkStructField "a" "int" 0 4;
                             mkStructField "b" "int" 4 4] ]}.
Proof. vm_compute. reflexivity. Qed.

(** C8, amended.  [build] never fails on rows whose numeric columns are
    integers (otherwise [int()] raises [ValueError]); the catalogue it
    returns has no entry for ["struct <unnamed>"], and for every other
    name the entry holds the fields of the rows that declare the name,
    in the order the rows are encountered, with the size of the first
    such row (later sizes are ignored, without any check). *)
Theorem build_first_seen_size (rows : list Row) :
  match build rows with
  | Ok structs =>
      ∀ s, structs !! s =
           if decide (s = "struct <unnamed>"%string) then None
           else match rows_of s rows with
                | [] => None
                | r :: _ =>
                    Some (mkStruct (to_int (r_size r)) (field_of <$> rows_of s rows))
                end
  | Raise e => e = ValueError ∧ ¬ Forall numeric rows
  | Diverge => False
  end.
Proof.
  unfold build. destruct (add_rows_result ∅ rows) as [[structs Hb]|[Hb Hn]];
    rewrite Hb; [|done].
  intros s. rewrite (add_rows_lookup _ _ _ Hb s), lookup_empty.
  case_decide; [done|]. by destruct (rows_of s rows).
Qed.

(** ** The cache *)

Lemma restore_object_cases {blob obj : Type} (load : blob → result obj)
    (fname : string) (files : gmap string blob) :
  restore_object load fname files
  = match files !! fname with
    | None => Ok None
    | Some b =>
        match load b with
        | Ok o => Ok (Some o)
        | Raise e =>
            if bool_decide (e = EOFError ∨ e = FileNotFoundError)
            then Ok None else Raise e
        | Diverge => Diverge
        end
    end.
Proof.
  unfold restore_object, open_rb. destruct (files !! fname) as [b|]; [|done].
  simpl. destruct (load b) as [o|e|]; [done| |done]. by destruct e.
Qed.

(** C10, as the code has it: a stored blob on which [pickle.load]
    raises [UnpicklingError] (its error for corrupt data) is not
    treated as absent; [restore_object] catches [FileNotFoundError] and
    [EOFError] only, and the exception reaches the caller, and the
    caller of [extract_structs] after it. *)
Lemma restore_object_raises_on_corrupt_blob :
  restore_object (obj := gmap string Struct)
    (λ _ : string, Raise UnpicklingError) "cache" {[ "cache" := "garbage" ]}%string
  = Raise UnpicklingError
  ∧ extract_structs (λ _, "pickled"%string) (λ _ : string, Raise UnpicklingError)
      [] (Some "cache"%string) {[ "cache" := "garbage" ]}%string
    = Raise UnpicklingError.
Proof. split; vm_compute; reflexivity. Qed.

(** C10.  [restore_object] has handlers for [FileNotFoundError] and
    [EOFError] only.  It returns the absent value when the key is
    missing and when [pickle.load] raises [EOFError] on the stored
    blob; it returns the unpickled object when [pickle.load] returns
    one; and every other exception of [pickle.load], such as the
    [UnpicklingError] of a blob that is no pickle, reaches the caller
    instead of being treated as absence. *)
Theorem restore_object_absent_or_propagates {blob obj : Type}
    (load : blob → result obj) (fname : string) (files : gmap string blob) :
  (files !! fname = None → restore_object load fname files = Ok None)
  ∧ (∀ b, files !! fname = Some b → load b = Raise EOFError →
          restore_object load fname files = Ok None)
  ∧ (∀ b o, files !! fname = Some b → load b = Ok o →
            restore_object load fname files = Ok (Some o))
  ∧ (∀ b e, files !! fname = Some b → load b = Raise e →
            e ≠ EOFError → e ≠ FileNotFoundError →
            restore_object load fname files = Raise e).
Proof.
  rewrite restore_object_cases. split_and!.
  - by intros ->.
  - by intros b -> ->.
  - by intros b o -> ->.
  - intros b e -> -> He1 He2. rewrite bool_decide_eq_false_2; [done|].
    by intros [?|?].
Qed.

Section CacheRoundTrip.
Context {blob : Type}.
Variable dump : gmap string Struct → blob.
Variable load : blob → result (gmap string Struct).

(** The contract of [pickle]: loading what was dumped gives the object back. *)
Hypothesis load_dump : ∀ structs, load (dump structs) = Ok structs.

(** C9. For every catalogue built from a row sequence, restoring what
    [save_object] stored under a key yields the catalogue itself, so
    sizes, field lists and field order are the ones built; and
    [extract_structs] called with that cache key returns it verbatim,
    whatever rows the query would answer then, and leaves the file
    system alone. *)
Theorem cache_round_trip (rows rows' : list Row) (structs : gmap string Struct)
    (fname : string) (files : gmap string blob) :
  build rows = Ok structs →
  restore_object load fname (save_object dump structs fname files)
  = Ok (Some structs)
  ∧ extract_structs dump load rows (Some fname) (delete fname files)
    = Ok (structs, save_object dump structs fname (delete fname files))
  ∧ extract_structs dump load rows' (Some fname)
      (save_object dump structs fname files)
    = Ok (structs, save_object dump structs fname files).
Proof.
  intros Hb.
  assert (restore_object load fname (save_object dump structs fname files)
          = Ok (Some structs)) as Hr.
  { rewrite restore_object_cases. unfold save_object.
    by rewrite lookup_insert_eq, load_dump. }
  split_and!; [done| |].
  - unfold extract_structs. rewrite restore_object_cases.
    rewrite lookup_delete_eq. simpl. by rewrite Hb.
  - unfold extract_structs. by rewrite Hr.
Qed.

End CacheRoundTrip.

Lemma cache_round_trip_witness :
  build [mkRow "S" "8" "a" "int" "0" "4"]
  = Ok {[ "S" := mkStruct 8 [mkStructField "a" "int" 0 4] ]}
  ∧ restore_object (λ b : gmap string Struct, Ok b) "cache"
      (save_object (λ structs, structs)
         {[ "S" := mkStruct 8 [mkStructField "a" "int" 0 4] ]} "cache" ∅)
    = Ok (Some {[ "S" := mkStruct 8 [mkStructField "a" "int" 0 4] ]}).
Proof.
  split; [vm_compute; reflexivity|].
  apply (cache_round_trip (λ structs, structs) (λ b, Ok b) (λ structs, eq_refl)
           [mkRow "S" "8" "a" "int" "0" "4"] []
           {[ "S" := mkStruct 8 [mkStructField "a" "int" 0 4] ]} "cache" ∅).
  vm_compute; reflexivity.
Defined.

(** ** Further properties of one field *)

(** A field of the node named [S] whose type is spelled [S *], for a
    name [S] without surrounding white space, is a direct
    self-reference: it is never expanded, and leaves one scalar slot of
    the field's size at the field's offset. *)
Theorem direct_self_reference (structs : gmap string Struct) (cur : nat)
    (st : state) (nm S : string) (off sz : Z) :
  p_name (heap st !!! cur) = S → Py.strip S = S →
  process_field structs cur st (mkStructField nm (S +:+ " *") off sz)
  = Ok (mkState (set_field cur off (VInt sz) (heap st)) (q st) (parent st)).
Proof.
  intros Hcur Hstrip. unfold process_field. simpl.
  assert (Py.endswith (S +:+ " *") "*" = true) as Hstar
    by (by rewrite append_snoc, endswith_snoc).
  assert (Py.endswith (S +:+ " *") "]" = false) as Hbr
    by (by rewrite append_snoc, endswith_snoc).
  rewrite bool_decide_eq_false_2.
  2:{ intros [Heq|[Heq|[]%elem_of_nil]%elem_of_cons]%elem_of_cons;
        rewrite Heq in Hstar; by vm_compute in Hstar. }
  unfold array_member. rewrite Hbr. simpl. rewrite Hstar.
  rewrite (append_snoc S " " "*"), slice_drop_last.
  replace (Py.strip (S +:+ " ")) with S.
  2:{ unfold Py.strip. rewrite chars_app. simpl.
      by rewrite strip_chars_snoc_space. }
  assert (store_scalars cur off sz 1 st
          = mkState (set_field cur off (VInt sz) (heap st)) (q st) (parent st)) as ->.
  { unfold store_scalars. simpl. by rewrite Z.add_0_r. }
  destruct (negb _ && negb _); [|done].
  unfold detect_loop. by rewrite Hcur, bool_decide_eq_true_2.
Qed.

Lemma direct_self_reference_witness :
  process_field ∅ 0 (mkState [mkPointer "Node" 16 ∅] [] ∅)
    (mkStructField "next" ("Node" +:+ " *") 0 8)
  = Ok (mkState (set_field 0 0 (VInt 8) [mkPointer "Node" 16 ∅]) [] ∅).
Proof.
  apply (direct_self_reference ∅ 0 (mkState [mkPointer "Node" 16 ∅] [] ∅)
           "next" "Node" 0 8); reflexivity.
Defined.

(** A field whose type ends in two stars (double or higher
    indirection) is never followed: whatever the catalogue holds, it
    leaves one scalar slot of the field's size at the field's offset. *)
Theorem double_pointer_opacity (structs : gmap string Struct) (cur : nat)
    (st : state) (nm T : string) (off sz : Z) :
  process_field structs cur st (mkStructField nm (T +:+ "**") off sz)
  = Ok (mkState (set_field cur off (VInt sz) (heap st)) (q st) (parent st)).
Proof.
  unfold process_field. simpl.
  assert (Py.endswith (T +:+ "**") "*" = true) as Hstar
    by (by rewrite append_snoc, endswith_snoc).
  assert (Py.endswith (T +:+ "**") "]" = false) as Hbr
    by (by rewrite append_snoc, endswith_snoc).
  rewrite bool_decide_eq_false_2.
  2:{ intros [Heq|[Heq|[]%elem_of_nil]%elem_of_cons]%elem_of_cons;
        rewrite Heq in Hstar; by vm_compute in Hstar. }
  unfold array_member. rewrite Hbr. simpl. rewrite Hstar.
  rewrite (append_snoc T "*" "*"), slice_drop_last.
  assert (Py.endswith (Py.strip (T +:+ "*")) "*" = true) as ->.
  { unfold Py.strip, Py.endswith. rewrite chars_str, chars_app. simpl.
    destruct (strip_chars_snoc_other (Py.chars T) "*") as [l' ->]; [done|].
    by rewrite last_snoc. }
  simpl. unfold store_scalars. simpl. by rewrite Z.add_0_r.
Qed.


(** * Function pointers *)

(** ** Dicts *)
Section DictFacts.
Context {K V : Type} `{EqDecision K}.
Implicit Types (d : list (K * V)) (k : K) (v : V).

Lemma dict_update_keys f dflt k d :
  (dict_update f dflt k d).*1 = if decide (k ∈ d.*1) then d.*1 else d.*1 ++ [k].
Proof.
  induction d as [|[k' v] d IH].
  - case_decide as Hin; [by apply elem_of_nil in Hin|done].
  - cbn [dict_update]. destruct (decide (k = k')) as [->|Hne].
    + rewrite !fmap_cons. cbn [fst].
      rewrite decide_True; [done|]. apply elem_of_cons; by left.
    + rewrite !fmap_cons, IH. cbn [fst].
      destruct (decide (k ∈ d.*1)) as [Hin|Hnin].
      * rewrite decide_True; [done|]. apply elem_of_cons; by right.
      * rewrite decide_False; [done|]. by intros [?|?]%elem_of_cons.
Qed.

Lemma dict_set_keys k v d :
  (dict_set k v d).*1 = if decide (k ∈ d.*1) then d.*1 else d.*1 ++ [k].
Proof.
  induction d as [|[k' v'] d IH].
  - case_decide as Hin; [by apply elem_of_nil in Hin|done].
  - cbn [dict_set]. destruct (decide (k = k')) as [->|Hne].
    + rewrite !fmap_cons. cbn [fst].
      rewrite decide_True; [done|]. apply elem_of_cons; by left.
    + rewrite !fmap_cons, IH. cbn [fst].
      destruct (decide (k ∈ d.*1)) as [Hin|Hnin].
      * rewrite decide_True; [done|]. apply elem_of_cons; by right.
      * rewrite decide_False; [done|]. by intros [?|?]%elem_of_cons.
Qed.

Lemma keys_NoDup_step (l : list K) k :
  NoDup l → NoDup (if decide (k ∈ l) then l else l ++ [k]).
Proof.
  intros Hl. case_decide; [done|]. apply NoDup_app. split_and!; [done| |apply NoDup_singleton].
  intros x Hx ->%list_elem_of_singleton. done.
Qed.

Lemma dict_get_elem_of d k v :
  NoDup d.*1 → (k, v) ∈ d → dict_get k d = Some v.
Proof.
  induction d as [|[k' v'] d IH]; simpl; [by intros _ ?%elem_of_nil|].
  intros [Hk' Hd]%NoDup_cons [[= -> ->]|Hin]%elem_of_cons.
  - by rewrite decide_True.
  - rewrite decide_False; [by apply IH|]. intros ->. apply Hk'.
    apply list_elem_of_fmap. by exists (k', v).
Qed.

(** What an update adds to a dict, seen through a flattening [g]. *)
Lemma dict_update_flat {X} (g : K → V → list X) f dflt k d extra :
  (∀ v, g k (f v) ≡ₚ g k v ++ extra) → g k dflt = [] →
  (dict_update f dflt k d ≫= λ kv, g kv.1 kv.2)
  ≡ₚ (d ≫= λ kv, g kv.1 kv.2) ++ extra.
Proof.
  intros Hf Hd. induction d as [|[k' v] d IH]; simpl.
  - rewrite app_nil_r. by rewrite (Hf dflt), Hd.
  - destruct (decide (k = k')) as [->|Hne]; simpl.
    + rewrite (Hf v). by rewrite <-!app_assoc, (Permutation_app_comm extra).
    + by rewrite IH, app_assoc.
Qed.

Lemma dict_update_Forall (P : K → V → Prop) f dflt k d :
  (∀ v, P k v → P k (f v)) → P k (f dflt) → Forall (λ kv, P kv.1 kv.2) d →
  Forall (λ kv, P kv.1 kv.2) (dict_update f dflt k d).
Proof.
  intros Hf Hd. induction 1 as [|[k' v] d Hkv Hrest IH]; simpl.
  - by apply Forall_singleton.
  - destruct (decide (k = k')) as [->|Hne]; apply Forall_cons; split; try done.
    by apply Hf.
Qed.

End DictFacts.

(** ** Loops *)

Lemma for_each_app {A B} (body : A → B → result A) a l1 l2 :
  for_each body a (l1 ++ l2) = a' ← for_each body a l1; for_each body a' l2.
Proof.
  revert a. induction l1 as [|x l1 IH]; intros a; simpl; [done|].
  destruct (body a x) as [a'| |]; simpl; [apply IH|done..].
Qed.

Lemma for_each_ext {A B} (f g : A → B → result A) a l :
  (∀ a x, x ∈ l → f a x = g a x) → for_each f a l = for_each g a l.
Proof.
  revert a. induction l as [|x l IH]; intros a Hfg; simpl; [done|].
  rewrite Hfg by (apply elem_of_cons; by left).
  destruct (g a x) as [a'| |]; simpl; [|done..].
  apply IH. intros a'' y Hy. apply Hfg, elem_of_cons. by right.
Qed.

Lemma for_each_fmap {A B C} (body : A → B → result A) (h : C → B) a l :
  for_each body a (h <$> l) = for_each (λ a x, body a (h x)) a l.
Proof.
  revert a. induction l as [|x l IH]; intros a; simpl; [done|].
  destruct (body a (h x)) as [a'| |]; simpl; [apply IH|done..].
Qed.

Lemma for_each_bind {A B C} (body : A → C → result A) (h : B → list C) a l :
  for_each (λ a x, for_each body a (h x)) a l = for_each body a (l ≫= h).
Proof.
  revert a. induction l as [|x l IH]; intros a; simpl; [done|].
  rewrite for_each_app.
  destruct (for_each body a (h x)) as [a'| |]; simpl; [apply IH|done..].
Qed.

(** A loop over the keys of a dict, reading the value of each key. *)
Lemma for_each_keys {A K V} `{EqDecision K} (body : A → K → V → result A)
    (dflt : V) a (d : list (K * V)) :
  NoDup d.*1 →
  for_each (λ a k, body a k (default dflt (dict_get k d))) a d.*1
  = for_each (λ a kv, body a kv.1 kv.2) a d.
Proof.
  intros Hd. rewrite for_each_fmap. apply for_each_ext.
  intros a' [k v] Hin. simpl. by rewrite (dict_get_elem_of d k v).
Qed.

Lemma for_each_Raise {A B} (body : A → B → result A) a l e :
  for_each body a l = Raise e → ∃ a' x, x ∈ l ∧ body a' x = Raise e.
Proof.
  revert a. induction l as [|x l IH]; intros a; simpl; [done|].
  destruct (body a x) as [a'|e'|] eqn:Hx; simpl; [|intros [= ->]|done].
  - intros (a'' & y & Hy & Hr)%IH. exists a'', y. split; [|done].
    apply elem_of_cons. by right.
  - exists a, x. split; [|done]. apply elem_of_cons. by left.
Qed.

Lemma for_each_Diverge {A B} (body : A → B → result A) a l :
  for_each body a l = Diverge → ∃ a' x, x ∈ l ∧ body a' x = Diverge.
Proof.
  revert a. induction l as [|x l IH]; intros a; simpl; [done|].
  destruct (body a x) as [a'|e'|] eqn:Hx; simpl; [|done|intros _].
  - intros (a'' & y & Hy & Hr)%IH. exists a'', y. split; [|done].
    apply elem_of_cons. by right.
  - exists a, x. split; [|done]. apply elem_of_cons. by left.
Qed.

(** A loop whose body succeeds on every element succeeds. *)
Lemma for_each_Ok {A B} (body : A → B → result A) a l :
  (∀ a x, x ∈ l → ∃ a', body a x = Ok a') → ∃ a', for_each body a l = Ok a'.
Proof.
  revert a. induction l as [|x l IH]; intros a Hb; simpl; [by eauto|].
  destruct (Hb a x) as [a' ->]; [apply elem_of_cons; by left|]. simpl.
  apply IH. intros a'' y Hy. apply Hb, elem_of_cons. by right.
Qed.

(** ** The first loop *)

Lemma record_row_Ok d c row d' c' :
  record_row (d, c) row = Ok (d', c') → recorded d c →
  ∃ u, unpack_row row = Ok u ∧ recorded d' c'
       ∧ flat_calls c' ≡ₚ flat_calls c ++ [part u].
Proof.
  unfold record_row. destruct (unpack_row row) as [[[[name decl] cl] e]| |];
    simpl; [|done..].
  intros [= <- <-] (Hkeys & Hnd & Hin). eexists. split; [done|]. split_and!.
  - split_and!.
    + by rewrite dict_set_keys, dict_update_keys, Hkeys.
    + rewrite dict_update_keys. by apply keys_NoDup_step.
    + apply (dict_update_Forall
               (λ _ cs, NoDup cs.*1 ∧ Forall (λ ce, ce.2 ≠ []) cs)); [| |done].
      * intros cs [Hcs Hne]. split.
        -- rewrite dict_update_keys. by apply keys_NoDup_step.
        -- apply (dict_update_Forall (λ _ es, es ≠ [])); [| |done].
           ++ intros es _. by destruct es.
           ++ done.
      * simpl. split; [apply NoDup_singleton|]. by apply Forall_singleton.
  - unfold flat_calls, part. simpl.
    apply (dict_update_flat
             (λ n (cs : Calls), ce ← cs; (λ e, (n, ce.1, e)) <$> ce.2)); [|done].
    intros cs.
    apply (dict_update_flat (λ c0 (es : list Export), (λ e, (name, c0, e)) <$> es));
      [|done].
    intros es. by rewrite fmap_app.
Qed.

Lemma record_rows_Ok rows d c d' c' :
  for_each record_row (d, c) rows = Ok (d', c') → recorded d c →
  ∃ us, Forall2 (λ row u, unpack_row row = Ok u) rows us ∧ recorded d' c'
        ∧ flat_calls c' ≡ₚ flat_calls c ++ (part <$> us).
Proof.
  revert d c. induction rows as [|row rows IH]; intros d c; simpl.
  - intros [= <- <-] Hrec. exists []. split_and!; [done..|]. by rewrite app_nil_r.
  - destruct (record_row (d, c) row) as [[d1 c1]| |] eqn:Hrow; simpl; [|done..].
    intros Hrows Hrec.
    destruct (record_row_Ok _ _ _ _ _ Hrow Hrec) as (u & Hu & Hrec1 & Hflat1).
    destruct (IH _ _ Hrows Hrec1) as (us & Hus & Hrec' & Hflat').
    exists (u :: us). split_and!; [by constructor|done|].
    rewrite Hflat', Hflat1. simpl. by rewrite <-app_assoc.
Qed.

(** ** The second loop *)

Lemma emit_decls fptr_decls fptr_calls st :
  recorded fptr_decls fptr_calls →
  for_each (emit_decl fptr_calls) st fptr_decls
  = for_each emit st (call_sites fptr_calls).
Proof.
  intros (Hkeys & Hnd & Hin).
  transitivity (for_each (λ st name, emit_decl fptr_calls st (name, ""%string))
                         st fptr_decls.*1).
  { rewrite for_each_fmap. apply for_each_ext. by intros ? [] _. }
  rewrite Hkeys.
  etrans.
  { exact (for_each_keys
             (λ st name (calls : Calls),
                for_each (emit_call name calls) st calls.*1) [] st fptr_calls Hnd). }
  unfold call_sites. rewrite <-for_each_bind. apply for_each_ext.
  intros st' [name calls] Hkv. simpl.
  rewrite Forall_forall in Hin. destruct (Hin _ Hkv) as [Hcalls _].
  etrans.
  { exact (for_each_keys (λ st cl es, emit st (name, (cl, es))) [] st' calls Hcalls). }
  rewrite for_each_fmap. apply for_each_ext. by intros st'' [cl es] _.
Qed.

Lemma flat_calls_sites fptr_calls :
  flat_calls fptr_calls
  = t ← call_sites fptr_calls; (λ e, (t.1, t.2.1, e)) <$> t.2.2.
Proof.
  unfold flat_calls, call_sites.
  induction fptr_calls as [|[name calls] c IH]; [done|].
  rewrite !bind_cons, bind_app, <-IH. f_equal. simpl. clear IH.
  induction calls as [|[cl es] calls IH]; [done|].
  by rewrite fmap_cons, !bind_cons, IH.
Qed.

Lemma row_core_part row u :
  unpack_row row = Ok u → row_core row = core_of (part u).
Proof. unfold row_core. intros ->. by destruct u as [[[name decl] cl] e]. Qed.

Lemma emit_Ok st t st' :
  emit st t = Ok st' →
  ∃ loc, location t.2.1 = Ok loc
         ∧ st' = (st.1 ++ ((λ e : Export,
                              mkHit t.1 loc (Z.of_nat (length (see loc st.2)) - 1)
                                    e.1.1 e.2) <$> t.2.2),
                  see loc st.2).
Proof.
  unfold emit. destruct (location t.2.1) as [loc| |]; simpl; [|done..].
  intros [= <-]. by exists loc.
Qed.

Lemma emit_cores T st st' :
  for_each emit st T = Ok st' →
  (λ h, Ok (hit_core h)) <$> st'.1
  = ((λ h, Ok (hit_core h)) <$> st.1)
    ++ (core_of <$> (t ← T; (λ e, (t.1, t.2.1, e)) <$> t.2.2)).
Proof.
  revert st. induction T as [|t T IH]; intros st; simpl.
  - intros [= <-]. by rewrite app_nil_r.
  - destruct (emit st t) as [st1| |] eqn:Ht; simpl; [|done..].
    intros HT. rewrite (IH _ HT).
    destruct (emit_Ok _ _ _ Ht) as (loc & Hloc & ->). simpl.
    rewrite !fmap_app, <-app_assoc. do 2 f_equal.
    rewrite <-!list_fmap_compose. apply list_fmap_ext. intros i e _. simpl.
    unfold core_of. simpl. by rewrite Hloc.
Qed.

(** ** Rows *)

Lemma unpack_row_app name typ decl cl ef el sig :
  unpack_row (name :: typ :: decl :: cl ++ [ef; el; sig])
  = Ok (name, decl, cl, (ef, el, sig)).
Proof.
  unfold unpack_row. rewrite reverse_app.
  change (reverse [ef; el; sig]) with [sig; el; ef]. simpl.
  by rewrite reverse_involutive.
Qed.

Lemma unpack_row_cases row :
  (∃ name typ decl cl ef el sig,
     row = name :: typ :: decl :: cl ++ [ef; el; sig]
     ∧ unpack_row row = Ok (name, decl, cl, (ef, el, sig)))
  ∨ (unpack_row row = Raise ValueError ∧ (length row < 6)%nat).
Proof.
  destruct row as [|name [|typ [|decl rest]]];
    [right; split; [done|simpl; lia]..|].
  destruct (reverse rest) as [|sig [|el [|ef rcl]]] eqn:Hrev;
    apply (f_equal reverse) in Hrev; rewrite reverse_involutive in Hrev.
  1-3: right; subst rest; split; [by unfold unpack_row|simpl; lia].
  left. exists name, typ, decl, (reverse rcl), ef, el, sig.
  assert (rest = reverse rcl ++ [ef; el; sig]) as ->.
  { rewrite Hrev, !reverse_cons, <-!app_assoc. done. }
  split; [done|]. apply unpack_row_app.
Qed.

Lemma ints_result l :
  (∃ ns, ints l = Ok ns ∧ Forall2 (λ s n, Py.int s = Some n) l ns)
  ∨ (ints l = Raise ValueError ∧ ¬ Forall (λ s, is_Some (Py.int s)) l).
Proof.
  induction l as [|s l IH]; simpl; [left; by exists []|].
  destruct (py_int_result s) as [(n & -> & Hn)|[-> Hn]]; simpl.
  - destruct IH as [(ns & -> & Hns)|[-> Hl]]; simpl.
    + left. exists (n :: ns). split; [done|]. by constructor.
    + right. split; [done|]. by intros [_ ?]%Forall_cons.
  - right. split; [done|]. intros [[? Hs] _]%Forall_cons. congruence.
Qed.

Lemma location_result cl :
  (∃ caller file loc_in_file ns,
     cl = caller :: file :: loc_in_file
     ∧ Forall2 (λ s n, Py.int s = Some n) loc_in_file ns
     ∧ location cl = Ok (file, ns))
  ∨ (location cl = Raise ValueError
     ∧ ∀ caller file loc_in_file,
         cl = caller :: file :: loc_in_file →
         ¬ Forall (λ s, is_Some (Py.int s)) loc_in_file).
Proof.
  destruct cl as [|caller [|file lif]]; [by right..|]. simpl.
  destruct (ints_result lif) as [(ns & -> & Hns)|[-> Hl]]; simpl.
  - left. by exists caller, file, lif, ns.
  - right. split; [done|]. by intros ??? [= _ _ <-].
Qed.

Lemma Forall2_is_Some {A B} (f : A → option B) l k :
  Forall2 (λ a b, f a = Some b) l k → Forall (λ a, is_Some (f a)) l.
Proof. induction 1; constructor; by eauto. Qed.

Lemma row_core_result row :
  (∃ c, row_core row = Ok c ∧ well_formed_row row)
  ∨ (row_core row = Raise ValueError ∧ ¬ well_formed_row row).
Proof.
  unfold row_core.
  destruct (unpack_row_cases row)
    as [(name & typ & decl & cl & ef & el & sig & -> & ->)|[-> Hlen]]; simpl.
  - destruct (location_result cl)
      as [(caller & file & lif & ns & -> & Hns & ->)|[-> Hcl]]; simpl.
    + left. eexists. split; [done|].
      exists name, typ, decl, caller, file, lif, ef, el, sig. split; [done|].
      by eapply Forall2_is_Some.
    + right. split; [done|].
      intros (name' & typ' & decl' & caller & file & lif & ef' & el' & sig'
              & Heq & Hints).
      simpl in Heq. injection Heq as _ _ _ Heq.
      change (caller :: file :: lif ++ [ef'; el'; sig'])
        with ((caller :: file :: lif) ++ [ef'; el'; sig']) in Heq.
      apply app_inj_2 in Heq as [-> _]; [|done]. by eapply Hcl.
  - right. split; [done|].
    intros (name' & typ' & decl' & caller & file & lif & ef' & el' & sig'
            & -> & _).
    simpl in Hlen. rewrite length_app in Hlen. simpl in Hlen. lia.
Qed.

(** ** The result *)

Lemma recorded_nil : recorded [] [].
Proof. split_and!; [done|apply NoDup_nil_2|done]. Qed.

Lemma function_pointers_Ok rows res :
  function_pointers rows = Ok res →
  ∃ d c us st,
    for_each record_row ([], []) rows = Ok (d, c)
    ∧ Forall2 (λ row u, unpack_row row = Ok u) rows us
    ∧ Forall (λ t : string * (list string * list Export), t.2.2 ≠ [])
             (call_sites c)
    ∧ flat_calls c ≡ₚ part <$> us
    ∧ for_each emit ([], []) (call_sites c) = Ok st
    ∧ res = st.1.
Proof.
  unfold function_pointers.
  destruct (for_each record_row ([], []) rows) as [[d c]| |] eqn:Hrows;
    simpl; [|done..].
  destruct (record_rows_Ok _ _ _ _ _ Hrows recorded_nil) as (us & Hus & Hrec & Hflat).
  rewrite (emit_decls _ _ _ Hrec).
  destruct (for_each emit _ _) as [[res' seen]| |] eqn:Hemit; simpl; [|done..].
  intros [= <-]. exists d, c, us, (res', seen). split_and!; try done.
  destruct Hrec as (_ & _ & Hin). unfold call_sites.
  apply Forall_bind. eapply Forall_impl; [exact Hin|].
  intros [name calls] [_ Hne]. simpl. by apply Forall_fmap.
Qed.

Lemma unpacked_cores rows us :
  Forall2 (λ row u, unpack_row row = Ok u) rows us →
  core_of <$> (part <$> us) = row_core <$> rows.
Proof.
  induction 1 as [|row u rows us Hu _ IH]; [done|].
  rewrite !fmap_cons, IH. by rewrite (row_core_part _ _ Hu).
Qed.

Lemma function_pointers_total rows :
  Forall well_formed_row rows → ∃ res, function_pointers rows = Ok res.
Proof.
  intros Hwf. rewrite Forall_forall in Hwf.
  assert (∀ row, row ∈ rows → ∃ c, row_core row = Ok c) as Hcore.
  { intros row Hrow. destruct (row_core_result row) as [(c & Hc & _)|[_ Hn]];
      [by eauto|]. destruct Hn. by apply Hwf. }
  destruct (for_each_Ok record_row ([], []) rows) as [[d c] Hrows].
  { intros a row [c Hc]%Hcore. unfold record_row.
    destruct (unpack_row_cases row)
      as [(name & typ & decl & cl & ef & el & sig & _ & ->)|[Hr _]]; simpl;
      [by eauto|].
    unfold row_core in Hc. by rewrite Hr in Hc. }
  destruct (record_rows_Ok _ _ _ _ _ Hrows recorded_nil)
    as (us & Hus & Hrec & Hflat).
  unfold function_pointers. rewrite Hrows. simpl. rewrite (emit_decls _ _ _ Hrec).
  destruct (for_each_Ok emit ([], []) (call_sites c)) as [[res seen] ->];
    [|by eauto].
  intros a t Ht.
  assert (∃ e, e ∈ t.2.2) as [e He].
  { destruct Hrec as (_ & _ & Hin). rewrite Forall_forall in Hin.
    unfold call_sites in Ht. apply list_elem_of_bind in Ht as (kv & Ht & Hkv).
    apply list_elem_of_fmap in Ht as (ce & -> & Hce).
    destruct (Hin _ Hkv) as [_ Hne]. rewrite Forall_forall in Hne.
    specialize (Hne _ Hce). simpl. destruct (ce.2) as [|e es]; [done|].
    exists e. apply elem_of_cons. by left. }
  assert ((t.1, t.2.1, e) ∈ part <$> us) as Hpart.
  { rewrite <-Hflat, flat_calls_sites. apply list_elem_of_bind.
    exists t. split; [|done]. apply list_elem_of_fmap. by exists e. }
  apply list_elem_of_fmap in Hpart as (u & Hu & Huin).
  apply list_elem_of_lookup in Huin as [i Hi].
  destruct (Forall2_lookup_r _ _ _ _ _ Hus Hi) as (row & Hrow & Hunp).
  destruct (Hcore row) as [c' Hc']; [by eapply list_elem_of_lookup_2|].
  rewrite (row_core_part _ _ Hunp), <-Hu in Hc'. unfold core_of in Hc'.
  simpl in Hc'. unfold emit.
  destruct (location t.2.1) as [loc| |]; simpl; [by eauto|done..].
Qed.

Lemma record_row_Raise st row e : record_row st row = Raise e → e = ValueError.
Proof.
  unfold record_row.
  destruct (unpack_row_cases row)
    as [(name & typ & decl & cl & ef & el & sig & _ & ->)|[-> _]]; simpl;
    [done|by intros [= <-]].
Qed.

Lemma record_row_Diverge st row : record_row st row ≠ Diverge.
Proof.
  unfold record_row.
  by destruct (unpack_row_cases row)
    as [(name & typ & decl & cl & ef & el & sig & _ & ->)|[-> _]].
Qed.

Lemma emit_Raise st t e : emit st t = Raise e → e = ValueError.
Proof.
  unfold emit.
  destruct (location_result t.2.1)
    as [(caller & file & lif & ns & _ & _ & ->)|[-> _]]; simpl;
    [done|by intros [= <-]].
Qed.

Lemma emit_Diverge st t : emit st t ≠ Diverge.
Proof.
  unfold emit.
  by destruct (location_result t.2.1)
    as [(caller & file & lif & ns & _ & _ & ->)|[-> _]].
Qed.

Lemma function_pointers_cases rows :
  (∃ res, function_pointers rows = Ok res)
  ∨ function_pointers rows = Raise ValueError.
Proof.
  unfold function_pointers.
  destruct (for_each record_row ([], []) rows) as [[d c]|e|] eqn:Hrows; simpl.
  - destruct (record_rows_Ok _ _ _ _ _ Hrows recorded_nil) as (_ & _ & Hrec & _).
    rewrite (emit_decls _ _ _ Hrec).
    destruct (for_each emit _ _) as [[res seen]|e|] eqn:Hemit; simpl.
    + by eauto.
    + apply for_each_Raise in Hemit as (a & t & _ & ->%emit_Raise). by right.
    + apply for_each_Diverge in Hemit as (a & t & _ & Hd).
      by destruct (emit_Diverge a t).
  - apply for_each_Raise in Hrows as (a & t & _ & ->%record_row_Raise). by right.
  - apply for_each_Diverge in Hrows as (a & t & _ & Hd).
    by destruct (record_row_Diverge a t).
Qed.

Lemma function_pointers_cores rows res :
  function_pointers rows = Ok res →
  (λ h, Ok (hit_core h)) <$> res ≡ₚ row_core <$> rows.
Proof.
  intros (d & c & us & st & _ & Hus & _ & Hflat & Hemit & ->)%function_pointers_Ok.
  rewrite (emit_cores _ _ _ Hemit). simpl.
  rewrite <-flat_calls_sites, <-(unpacked_cores _ _ Hus).
  by apply fmap_Permutation.
Qed.

Lemma Forall2_Some_inj {A B} (f : A → option B) l k k' :
  Forall2 (λ a b, f a = Some b) l k → Forall2 (λ a b, f a = Some b) l k' →
  k = k'.
Proof.
  intros Hk. revert k'. induction Hk as [|a b l k Ha _ IH]; intros k' Hk';
    inversion Hk'; simplify_eq; [done|]. f_equal. by apply IH.
Qed.

Lemma row_core_well_formed name typ decl caller file lif ef el sig ns :
  Forall2 (λ s n, Py.int s = Some n) lif ns →
  row_core ([name; typ; decl; caller; file] ++ lif ++ [ef; el; sig])
  = Ok (name, (file, ns), ef, sig).
Proof.
  intros Hns. unfold row_core.
  change ([name; typ; decl; caller; file] ++ lif ++ [ef; el; sig])
    with (name :: typ :: decl :: (caller :: file :: lif) ++ [ef; el; sig]).
  rewrite unpack_row_app. simpl.
  destruct (ints_result lif) as [(ns' & -> & Hns')|[_ Hn]].
  - simpl. by rewrite (Forall2_Some_inj _ _ _ _ Hns' Hns).
  - destruct Hn. by eapply Forall2_is_Some.
Qed.

(** [extract_function_pointers] neither drops nor invents a call: when
    it returns, the result has one element per row of the query answer,
    and its elements, index apart, are the rows' own
    [(name, loc, exp_func, sig)], each as often as the rows have it. *)
Theorem one_hit_per_row rows res :
  function_pointers rows = Ok res →
  length res = length rows
  ∧ (λ h, Ok (hit_core h)) <$> res ≡ₚ row_core <$> rows.
Proof.
  intros Hres%function_pointers_cores. split; [|done].
  apply Permutation_length in Hres. by rewrite !length_fmap in Hres.
Qed.

(** The only way [extract_function_pointers] fails on a query answer is
    [ValueError], and it fails exactly when some row is not of the
    shape [name, typ, decl_loc, caller, file, n1, ..., nk, exported_func,
    exported_loc, sig] with every [ni] accepted by [int()]: fewer than
    six columns break the unpacking of line 131, fewer than eight that
    of line 143, and a column that is no integer breaks line 144.  Of a
    row of that shape the result keeps [name], [file], the integers,
    [exported_func] and [sig]; [typ], [decl_loc], [caller] and
    [exported_loc] are read and dropped. *)
Theorem function_pointers_result rows :
  match function_pointers rows with
  | Ok res => Forall well_formed_row rows
  | Raise e => e = ValueError ∧ ¬ Forall well_formed_row rows
  | Diverge => False
  end
  ∧ ∀ name typ decl caller file lif ef el sig ns,
      Forall2 (λ s n, Py.int s = Some n) lif ns →
      row_core ([name; typ; decl; caller; file] ++ lif ++ [ef; el; sig])
      = Ok (name, (file, ns), ef, sig).
Proof.
  split; [|intros; by apply row_core_well_formed].
  destruct (function_pointers_cases rows) as [[res Hres]|Hres]; rewrite Hres.
  - apply Forall_forall. intros row Hrow.
    destruct (row_core_result row) as [(c & _ & Hwf)|[Hr _]]; [done|].
    assert (row_core row ∈ (λ h, Ok (hit_core h)) <$> res) as Hin.
    { rewrite (function_pointers_cores _ _ Hres). apply list_elem_of_fmap.
      by exists row. }
    apply list_elem_of_fmap in Hin as (h & Hh & _). congruence.
  - split; [done|]. intros [res' Hres']%function_pointers_total. congruence.
Qed.

(** ** The index *)

Lemma same_elements_length {A} `{EqDecision A} (l k : list A) :
  NoDup l → (∀ x, x ∈ l ↔ x ∈ k) → length l = length (remove_dups k).
Proof.
  intros Hl Hlk. apply Permutation_length, NoDup_Permutation;
    [done|apply NoDup_remove_dups|].
  intros x. by rewrite elem_of_remove_dups.
Qed.

Lemma elem_of_see loc seen x : x ∈ see loc seen ↔ x ∈ seen ∨ x = loc.
Proof.
  unfold see. case_decide as Hin.
  - split; [by left|]. by intros [?| ->].
  - rewrite elem_of_app, list_elem_of_singleton. done.
Qed.

Lemma emit_indexed st t st' :
  emit st t = Ok st' → t.2.2 ≠ [] → indexed st → indexed st'.
Proof.
  intros (loc & _ & ->)%emit_Ok Hne (Hnd & Hseen & Hidx).
  destruct st as [res seen], t as [name [cl es]]. simpl in *.
  set (new := (λ e : Export,
                 mkHit name loc (Z.of_nat (length (see loc seen)) - 1) e.1.1 e.2)
              <$> es).
  assert (∀ h, h ∈ new → h_loc h = loc
                         ∧ h_index h = Z.of_nat (length (see loc seen)) - 1)
    as Hnew.
  { intros h (e & -> & _)%list_elem_of_fmap. done. }
  split_and!; simpl.
  - by apply keys_NoDup_step.
  - intros x. rewrite elem_of_see, Hseen, fmap_app, elem_of_app.
    apply or_iff_compat_l. split.
    + intros ->. destruct es as [|e es]; [done|]. simpl. apply elem_of_cons.
      by left.
    + intros (h & -> & Hh)%list_elem_of_fmap. by apply Hnew.
  - intros i h [Hi|[Hlen Hi]]%lookup_app_Some.
    + rewrite take_app_le by (apply lookup_lt_Some in Hi; lia). by apply Hidx.
    + destruct (Hnew h) as [Hloc ->]; [by eapply list_elem_of_lookup_2|].
      do 2 f_equal. unfold distinct_locs.
      apply same_elements_length; [by apply keys_NoDup_step|].
      intros x. rewrite take_app_ge by lia.
      rewrite elem_of_see, Hseen, fmap_app, elem_of_app. apply or_iff_compat_l.
      replace (S i - length res)%nat with (S (i - length res)) by lia.
      rewrite (take_S_r _ _ _ Hi). split.
      * intros ->. rewrite fmap_app, elem_of_app. right. simpl.
        rewrite Hloc. apply list_elem_of_singleton. done.
      * intros (h' & -> & Hh')%list_elem_of_fmap.
        apply elem_of_app in Hh' as [Hh'%elem_of_take| ->%list_elem_of_singleton];
          [|done].
        destruct Hh' as (j & Hj & _). apply Hnew. by eapply list_elem_of_lookup_2.
Qed.

Lemma emits_indexed T st st' :
  for_each emit st T = Ok st' →
  Forall (λ t : string * (list string * list Export), t.2.2 ≠ []) T →
  indexed st → indexed st'.
Proof.
  revert st. induction T as [|t T IH]; intros st; simpl.
  - by intros [= <-].
  - destruct (emit st t) as [st1| |] eqn:Ht; simpl; [|done..].
    intros HT [Hne HTne]%Forall_cons Hst. apply (IH _ HT HTne).
    by eapply emit_indexed.
Qed.

(** The third component of a result element is the number of distinct
    call locations among the elements up to and including it, less one
    (line 150 reads [len(seen_locs) - 1] whether or not the location
    was new).  It numbers the locations in the order of their first
    elements, but an element whose location was met before carries the
    number of the newest location, not that of its own. *)
Theorem index_counts_distinct_locations rows pre h post :
  function_pointers rows = Ok (pre ++ h :: post) →
  h_index h = Z.of_nat (distinct_locs (pre ++ [h])) - 1.
Proof.
  intros (d & c & us & st & _ & _ & Hne & _ & Hemit & Hres)%function_pointers_Ok.
  destruct (emits_indexed _ _ _ Hemit Hne) as (_ & _ & Hidx).
  { split_and!; [apply NoDup_nil_2|done|done]. }
  rewrite <-Hres in Hidx.
  assert ((pre ++ h :: post) !! length pre = Some h) as Hh.
  { by rewrite list_lookup_middle. }
  rewrite (Hidx _ _ Hh), (take_S_r _ _ _ Hh), take_app_length. done.
Qed.

(** ** The order of the result *)

Lemma firsts_snoc {A} `{EqDecision A} (l : list A) x :
  firsts (l ++ [x])
  = if decide (x ∈ firsts l) then firsts l else firsts l ++ [x].
Proof.
  induction l as [|y l IH].
  - cbn [firsts app]. rewrite decide_False; [done|]. by intros ?%elem_of_nil.
  - cbn [firsts app]. rewrite IH. destruct (decide (x = y)) as [->|Hne].
    + rewrite (decide_True (P := y ∈ y :: _)) by (apply elem_of_cons; by left).
      f_equal. case_decide; [done|]. rewrite filter_app, filter_cons_False by naive_solver.
      by rewrite filter_nil, app_nil_r.
    + destruct (decide (x ∈ firsts l)) as [Hin|Hnin].
      * rewrite decide_True; [done|]. apply elem_of_cons. right.
        by apply list_elem_of_filter.
      * rewrite decide_False.
        -- rewrite filter_app, filter_cons_True by done. by rewrite filter_nil.
        -- intros [?|[_ ?]%list_elem_of_filter]%elem_of_cons; done.
Qed.

Lemma elem_of_firsts {A} `{EqDecision A} (l : list A) x : x ∈ firsts l ↔ x ∈ l.
Proof.
  induction l as [|y l IH]; simpl; [done|].
  rewrite !elem_of_cons, list_elem_of_filter, IH.
  destruct (decide (x = y)); naive_solver.
Qed.

Lemma NoDup_firsts {A} `{EqDecision A} (l : list A) : NoDup (firsts l).
Proof.
  induction l as [|y l IH]; simpl; [apply NoDup_nil_2|].
  apply NoDup_cons. split; [|by apply NoDup_filter].
  by intros [? _]%list_elem_of_filter.
Qed.

Lemma tabulate_ext {K V} (g g' : K → V) ks :
  (∀ k, k ∈ ks → g k = g' k) → tabulate g ks = tabulate g' ks.
Proof.
  intros Hg. apply list_fmap_ext. intros i k Hk. f_equal.
  apply Hg. by eapply list_elem_of_lookup_2.
Qed.

Lemma tabulate_cons {K V} (g : K → V) k ks :
  tabulate g (k :: ks) = (k, g k) :: tabulate g ks.
Proof. done. Qed.

Lemma dict_update_tabulate {K V} `{EqDecision K} (f : V → V) dflt k
    (g g' : K → V) ks :
  NoDup ks → (k ∉ ks → g k = dflt) → g' k = f (g k) →
  (∀ k', k' ∈ ks → k' ≠ k → g' k' = g k') →
  dict_update f dflt k (tabulate g ks)
  = tabulate g' (if decide (k ∈ ks) then ks else ks ++ [k]).
Proof.
  intros Hnd Hd Hk Hg. induction ks as [|k0 ks IH].
  - rewrite decide_False by (by intros ?%elem_of_nil).
    change (dict_update f dflt k [] = [(k, g' k)]). simpl.
    rewrite Hk, Hd; [done|]. by intros ?%elem_of_nil.
  - apply NoDup_cons in Hnd as [Hk0 Hnd].
    rewrite tabulate_cons. cbn [dict_update].
    destruct (decide (k = k0)) as [->|Hne].
    + rewrite decide_True by (apply elem_of_cons; by left).
      rewrite tabulate_cons, Hk. f_equal.
      apply tabulate_ext. intros k' Hk'. symmetry. apply Hg.
      * apply elem_of_cons. by right.
      * by intros ->.
    + rewrite IH; [|done|..].
      * destruct (decide (k ∈ ks)) as [Hin|Hnin].
        -- rewrite decide_True by (apply elem_of_cons; by right).
           rewrite tabulate_cons. do 2 f_equal. symmetry.
           apply Hg; [apply elem_of_cons; by left|done].
        -- rewrite decide_False by (by intros [?|?]%elem_of_cons).
           change ((k0 :: ks) ++ [k]) with (k0 :: (ks ++ [k])).
           rewrite tabulate_cons. do 2 f_equal. symmetry.
           apply Hg; [apply elem_of_cons; by left|done].
      * intros Hnin. apply Hd. by intros [?|?]%elem_of_cons.
      * intros k' Hk'. apply Hg, elem_of_cons. by right.
Qed.

Lemma filter_none {A} (P : A → Prop) `{∀ x, Decision (P x)} (l : list A) :
  (∀ x, x ∈ l → ¬ P x) → filter P l = [].
Proof.
  induction l as [|x l IH]; intros Hl; [done|].
  rewrite filter_cons_False by (apply Hl, elem_of_cons; by left).
  apply IH. intros y Hy. apply Hl, elem_of_cons. by right.
Qed.

Lemma filter_snoc_True {A} (P : A → Prop) `{∀ x, Decision (P x)} (l : list A) x :
  P x → filter P (l ++ [x]) = filter P l ++ [x].
Proof. intros Hx. by rewrite filter_app, filter_cons_True. Qed.

Lemma filter_snoc_False {A} (P : A → Prop) `{∀ x, Decision (P x)} (l : list A) x :
  ¬ P x → filter P (l ++ [x]) = filter P l.
Proof. intros Hx. by rewrite filter_app, filter_cons_False, app_nil_r. Qed.

Lemma grouped_snoc ps name cl e :
  dict_update (dict_update (λ exports, exports ++ [e]) [] cl) [] name (grouped ps)
  = grouped (ps ++ [(name, cl, e)]).
Proof.
  unfold grouped. rewrite !fmap_app. simpl. rewrite firsts_snoc.
  apply dict_update_tabulate.
  - apply NoDup_firsts.
  - intros Hname. rewrite filter_none; [done|].
    intros p Hp Heq. apply Hname, elem_of_firsts.
    apply list_elem_of_fmap. exists p.1. split; [done|].
    apply list_elem_of_fmap. by exists p.
  - rewrite filter_snoc_True by done. rewrite !fmap_app. simpl.
    rewrite firsts_snoc. symmetry. apply dict_update_tabulate.
    + apply NoDup_firsts.
    + intros Hcl. rewrite filter_none; [done|].
      intros p Hp Heq. apply Hcl, elem_of_firsts.
      apply list_elem_of_fmap. exists p.1. split; [by rewrite Heq|].
      apply list_elem_of_fmap. exists p. split; [done|].
      apply list_elem_of_filter. by rewrite Heq.
    + by rewrite filter_snoc_True, fmap_app.
    + intros cl' _ Hne. rewrite filter_snoc_False; [done|]. simpl. congruence.
  - intros name' _ Hne. rewrite filter_snoc_False by (simpl; congruence).
    apply tabulate_ext. intros cl' _.
    rewrite filter_snoc_False; [done|]. simpl. congruence.
Qed.

Lemma record_row_unpacked st row name decl cl e :
  unpack_row row = Ok (name, decl, cl, e) →
  record_row st row
  = Ok (dict_set name decl st.1,
        dict_update (dict_update (λ exports, exports ++ [e]) [] cl) [] name st.2).
Proof. unfold record_row. by intros ->. Qed.

Lemma record_rows_grouped rows us ps d st :
  Forall2 (λ row u, unpack_row row = Ok u) rows us →
  for_each record_row (d, grouped ps) rows = Ok st →
  st.2 = grouped (ps ++ (part <$> us)).
Proof.
  intros Hus. revert ps d.
  induction Hus as [|row u rows us Hu _ IH]; intros ps d.
  - simpl. intros [= <-]. by rewrite app_nil_r.
  - destruct u as [[[name decl] cl] e]. cbn [for_each].
    rewrite (record_row_unpacked _ _ _ _ _ _ Hu). cbn [mbind result_bind fst snd].
    rewrite grouped_snoc. intros Hst. rewrite (IH _ _ Hst).
    by rewrite fmap_cons, <-app_assoc.
Qed.

Lemma flat_calls_grouped ps : flat_calls (grouped ps) = regroup ps.
Proof.
  unfold flat_calls, grouped, regroup, tabulate.
  rewrite list_fmap_bind. apply list_bind_ext; [|done]. intros name. simpl.
  rewrite list_fmap_bind. apply list_bind_ext; [|done]. intros cl. simpl.
  induction ps as [|p ps IH]; [done|]. rewrite filter_cons.
  case_decide as Hp; [|done]. rewrite !fmap_cons, IH. f_equal.
  destruct p as [[n c] e]. simpl in Hp. by simplify_eq.
Qed.

Lemma unpacked_parts rows us :
  Forall2 (λ row u, unpack_row row = Ok u) rows us →
  omap row_part rows = part <$> us.
Proof.
  induction 1 as [|row u rows us Hu _ IH]; [done|].
  change (omap row_part (row :: rows))
    with (match row_part row with
          | Some p => p :: omap row_part rows
          | None => omap row_part rows
          end).
  unfold row_part at 1. by rewrite Hu, IH.
Qed.

(** The order of the result: the function pointers come in the order
    of their first rows, under each one its call locations (caller
    included, columns compared as text) in the order of their first
    rows, and under each of those the rows in their own order. *)
Theorem hits_in_first_seen_groups rows res :
  function_pointers rows = Ok res →
  (λ h, Ok (hit_core h)) <$> res = core_of <$> regroup (omap row_part rows).
Proof.
  intros (d & c & us & st & Hrows & Hus & _ & _ & Hemit & ->)%function_pointers_Ok.
  rewrite (unpacked_parts _ _ Hus), (emit_cores _ _ _ Hemit). simpl.
  rewrite <-flat_calls_sites.
  pose proof (record_rows_grouped rows us [] [] (d, c) Hus Hrows) as Hc.
  simpl in Hc. by rewrite Hc, flat_calls_grouped.
Qed.

(** ** Examples *)

Lemma one_hit_per_row_witness :
  length example_hits = length example_rows
  ∧ (λ h, Ok (hit_core h)) <$> example_hits ≡ₚ row_core <$> example_rows.
Proof. apply (one_hit_per_row example_rows example_hits). vm_compute. reflexivity. Defined.

Lemma index_counts_distinct_locations_witness :
  h_index (mkHit "hp" ("a.c", [10; 2; 10; 9]) 1 "api" "int")
  = Z.of_nat (distinct_locs example_hits) - 1.
Proof.
  apply (index_counts_distinct_locations example_rows
           [mkHit "fp" ("a.c", [10; 2; 10; 9]) 0 "api" "int";
            mkHit "hp" ("b.c", [4; 1; 4; 8]) 1 "run" "void"]%string
           (mkHit "hp" ("a.c", [10; 2; 10; 9]) 1 "api" "int") []).
  vm_compute. reflexivity.
Defined.

Lemma hits_in_first_seen_groups_witness :
  (λ h, Ok (hit_core h)) <$> example_hits
  = core_of <$> regroup (omap row_part example_rows).
Proof.
  apply (hits_in_first_seen_groups example_rows example_hits).
  vm_compute. reflexivity.
Defined.

(** ** Cached answers *)

Section SecondCall.
Context {blob : Type}.
Variable dump_structs : gmap string Struct → blob.
Variable load_structs : blob → result (gmap string Struct).
Variable dump_hits : list Hit → blob.
Variable load_hits : blob → result (list Hit).
Hypothesis load_dump_structs : ∀ structs, load_structs (dump_structs structs) = Ok structs.
Hypothesis load_dump_hits : ∀ hits, load_hits (dump_hits hits) = Ok hits.

(** When [pickle.load] gives back what [pickle.dump] wrote, a call of
    [extract_structs] or [extract_function_pointers] that returned with
    a cache file makes every later call with that file return the same
    answer and leave the file system as it is, whatever the query would
    answer then. *)
Theorem second_call_answers_from_cache (fname : string) (files : gmap string blob) :
  (∀ rows rows' structs files',
     extract_structs dump_structs load_structs rows (Some fname) files
     = Ok (structs, files') →
     extract_structs dump_structs load_structs rows' (Some fname) files'
     = Ok (structs, files'))
  ∧ (∀ rows rows' hits files',
       extract_function_pointers dump_hits load_hits rows (Some fname) files
       = Ok (hits, files') →
       extract_function_pointers dump_hits load_hits rows' (Some fname) files'
       = Ok (hits, files')).
Proof.
  split.
  - intros rows rows' structs files'. unfold extract_structs.
    destruct (restore_object load_structs fname files) as [[o|]| |] eqn:Hr;
      simpl; [| |done..].
    + intros [= <- <-]. by rewrite Hr.
    + destruct (build rows) as [structs'| |]; simpl; [|done..].
      intros [= <- <-]. rewrite restore_object_cases. unfold save_object.
      by rewrite lookup_insert_eq, load_dump_structs.
  - intros rows rows' hits files'. unfold extract_function_pointers.
    destruct (restore_object load_hits fname files) as [[o|]| |] eqn:Hr;
      simpl; [| |done..].
    + intros [= <- <-]. by rewrite Hr.
    + destruct (function_pointers rows) as [hits'| |]; simpl; [|done..].
      intros [= <- <-]. rewrite restore_object_cases. unfold save_object.
      by rewrite lookup_insert_eq, load_dump_hits.
Qed.

End SecondCall.

Lemma second_call_answers_from_cache_witness :
  extract_function_pointers pickle_hits unpickle_hits [] (Some "cache"%string)
    {[ "cache"%string := inr example_hits ]}
  = Ok (example_hits, {[ "cache"%string := inr example_hits ]}).
Proof.
  apply (proj2 (second_call_answers_from_cache
                  pickle_structs unpickle_structs pickle_hits unpickle_hits
                  (λ _, eq_refl) (λ _, eq_refl) "cache" ∅) example_rows).
  vm_compute. reflexivity.
Defined.

(** * The object store of [parse_struct_ptr] *)

(** ** The outcomes of one field *)

Lemma process_field_Ok structs cur st f st' :
  process_field structs cur st f = Ok st' →
  st' = mkState (set_field cur (f_offset f) (VInt (f_size f)) (heap st))
                (q st) (parent st)
  ∨ ∃ n t e,
      array_member (f_type f) (f_size f) = Ok (n, t, e)
      ∧ (st' = store_scalars cur (f_offset f) e n st
         ∨ ∃ t', st' = expand structs cur (p_name (heap st !!! cur)) t'
                         (f_offset f) e n st).
Proof.
  unfold process_field. case_bool_decide; [intros [= <-]; by left|].
  destruct (array_member (f_type f) (f_size f)) as [[[n t] e]| |];
    simpl; [|done..].
  intros Hpf. right. exists n, t, e. split; [done|].
  destruct (Py.endswith t "*"); [|left; by simplify_eq].
  destruct (negb _ && negb _); [|left; by simplify_eq].
  destruct (detect_loop _ _ _) as [[]| |]; simpl in Hpf; [| |done..].
  - left. by simplify_eq.
  - right. eexists. by simplify_eq.
Qed.

(** ** The store under the writes of the loop *)

Lemma set_field_lookup h off v hp h' p' :
  set_field h off v hp !! h' = Some p' →
  ∃ p, hp !! h' = Some p ∧ p_name p' = p_name p ∧ p_size p' = p_size p
       ∧ (h ≠ h' → p' = p)
       ∧ ∀ off' w, p_fields p' !! off' = Some w →
                   (h = h' ∧ off' = off ∧ w = v) ∨ p_fields p !! off' = Some w.
Proof.
  unfold set_field. destruct (decide (h = h')) as [->|Hne].
  - rewrite list_lookup_alter_eq. destruct (hp !! h') as [p|]; [|done].
    intros [= <-]. exists p. split_and!; try done. simpl. intros off' w.
    destruct (decide (off = off')) as [->|Hoff].
    + rewrite lookup_insert_eq. intros [= <-]. by left.
    + rewrite lookup_insert_ne by done. by right.
  - rewrite list_lookup_alter_ne by done. intros Hp. exists p'.
    split_and!; try done. intros. by right.
Qed.

Lemma set_int_sound structs cur off n st :
  sound_at structs cur st →
  sound_at structs cur
    (mkState (set_field cur off (VInt n) (heap st)) (q st) (parent st)).
Proof.
  intros ((Hcat & Hfw & Hun & Hpend & Hnd) & Hcur & Hq).
  unfold sound_at, sound. split_and!; simpl;
    [| | | |done|by rewrite length_set_field|done].
  - intros h p' (p & Hp & -> & -> & _)%set_field_lookup. by eapply Hcat.
  - by apply forward_set_int.
  - intros h1 p1 off1 h2 p2 off2 c
      (p1' & Hp1 & _ & _ & _ & Hf1)%set_field_lookup Hc1
      (p2' & Hp2 & _ & _ & _ & Hf2)%set_field_lookup Hc2.
    destruct (Hf1 _ _ Hc1) as [(_ & _ & ?)|Hc1']; [done|].
    destruct (Hf2 _ _ Hc2) as [(_ & _ & ?)|Hc2']; [done|].
    by eapply Hun.
  - intros h Hh. destruct (Hpend _ Hh) as (p & Hp & Hempty). exists p.
    split; [|done]. simpl. unfold set_field.
    rewrite list_lookup_alter_ne; [done|]. by intros ->.
Qed.

Lemma set_ints_sound structs cur (g : Z → Z) n st l :
  sound_at structs cur st →
  sound_at structs cur
    (mkState (foldl (λ hp i, set_field cur (g i) (VInt n) hp) (heap st) l)
             (q st) (parent st)).
Proof.
  revert st. induction l as [|i l IH]; intros st Hst; simpl.
  - by destruct st.
  - by apply (IH (mkState _ (q st) (parent st))), set_int_sound.
Qed.

Lemma add_child_sound structs cur t foff fsize st i :
  sound_at structs cur st →
  sound_at structs cur (add_child structs cur t foff fsize st i).
Proof.
  intros Hst. unfold add_child. destruct (structs !! t) as [s|] eqn:Ht; [|done].
  destruct Hst as ((Hcat & Hfw & Hun & Hpend & Hnd) & Hcur & Hq).
  assert (∀ h, h ∈ q st → (h < length (heap st))%nat) as Hlt.
  { intros h (p & Hp & _)%Hpend. by eapply lookup_lt_Some. }
  unfold sound_at, sound. split_and!; simpl.
  - intros h p' (p & Hp & -> & -> & _)%set_field_lookup.
    apply lookup_snoc_Some in Hp as [[_ Hp]|[_ <-]]; [by eapply Hcat|].
    simpl. by eauto.
  - by apply forward_set_new.
  - intros h1 p1 off1 h2 p2 off2 c
      (p1' & Hp1 & _ & _ & _ & Hf1)%set_field_lookup Hc1
      (p2' & Hp2 & _ & _ & _ & Hf2)%set_field_lookup Hc2.
    assert (∀ h p off, (heap st ++ [mkPointer t (s_size s) ∅]) !! h = Some p →
                       p_fields p !! off = Some (VRef c) →
                       (c < length (heap st))%nat) as Hold.
    { intros h p off [[_ Hp]|[_ <-]]%lookup_snoc_Some Hc.
      - destruct (Hfw _ _ _ _ Hp Hc). lia.
      - simpl in Hc. by rewrite lookup_empty in Hc. }
    destruct (Hf1 _ _ Hc1) as [(He1 & Ho1 & Hv1)|Hc1'];
      destruct (Hf2 _ _ Hc2) as [(He2 & Ho2 & Hv2)|Hc2'].
    + by simplify_eq.
    + specialize (Hold _ _ _ Hp2 Hc2'). simplify_eq. lia.
    + specialize (Hold _ _ _ Hp1 Hc1'). simplify_eq. lia.
    + apply lookup_snoc_Some in Hp1 as [[_ Hp1]|[_ <-]];
        [|simpl in Hc1'; by rewrite lookup_empty in Hc1'].
      apply lookup_snoc_Some in Hp2 as [[_ Hp2]|[_ <-]];
        [|simpl in Hc2'; by rewrite lookup_empty in Hc2'].
      by eapply Hun.
  - intros h [Hh| ->%list_elem_of_singleton]%elem_of_app.
    + destruct (Hpend _ Hh) as (p & Hp & Hempty). exists p. split; [|done].
      simpl. unfold set_field. rewrite list_lookup_alter_ne by (by intros ->).
      by apply lookup_app_l_Some.
    + exists (mkPointer t (s_size s) ∅). split; [|done]. simpl. unfold set_field.
      rewrite list_lookup_alter_ne by lia. apply lookup_snoc_Some. by right.
  - apply NoDup_app. split_and!; [done| |apply NoDup_singleton].
    intros h Hh ->%list_elem_of_singleton. apply Hlt in Hh. lia.
  - rewrite length_set_field, length_app. lia.
  - intros [Hh| ->%list_elem_of_singleton]%elem_of_app; [done|lia].
Qed.

Lemma add_children_sound structs cur t foff fsize st l :
  sound_at structs cur st →
  sound_at structs cur (foldl (add_child structs cur t foff fsize) st l).
Proof.
  revert st. induction l as [|i l IH]; intros st Hst; simpl; [done|].
  by apply IH, add_child_sound.
Qed.

Lemma process_field_sound structs cur st f st' :
  process_field structs cur st f = Ok st' →
  sound_at structs cur st → sound_at structs cur st'.
Proof.
  intros [->|(n & t & e & _ & [->|[t' ->]])]%process_field_Ok Hst.
  - by apply set_int_sound.
  - unfold store_scalars.
    by apply (set_ints_sound structs cur (λ i, f_offset f + i * e)).
  - unfold expand. by apply add_children_sound.
Qed.

Lemma process_fields_sound structs cur st fs st' :
  process_fields structs cur st fs = Ok st' →
  sound_at structs cur st → sound_at structs cur st'.
Proof.
  revert st. induction fs as [|f fs IH]; intros st; simpl; [by intros [= <-]|].
  destruct (process_field structs cur st f) as [st1| |] eqn:Hf; simpl; [|done..].
  intros Hfs Hst. apply (IH _ Hfs). by eapply process_field_sound.
Qed.

Lemma sound_dequeue structs st cur rest :
  sound structs st → q st = cur :: rest →
  sound_at structs cur (mkState (heap st) rest (parent st)).
Proof.
  intros (Hcat & Hfw & Hun & Hpend & Hnd) Hq. rewrite Hq in Hnd.
  apply NoDup_cons in Hnd as [Hcur Hnd].
  unfold sound_at, sound. split_and!; simpl; try done.
  - intros h Hh. apply Hpend. rewrite Hq. apply elem_of_cons. by right.
  - destruct (Hpend cur) as (p & Hp & _); [rewrite Hq; apply elem_of_cons; by left|].
    by eapply lookup_lt_Some.
Qed.

Lemma process_fields_Raise structs cur st fs e :
  process_fields structs cur st fs = Raise e →
  e = ValueError ∨ e = ZeroDivisionError.
Proof.
  revert st. induction fs as [|f fs IH]; intros st; simpl; [done|].
  destruct (process_field_step structs cur st f)
    as [(e' & -> & He')|(st' & -> & _)]; simpl.
  - intros [= <-]. by eapply array_member_Raise.
  - apply IH.
Qed.

Lemma bfs_sound structs fuel st :
  sound structs st →
  match bfs fuel structs st with
  | Ok st' => sound structs st'
  | Raise e => e = ValueError ∨ e = ZeroDivisionError
  | Diverge => True
  end.
Proof.
  revert st. induction fuel as [|fuel IH]; intros st Hst; simpl.
  - by destruct (q st).
  - destruct (q st) as [|cur rest] eqn:Hq; [done|].
    pose proof (sound_dequeue _ _ _ _ Hst Hq) as Hat.
    destruct Hst as (Hcat & _ & _ & Hpend & _).
    destruct (Hpend cur) as (p & Hp & _); [rewrite Hq; apply elem_of_cons; by left|].
    rewrite (list_lookup_total_correct _ _ _ Hp).
    destruct (Hcat _ _ Hp) as (s & -> & _).
    destruct (process_fields _ _ _ _) as [st1|e|] eqn:Hfs; simpl; [| |done].
    + apply (IH st1). by apply (process_fields_sound _ _ _ _ _ Hfs).
    + by eapply process_fields_Raise.
Qed.

Lemma sound_initial structs name s :
  structs !! name = Some s →
  sound structs (mkState [mkPointer name (s_size s) ∅] [0%nat] ∅).
Proof.
  intros Hs. unfold sound. split_and!; simpl.
  - intros h p [-> <-]%list_lookup_singleton_Some. simpl. by eauto.
  - intros h p off c [-> <-]%list_lookup_singleton_Some Hc. simpl in Hc.
    by rewrite lookup_empty in Hc.
  - intros h1 p1 off1 h2 p2 off2 c [-> <-]%list_lookup_singleton_Some Hc.
    simpl in Hc. by rewrite lookup_empty in Hc.
  - intros h ->%list_elem_of_singleton. by eexists.
  - apply NoDup_singleton.
Qed.

(** Every object [parse_struct_ptr] builds is an entry of the catalogue
    and has the size the catalogue declares for its name, so the lookup
    [structs[cur.name]] of line 28 never raises [KeyError]: whatever the
    catalogue and the fuel, the only exceptions are the [ValueError] and
    the [ZeroDivisionError] of an array suffix. *)
Theorem nodes_are_catalogue_entries (fuel : nat) (name : string)
    (structs : gmap string Struct) :
  match parse_struct_ptr fuel name structs with
  | Ok (Some hp) =>
      ∀ h p, hp !! h = Some p →
             ∃ s, structs !! p_name p = Some s ∧ p_size p = s_size s
  | Ok None => structs !! name = None
  | Raise e => e = ValueError ∨ e = ZeroDivisionError
  | Diverge => True
  end.
Proof.
  unfold parse_struct_ptr. destruct (structs !! name) as [s|] eqn:Hs; [|done].
  pose proof (bfs_sound structs fuel _ (sound_initial structs name s Hs)) as Hb.
  destruct (bfs _ _ _) as [st'| |]; simpl; [|done..].
  by destruct Hb as (Hcat & _).
Qed.

(** The object graph [parse_struct_ptr] returns is a forest whose first
    tree hangs from the root: a slot refers only to an object created
    after its owner, no object is referred to by two slots, and none
    refers to the root. *)
Theorem objects_are_not_shared (fuel : nat) (name : string)
    (structs : gmap string Struct) (hp : list Pointer) :
  parse_struct_ptr fuel name structs = Ok (Some hp) →
  (∀ h p off c, hp !! h = Some p → p_fields p !! off = Some (VRef c) →
                (h < c < length hp)%nat)
  ∧ (∀ h1 p1 off1 h2 p2 off2 c,
       hp !! h1 = Some p1 → p_fields p1 !! off1 = Some (VRef c) →
       hp !! h2 = Some p2 → p_fields p2 !! off2 = Some (VRef c) →
       h1 = h2 ∧ off1 = off2)
  ∧ (∀ h p off, hp !! h = Some p → p_fields p !! off ≠ Some (VRef 0)).
Proof.
  unfold parse_struct_ptr. destruct (structs !! name) as [s|] eqn:Hs; [|done].
  pose proof (bfs_sound structs fuel _ (sound_initial structs name s Hs)) as Hb.
  destruct (bfs _ _ _) as [st'| |]; simpl; [|done..].
  intros [= <-]. destruct Hb as (_ & Hfw & Hun & _). split_and!; [done..|].
  intros h p off Hp Hc. destruct (Hfw _ _ _ _ Hp Hc). lia.
Qed.

Lemma objects_are_not_shared_witness :
  (∀ h p off c,
     [mkPointer "A" 8 {[0 := VRef 1]}; mkPointer "B" 8 {[0 := VRef 2]};
      mkPointer "A" 8 {[0 := VInt 8]}] !! h = Some p →
     p_fields p !! off = Some (VRef c) → (h < c < 3)%nat)
  ∧ (∀ h1 p1 off1 h2 p2 off2 c,
       [mkPointer "A" 8 {[0 := VRef 1]}; mkPointer "B" 8 {[0 := VRef 2]};
        mkPointer "A" 8 {[0 := VInt 8]}] !! h1 = Some p1 →
       p_fields p1 !! off1 = Some (VRef c) →
       [mkPointer "A" 8 {[0 := VRef 1]}; mkPointer "B" 8 {[0 := VRef 2]};
        mkPointer "A" 8 {[0 := VInt 8]}] !! h2 = Some p2 →
       p_fields p2 !! off2 = Some (VRef c) →
       h1 = h2 ∧ off1 = off2)
  ∧ (∀ h p off,
       [mkPointer "A" 8 {[0 := VRef 1]}; mkPointer "B" 8 {[0 := VRef 2]};
        mkPointer "A" 8 {[0 := VInt 8]}] !! h = Some p →
       p_fields p !! off ≠ Some (VRef 0)).
Proof.
  apply (objects_are_not_shared 3 "A" (mutual 8 8 0 0 8 8 "b" "a")).
  vm_compute. reflexivity.
Defined.

(** ** The ancestor walk, on every [parent] *)

Lemma reaches_snoc p x k y z :
  reaches p x k y → p !! y = Some z → reaches p x (S k) z.
Proof.
  induction 1 as [x|x y' k z' Hxy _ IH]; intros Hz.
  - econstructor; [done|constructor].
  - econstructor; [done|by apply IH].
Qed.

Lemma reaches_fun p x k y y' : reaches p x k y → reaches p x k y' → y = y'.
Proof.
  induction 1 as [x|x y0 k z Hxy _ IH]; intros H'; inversion H'; simplify_eq;
    [done|by apply IH].
Qed.

(** Two points of one chain. *)
Lemma reaches_after p x j y m z :
  reaches p x j y → reaches p x (j + m) z → reaches p y m z.
Proof.
  induction 1 as [x|x y0 k z' Hxy _ IH]; simpl; [done|].
  intros H'. inversion H'; simplify_eq. by apply IH.
Qed.

Lemma rooted_reaches p x d k y :
  rooted p x d → reaches p x k y → (k ≤ d)%nat ∧ rooted p y (d - k).
Proof.
  intros Hd. revert k. induction Hd as [x Hx|x y0 d Hxy Hy IH]; intros k Hk.
  - inversion Hk; simplify_eq. split; [lia|by constructor].
  - inversion Hk; simplify_eq.
    + split; [lia|]. by econstructor.
    + destruct (IH _ H0) as [Hle Hr]. split; [lia|done].
Qed.

Lemma reaches_end p x k y : reaches p x k y → p !! y = None → rooted p x k.
Proof.
  induction 1 as [x|x y0 k z Hxy _ IH]; intros Hz; [by constructor|].
  econstructor; [done|by apply IH].
Qed.

Lemma cycle_looping p y m : reaches p y (S m) y → looping p y.
Proof.
  intros Hc d Hd. destruct (rooted_reaches _ _ _ _ _ Hd Hc) as [Hle Hr].
  pose proof (rooted_fun _ _ _ _ Hd Hr). lia.
Qed.

Lemma looping_reaches p x k y : reaches p x k y → looping p y → looping p x.
Proof.
  intros Hk Hy d Hd. destruct (rooted_reaches _ _ _ _ _ Hd Hk) as [_ Hr].
  by apply (Hy _ Hr).
Qed.

Lemma walk_spec fuel p ftype par seen k inf :
  reaches p ftype k par →
  (∀ y, y ∈ seen ↔ y ∈ Py.set_of_str ftype
                   ∨ ∃ j, (1 ≤ j ≤ k)%nat ∧ reaches p ftype j y) →
  (∀ j y, (1 ≤ j ≤ k)%nat → reaches p ftype j y → y ∉ Py.set_of_str ftype) →
  walk fuel p ftype par seen = Some inf →
  if inf
  then looping p ftype
       ∨ ∃ j y, reaches p ftype (S j) y ∧ y ∈ Py.set_of_str ftype
  else (∃ d, rooted p ftype d)
       ∧ ∀ j y, reaches p ftype (S j) y → y ∉ Py.set_of_str ftype.
Proof.
  revert par seen k.
  induction fuel as [|fuel IH]; intros par seen k Hk Hseen Hfresh; [done|].
  simpl. destruct (p !! par) as [newpar|] eqn:Hp.
  2:{ intros [= <-]. pose proof (reaches_end _ _ _ _ Hk Hp) as Hd.
      split; [by eauto|]. intros j y Hj.
      destruct (rooted_reaches _ _ _ _ _ Hd Hj) as [Hle _].
      apply (Hfresh (S j)); [lia|done]. }
  pose proof (reaches_snoc _ _ _ _ _ Hk Hp) as Hnew.
  destruct (bool_decide (newpar = ftype) || bool_decide (newpar ∈ seen)) eqn:Hchk.
  { intros [= <-].
    apply orb_true_iff in Hchk as [->%bool_decide_eq_true|Hin%bool_decide_eq_true].
    - left. by eapply cycle_looping.
    - apply Hseen in Hin as [Hin|(j & Hj & Hy)]; [right; by eauto|].
      left. eapply looping_reaches; [exact Hy|].
      apply (cycle_looping _ _ (k - j)), (reaches_after _ _ _ _ _ _ Hy).
      by replace (j + S (k - j))%nat with (S k) by lia. }
  apply orb_false_iff in Hchk as [Hne%bool_decide_eq_false Hns%bool_decide_eq_false].
  case_bool_decide as Hself.
  { subst newpar. destruct k as [|k].
    - inversion Hk; by simplify_eq.
    - destruct Hns. apply Hseen. right. exists (S k). split; [lia|done]. }
  apply (IH newpar (newpar :: seen) (S k)); [done| |].
  - intros y. rewrite elem_of_cons, Hseen. split.
    + intros [->|[Hy|(j & Hj & Hy)]]; [|by left|].
      * right. exists (S k). split; [lia|done].
      * right. exists j. split; [lia|done].
    + intros [Hy|(j & Hj & Hy)]; [by auto|].
      destruct (decide (j = S k)) as [->|Hjk].
      * left. by eapply reaches_fun.
      * right. right. exists j. split; [lia|done].
  - intros j y Hj Hy. destruct (decide (j = S k)) as [->|Hjk].
    + rewrite (reaches_fun _ _ _ _ _ Hy Hnew). intros Hin. apply Hns, Hseen.
      by left.
    + apply (Hfresh j); [lia|done].
Qed.

(** The loop-avoidance test of lines 51-70, on every [parent] dict
    (cyclic ones and ones with self-parents included): the walk
    terminates; [inf] is [False] only if the chain of ancestors of
    [ftype] leaves the keys of [parent] and none of these ancestors is
    a one-character string that occurs in [ftype]; [inf] is [True] only
    if [ftype] is the current node's name, or its chain never leaves
    the keys, or one of its ancestors is such a one-character string
    ([seen = set(par)] is the set of the characters of [ftype], not the
    set that holds [ftype]).  The last case is a loop that is none: with
    [parent = {"ab": "b"}] the pointer to ["ab"] is taken for a loop. *)
Theorem detect_loop_spec (p : gmap string string) (ftype cur_name : string) :
  (∃ inf, detect_loop p ftype cur_name = Ok inf)
  ∧ (detect_loop p ftype cur_name = Ok false →
     ftype ≠ cur_name ∧ (∃ d, rooted p ftype d)
     ∧ ∀ j y, reaches p ftype (S j) y → y ∉ Py.set_of_str ftype)
  ∧ (detect_loop p ftype cur_name = Ok true →
     ftype = cur_name ∨ looping p ftype
     ∨ ∃ j y, reaches p ftype (S j) y ∧ y ∈ Py.set_of_str ftype)
  ∧ detect_loop {[ "ab" := "b" ]}%string "ab" "c" = Ok true.
Proof.
  split_and!; [apply detect_loop_is_Ok| | |by vm_compute].
  - unfold detect_loop. case_bool_decide; [done|].
    destruct (walk _ _ _ _ _) as [[]|] eqn:Hw; try done. intros _.
    split; [done|].
    apply (walk_spec _ _ _ _ _ 0 false) in Hw; [done|constructor| |].
    + intros y. split; [by left|]. intros [?|(j & ? & _)]; [done|lia].
    + intros j y ?. lia.
  - unfold detect_loop. case_bool_decide; [by left|].
    destruct (walk _ _ _ _ _) as [[]|] eqn:Hw; try done. intros _. right.
    apply (walk_spec _ _ _ _ _ 0 true) in Hw; [done|constructor| |].
    + intros y. split; [by left|]. intros [?|(j & ? & _)]; [done|lia].
    + intros j y ?. lia.
Qed.

(** ** Scalar slots *)

Lemma set_field_lookup_eq h off v hp :
  set_field h off v hp !! h
  = (λ p, mkPointer (p_name p) (p_size p) (<[off:=v]> (p_fields p))) <$> hp !! h.
Proof. unfold set_field. by rewrite list_lookup_alter_eq. Qed.

Lemma set_field_lookup_ne h off v hp h' :
  h ≠ h' → set_field h off v hp !! h' = hp !! h'.
Proof. intros Hne. unfold set_field. by rewrite list_lookup_alter_ne. Qed.

Lemma set_ints_lookup cur (g : Z → Z) v l hp :
  (∀ h, h ≠ cur →
        foldl (λ hp i, set_field cur (g i) v hp) hp l !! h = hp !! h)
  ∧ foldl (λ hp i, set_field cur (g i) v hp) hp l !! cur
    = (λ p, mkPointer (p_name p) (p_size p)
              (foldl (λ m i, <[g i := v]> m) (p_fields p) l)) <$> hp !! cur.
Proof.
  revert hp. induction l as [|i l IH]; intros hp; simpl.
  - split; [done|]. by destruct (hp !! cur) as [[]|].
  - destruct (IH (set_field cur (g i) v hp)) as [IH1 IH2]. split.
    + intros h Hh. by rewrite IH1, set_field_lookup_ne.
    + rewrite IH2, set_field_lookup_eq. by destruct (hp !! cur).
Qed.

Lemma inserts_lookup (g : Z → Z) (v : value) l (m : gmap Z value) off :
  foldl (λ m i, <[g i := v]> m) m l !! off
  = if decide (off ∈ g <$> l) then Some v else m !! off.
Proof.
  revert m. induction l as [|i l IH]; intros m.
  - rewrite decide_False; [done|]. by intros ?%elem_of_nil.
  - rewrite fmap_cons. cbn [foldl].
    rewrite IH. destruct (decide (off ∈ g <$> l)) as [Hin|Hnin].
    + rewrite decide_True; [done|]. apply elem_of_cons. by right.
    + destruct (decide (off = g i)) as [->|Hne].
      * rewrite decide_True by (apply elem_of_cons; by left).
        by rewrite lookup_insert_eq.
      * rewrite decide_False by (by intros [?|?]%elem_of_cons).
        by rewrite lookup_insert_ne.
Qed.

Lemma store_scalars_slots cur foff fsize n st p :
  heap st !! cur = Some p →
  ∃ p', heap (store_scalars cur foff fsize n st) !! cur = Some p'
        ∧ p_name p' = p_name p ∧ p_size p' = p_size p
        ∧ (∀ i, 0 ≤ i < n → p_fields p' !! (foff + i * fsize) = Some (VInt fsize))
        ∧ (∀ off, (∀ i, 0 ≤ i < n → off ≠ foff + i * fsize) →
                  p_fields p' !! off = p_fields p !! off).
Proof.
  intros Hp. unfold store_scalars. simpl.
  destruct (set_ints_lookup cur (λ i, foff + i * fsize) (VInt fsize)
              (seqZ 0 n) (heap st)) as [_ ->].
  rewrite Hp. simpl. eexists. split; [done|]. simpl. split_and!; [done..| |].
  - intros i Hi. rewrite inserts_lookup, decide_True; [done|].
    apply list_elem_of_fmap. exists i. split; [done|]. apply elem_of_seqZ. lia.
  - intros off Hoff. rewrite inserts_lookup, decide_False; [done|].
    intros (i & -> & Hi%elem_of_seqZ)%list_elem_of_fmap. apply (Hoff i); [lia|done].
Qed.

(** A member that is not followed, array or not.  With [n] the count,
    [t] the element type and [e] the element size that lines 38-42
    compute: when [t] does not end in a star, or is a pointer to a
    pointer, or a pointer to a primitive type, or a pointer that the
    test of lines 51-70 takes for a loop, the field writes the slots
    [f.offset + i * e] for [0 <= i < n] of the current node, each with
    the value [e], and nothing else: the other slots, the other nodes,
    the queue and [parent] are as before.  So a count below zero writes
    no slot at all, and an element size of zero writes one slot. *)
Theorem scalar_member_slots (structs : gmap string Struct) (cur : nat)
    (st : state) (f : StructField) (n : Z) (t : string) (e : Z) (p : Pointer) :
  array_member (f_type f) (f_size f) = Ok (n, t, e) →
  heap st !! cur = Some p →
  Py.endswith t "*" = false
  ∨ Py.endswith (Py.strip (Py.slice t 0 (-1))) "*" = true
  ∨ Py.strip (Py.slice t 0 (-1)) ∈ PRIMITIVE_TYPES
  ∨ detect_loop (parent st) (Py.strip (Py.slice t 0 (-1))) (p_name p) = Ok true →
  ∃ st' p',
    process_field structs cur st f = Ok st'
    ∧ q st' = q st ∧ parent st' = parent st
    ∧ length (heap st') = length (heap st)
    ∧ (∀ h, h ≠ cur → heap st' !! h = heap st !! h)
    ∧ heap st' !! cur = Some p'
    ∧ p_name p' = p_name p ∧ p_size p' = p_size p
    ∧ (∀ i, 0 ≤ i < n → p_fields p' !! (f_offset f + i * e) = Some (VInt e))
    ∧ (∀ off, (∀ i, 0 ≤ i < n → off ≠ f_offset f + i * e) →
              p_fields p' !! off = p_fields p !! off).
Proof.
  intros Ham Hp Hopaque.
  assert (process_field structs cur st f
          = Ok (store_scalars cur (f_offset f) e n st)) as ->.
  { unfold process_field. case_bool_decide as Hun.
    - assert (n = 1 ∧ e = f_size f) as [-> ->].
      { apply elem_of_cons in Hun as [Hun|Hun%list_elem_of_singleton];
          rewrite Hun in Ham; vm_compute in Ham; by simplify_eq. }
      unfold store_scalars. simpl. by rewrite Z.add_0_r.
    - rewrite Ham. simpl. destruct (Py.endswith t "*") eqn:Hstar; [|done].
      destruct (negb _ && negb _) eqn:Hcond; [|done].
      apply andb_true_iff in Hcond as [Hstar'%negb_true_iff Hprim%negb_true_iff].
      apply bool_decide_eq_false in Hprim.
      destruct Hopaque as [?|[?|[?|Hloop]]]; [congruence|congruence|done|].
      by rewrite (list_lookup_total_correct _ _ _ Hp), Hloop. }
  destruct (store_scalars_slots cur (f_offset f) e n st p Hp)
    as (p' & Hp' & Hname & Hsize & Hin & Hout).
  exists (store_scalars cur (f_offset f) e n st), p'.
  split_and!; try done.
  - pose proof (store_scalars_frame cur (f_offset f) e n st) as (_ & _ & Hh).
    apply (f_equal length) in Hh. by rewrite !length_fmap in Hh.
  - intros h Hh. unfold store_scalars. simpl.
    destruct (set_ints_lookup cur (λ i, f_offset f + i * e) (VInt e)
                (seqZ 0 n) (heap st)) as [Hne _]. by apply Hne.
Qed.

(** ** The array suffix *)

Lemma rfind_from_app i c l1 l2 acc :
  Py.rfind_from i c (l1 ++ l2) acc
  = Py.rfind_from (i + Z.of_nat (length l1)) c l2 (Py.rfind_from i c l1 acc).
Proof.
  revert i acc. induction l1 as [|x l1 IH]; intros i acc; simpl.
  - by rewrite Z.add_0_r.
  - rewrite IH. f_equal. lia.
Qed.

Lemma rfind_from_absent i c l acc : c ∉ l → Py.rfind_from i c l acc = acc.
Proof.
  revert i acc. induction l as [|x l IH]; intros i acc Hc; simpl; [done|].
  rewrite bool_decide_eq_false_2 by (intros ->; apply Hc, elem_of_cons; by left).
  apply IH. intros ?. apply Hc, elem_of_cons. by right.
Qed.

Lemma slice_inner l1 l2 c :
  Py.slice (Py.str (l1 ++ l2 ++ [c])) (Z.of_nat (length l1)) (-1) = Py.str l2.
Proof.
  unfold Py.slice, Py.clamp. rewrite chars_str, !length_app. simpl.
  destruct (Z.ltb_spec (Z.of_nat (length l1)) 0) as [?|_]; [lia|].
  replace (Z.to_nat (Z.min _ _)) with (length l1) by lia.
  rewrite drop_app_length. f_equal.
  replace (Z.to_nat _) with (length l2) by lia. by rewrite take_app_length.
Qed.

Lemma slice_prefix l1 l2 :
  Py.slice (Py.str (l1 ++ l2)) 0 (Z.of_nat (length l1)) = Py.str l1.
Proof.
  unfold Py.slice, Py.clamp. rewrite chars_str, !length_app. simpl.
  destruct (Z.ltb_spec (Z.of_nat (length l1)) 0) as [?|_]; [lia|].
  replace (Z.to_nat (Z.min 0 _)) with 0%nat by lia. rewrite drop_0. f_equal.
  replace (Z.to_nat _) with (length l1) by lia. by rewrite take_app_length.
Qed.

(** The suffix [[ds]] of a member's type, for every element type [T]
    and every text [ds] between the last pair of brackets: the count is
    [int(ds)], the element type is [T] as spelled (a space before the
    bracket stays), the element size is the floor quotient of the
    reported size; a text that [int()] refuses raises [ValueError], a
    count of zero [ZeroDivisionError]. *)
Theorem array_suffix (T ds : string) (fsize : Z) :
  "["%char ∉ Py.chars ds →
  array_member (T +:+ "[" +:+ ds +:+ "]") fsize
  = match Py.int ds with
    | None => Raise ValueError
    | Some n =>
        if bool_decide (n = 0) then Raise ZeroDivisionError
        else Ok (n, T, fsize `div` n)
    end.
Proof.
  intros Hds.
  assert (Py.chars (T +:+ "[" +:+ ds +:+ "]")
          = Py.chars T ++ ("["%char :: Py.chars ds) ++ ["]"%char]) as Hchars.
  { by rewrite !chars_app. }
  unfold array_member.
  assert (Py.endswith (T +:+ "[" +:+ ds +:+ "]") "]" = true) as ->.
  { unfold Py.endswith. by rewrite Hchars, app_assoc, last_snoc. }
  assert (Py.rfind (T +:+ "[" +:+ ds +:+ "]") "[" = Z.of_nat (length (Py.chars T)))
    as ->.
  { unfold Py.rfind. rewrite Hchars, rfind_from_app. simpl.
    rewrite rfind_from_absent; [lia|].
    intros [Hin|Hin%list_elem_of_singleton]%elem_of_app; done. }
  rewrite <-(str_chars (T +:+ "[" +:+ ds +:+ "]")), Hchars.
  assert (Py.slice (Py.str (Py.chars T ++ ("["%char :: Py.chars ds) ++ ["]"%char]))
                   (Z.of_nat (length (Py.chars T)) + 1) (-1) = ds) as ->.
  { replace (Z.of_nat (length (Py.chars T)) + 1)
      with (Z.of_nat (length (Py.chars T ++ ["["%char]))) by (rewrite length_app; simpl; lia).
    replace (Py.chars T ++ ("["%char :: Py.chars ds) ++ ["]"%char])
      with ((Py.chars T ++ ["["%char]) ++ Py.chars ds ++ ["]"%char])
      by (by rewrite <-!app_assoc).
    by rewrite slice_inner, str_chars. }
  by rewrite slice_prefix, str_chars.
Qed.

Lemma array_suffix_witness :
  array_member ("unsigned char " +:+ "[" +:+ "16" +:+ "]") 16
  = match Py.int "16" with
    | None => Raise ValueError
    | Some n =>
        if bool_decide (n = 0) then Raise ZeroDivisionError
        else Ok (n, "unsigned char "%string, 16 `div` n)
    end.
Proof.
  apply (array_suffix "unsigned char " "16" 16). vm_compute.
  intros [?|[?|?%elem_of_nil]%elem_of_cons]%elem_of_cons; done.
Defined.

(** ** Pointer members *)

Lemma add_children structs cur t s foff e l st :
  structs !! t = Some s → (cur < length (heap st))%nat →
  children_added cur (mkPointer t (s_size s) ∅) foff e l st
    (foldl (add_child structs cur t foff e) st l).
Proof.
  intros Ht Hcur. induction l as [|i l IH] using rev_ind.
  { unfold children_added. simpl. rewrite app_nil_r, Nat.add_0_r.
    split_and!; try done; [intros; lia|]. intros p Hp. exists p.
    by split_and!. }
  rewrite foldl_app. simpl.
  destruct IH as (Hq & Hpar & Hlen & Hold & Hnew & Hfields).
  remember (foldl (add_child structs cur t foff e) st l) as st1 eqn:Hst1.
  clear Hst1. unfold add_child. rewrite Ht. unfold children_added. simpl.
  rewrite length_set_field, !length_app, Hlen. simpl.
  split_and!.
  - by rewrite Hq, seq_app, <-app_assoc.
  - done.
  - lia.
  - intros h Hh Hne. rewrite set_field_lookup_ne by done.
    rewrite lookup_app_l by lia. by apply Hold.
  - intros k Hk. rewrite set_field_lookup_ne by lia.
    destruct (decide (k = length l)) as [->|Hkl].
    + rewrite <-Hlen. apply lookup_snoc_Some. by right.
    + rewrite lookup_app_l by lia. apply Hnew. lia.
  - intros p Hp. destruct (Hfields p Hp) as (p1 & Hp1 & Hn1 & Hs1 & Hin1 & Hout1).
    rewrite set_field_lookup_eq, lookup_app_l by lia. rewrite Hp1. simpl.
    eexists. split; [done|]. simpl. split_and!; [done..| |].
    + intros k j Hk Hlast. apply lookup_snoc_Some in Hk as [[Hkl Hk]|[-> ->]].
      * rewrite lookup_insert_ne.
        -- apply Hin1; [done|]. intros k' i' Hkk' Hk'. apply (Hlast k'); [done|].
           by apply lookup_app_l_Some.
        -- apply (Hlast (length l)); [done|]. apply lookup_snoc_Some. by right.
      * by rewrite lookup_insert_eq.
    + intros off Hoff. rewrite lookup_insert_ne.
      * apply Hout1. intros j Hj. apply Hoff, elem_of_app. by left.
      * intros Heq. apply (Hoff i); [|done]. apply elem_of_app. right.
        by apply list_elem_of_singleton.
Qed.

Lemma process_field_pointer structs cur st f n t e :
  array_member (f_type f) (f_size f) = Ok (n, t, e) →
  Py.endswith t "*" = true →
  Py.endswith (Py.strip (Py.slice t 0 (-1))) "*" = false →
  Py.strip (Py.slice t 0 (-1)) ∉ PRIMITIVE_TYPES →
  detect_loop (parent st) (Py.strip (Py.slice t 0 (-1)))
              (p_name (heap st !!! cur)) = Ok false →
  process_field structs cur st f
  = Ok (expand structs cur (p_name (heap st !!! cur))
               (Py.strip (Py.slice t 0 (-1))) (f_offset f) e n st).
Proof.
  intros Ham Hstar Hstar' Hprim Hloop. unfold process_field.
  rewrite bool_decide_eq_false_2.
  2:{ intros [Hun|Hun%list_elem_of_singleton]%elem_of_cons;
        rewrite Hun in Ham; vm_compute in Ham; by simplify_eq. }
  rewrite Ham. simpl. rewrite Hstar, Hstar'.
  rewrite (bool_decide_eq_false_2 _ Hprim). simpl. by rewrite Hloop.
Qed.

(** A pointer member whose target is no key of the catalogue (and no
    primitive type, and no loop) leaves no slot at all, whatever its
    count: line 73 records the target in [parent], the loop of lines
    75-79 creates nothing, and the [continue] of line 81 skips the
    scalar slots that the comment of line 83 announces. *)
Theorem unknown_target_leaves_no_slot (structs : gmap string Struct)
    (cur : nat) (st : state) (f : StructField) (n : Z) (t : string) (e : Z) :
  array_member (f_type f) (f_size f) = Ok (n, t, e) →
  Py.endswith t "*" = true →
  Py.endswith (Py.strip (Py.slice t 0 (-1))) "*" = false →
  Py.strip (Py.slice t 0 (-1)) ∉ PRIMITIVE_TYPES →
  detect_loop (parent st) (Py.strip (Py.slice t 0 (-1)))
              (p_name (heap st !!! cur)) = Ok false →
  structs !! Py.strip (Py.slice t 0 (-1)) = None →
  process_field structs cur st f
  = Ok (mkState (heap st) (q st)
          (<[Py.strip (Py.slice t 0 (-1)) := p_name (heap st !!! cur)]>
             (parent st))).
Proof.
  intros Ham Hstar Hstar' Hprim Hloop Hnone.
  rewrite (process_field_pointer _ _ _ _ _ _ _ Ham Hstar Hstar' Hprim Hloop).
  unfold expand. by rewrite add_child_None.
Qed.

Lemma unknown_target_leaves_no_slot_witness :
  process_field ∅ 0 (mkState [mkPointer "S" 32 ∅] [] ∅)
    (mkStructField "p" "struct Foo *[4]" 0 32)
  = Ok (mkState [mkPointer "S" 32 ∅] [] {[ "struct Foo" := "S" ]})%string.
Proof.
  apply (unknown_target_leaves_no_slot ∅ 0 (mkState [mkPointer "S" 32 ∅] [] ∅)
           (mkStructField "p" "struct Foo *[4]" 0 32) 4 "struct Foo *" 8);
    try (vm_compute; reflexivity).
  vm_compute. intros H. repeat (apply elem_of_cons in H as [H|H]; [done|]).
  by apply elem_of_nil in H.
Defined.

(** A pointer member whose target [t] is a key of the catalogue (no
    primitive type, no loop), with count [n], element size [e] and
    offset [foff]: [parent[t]] becomes the current node's name, [n]
    objects named [t] with the declared size of [t] and no slot are
    appended to the store and, in order, to the queue; when [e] is not
    zero the slot [foff + k * e] of the current node refers to the
    [k]-th of them; when [e] is zero all [n] references are written to
    the one slot [foff], so only the last object stays referenced;
    nothing else changes. *)
Theorem pointer_member_children (structs : gmap string Struct) (cur : nat)
    (st : state) (f : StructField) (n : Z) (t : string) (e : Z)
    (p : Pointer) (s : Struct) :
  array_member (f_type f) (f_size f) = Ok (n, t, e) →
  Py.endswith t "*" = true →
  Py.endswith (Py.strip (Py.slice t 0 (-1))) "*" = false →
  Py.strip (Py.slice t 0 (-1)) ∉ PRIMITIVE_TYPES →
  heap st !! cur = Some p →
  detect_loop (parent st) (Py.strip (Py.slice t 0 (-1))) (p_name p) = Ok false →
  structs !! Py.strip (Py.slice t 0 (-1)) = Some s →
  ∃ st' p',
    process_field structs cur st f = Ok st'
    ∧ parent st' = <[Py.strip (Py.slice t 0 (-1)) := p_name p]> (parent st)
    ∧ q st' = q st ++ seq (length (heap st)) (Z.to_nat n)
    ∧ length (heap st') = (length (heap st) + Z.to_nat n)%nat
    ∧ (∀ h, (h < length (heap st))%nat → h ≠ cur →
            heap st' !! h = heap st !! h)
    ∧ (∀ k, (k < Z.to_nat n)%nat →
            heap st' !! (length (heap st) + k)%nat
            = Some (mkPointer (Py.strip (Py.slice t 0 (-1))) (s_size s) ∅))
    ∧ heap st' !! cur = Some p'
    ∧ p_name p' = p_name p ∧ p_size p' = p_size p
    ∧ (e ≠ 0 → ∀ k, (k < Z.to_nat n)%nat →
               p_fields p' !! (f_offset f + Z.of_nat k * e)
               = Some (VRef (length (heap st) + k)))
    ∧ (e = 0 → 0 < n →
       p_fields p' !! f_offset f
       = Some (VRef (length (heap st) + (Z.to_nat n - 1))))
    ∧ (∀ off, (∀ i, 0 ≤ i < n → off ≠ f_offset f + i * e) →
              p_fields p' !! off = p_fields p !! off).
Proof.
  intros Ham Hstar Hstar' Hprim Hp Hloop Hs.
  pose proof (list_lookup_total_correct _ _ _ Hp) as Hcur.
  rewrite <-Hcur in Hloop.
  rewrite (process_field_pointer _ _ _ _ _ _ _ Ham Hstar Hstar' Hprim Hloop).
  unfold expand. rewrite Hcur.
  set (t' := Py.strip (Py.slice t 0 (-1))) in *.
  set (st0 := mkState (heap st) (q st) (<[t':=p_name p]> (parent st))).
  destruct (add_children structs cur t' s (f_offset f) e (seqZ 0 n) st0 Hs)
    as (Hq & Hpar & Hlen & Hold & Hnew & Hfields).
  { simpl. by eapply lookup_lt_Some. }
  rewrite length_seqZ in *. simpl in *.
  destruct (Hfields p Hp) as (p' & Hp' & Hname & Hsize & Hin & Hout).
  eexists _, p'. split; [done|]. split_and!; try done.
  - intros He k Hk. rewrite <-(Z.add_0_l (Z.of_nat k)).
    apply Hin; [apply lookup_seqZ_lt; lia|].
    intros k' i' Hkk' [-> Hk']%lookup_seqZ. nia.
  - intros -> Hn. rewrite <-(Z.add_0_r (f_offset f)).
    rewrite <-(Z.mul_0_r (0 + Z.of_nat (Z.to_nat n - 1))).
    apply Hin; [apply lookup_seqZ_lt; lia|].
    intros k' i' Hkk' [-> Hk']%lookup_seqZ. lia.
  - intros off Hoff. apply Hout. intros i Hi%elem_of_seqZ. apply Hoff. lia.
Qed.

Lemma pointer_member_children_witness :
  ∃ st' p',
    process_field {[ "T" := mkStruct 4 [] ]}%string 0
      (mkState [mkPointer "S" 16 ∅] [] ∅) (mkStructField "p" "T *[2]" 0 16)
    = Ok st'
    ∧ parent st' = <[Py.strip (Py.slice "T *" 0 (-1)) := "S"%string]> ∅
    ∧ q st' = [] ++ seq 1 (Z.to_nat 2)
    ∧ length (heap st') = (1 + Z.to_nat 2)%nat
    ∧ (∀ h, (h < 1)%nat → h ≠ 0%nat →
            heap st' !! h = [mkPointer "S" 16 ∅] !! h)
    ∧ (∀ k, (k < Z.to_nat 2)%nat →
            heap st' !! (1 + k)%nat
            = Some (mkPointer (Py.strip (Py.slice "T *" 0 (-1))) 4 ∅))
    ∧ heap st' !! 0%nat = Some p'
    ∧ p_name p' = "S"%string ∧ p_size p' = 16
    ∧ (8 ≠ 0 → ∀ k, (k < Z.to_nat 2)%nat →
               p_fields p' !! (0 + Z.of_nat k * 8) = Some (VRef (1 + k)))
    ∧ (8 = 0 → 0 < 2 →
       p_fields p' !! 0 = Some (VRef (1 + (Z.to_nat 2 - 1))))
    ∧ (∀ off, (∀ i, 0 ≤ i < 2 → off ≠ 0 + i * 8) →
              p_fields p' !! off = (∅ : gmap Z value) !! off).
Proof.
  apply (pointer_member_children {[ "T" := mkStruct 4 [] ]}%string 0
           (mkState [mkPointer "S" 16 ∅] [] ∅) (mkStructField "p" "T *[2]" 0 16)
           2 "T *" 8 (mkPointer "S" 16 ∅) (mkStruct 4 []));
    try (vm_compute; reflexivity).
  vm_compute. intros H. repeat (apply elem_of_cons in H as [H|H]; [done|]).
  by apply elem_of_nil in H.
Defined.

Lemma scalar_member_slots_witness :
  ∃ st' p',
    process_field ∅ 0 (mkState [mkPointer "S" 16 ∅] [] ∅)
      (mkStructField "a" "int [4]" 0 16) = Ok st'
    ∧ q st' = [] ∧ parent st' = ∅
    ∧ length (heap st') = 1%nat
    ∧ (∀ h, h ≠ 0%nat → heap st' !! h = [mkPointer "S" 16 ∅] !! h)
    ∧ heap st' !! 0%nat = Some p'
    ∧ p_name p' = "S"%string ∧ p_size p' = 16
    ∧ (∀ i, 0 ≤ i < 4 → p_fields p' !! (0 + i * 4) = Some (VInt 4))
    ∧ (∀ off, (∀ i, 0 ≤ i < 4 → off ≠ 0 + i * 4) →
              p_fields p' !! off = (∅ : gmap Z value) !! off).
Proof.
  apply (scalar_member_slots ∅ 0 (mkState [mkPointer "S" 16 ∅] [] ∅)
           (mkStructField "a" "int [4]" 0 16) 4 "int " 4 (mkPointer "S" 16 ∅));
    [vm_compute; reflexivity..|left; vm_compute; reflexivity].
Defined.

(** * The analyzer: globals and their sections *)

(** ** One constraint *)

Lemma parse_constraint_cases sm section c :
  parse_constraint sm section c
  = match bit_range c with
    | None => ([], Raised (Builtin ValueError))
    | Some (max_pos, min_pos) =>
        let out := match section_of c with
                   | Some _ => []
                   | None => [no_section_message]
                   end in
        match section_after section [c] with
        | None => (out, Raised UnboundLocalError)
        | Some s =>
            match sm !! s with
            | None => (out, Raised (Builtin KeyError))
            | Some sec =>
                (out, Returned
                        (s, mkVariable s None ((max_pos - min_pos + 1) `div` 8)
                              (vaddr sec + memsize sec - (max_pos + 1) `div` 8)))
            end
        end
    end.
Proof.
  unfold parse_constraint, bit_range, section_after, section_of. simpl.
  destruct (str_split _ _) as [|a [|b [|? ?]]]; try done.
  destruct (Py.int a) as [x|]; [|done]. destruct (Py.int b) as [y|]; [|done].
  destruct (str_in ".bss" c); [done|]. by destruct (str_in ".data" c).
Qed.

Lemma section_after_snoc section cs c :
  section_after section (cs ++ [c])
  = match section_of c with
    | Some s => Some s
    | None => section_after section cs
    end.
Proof. unfold section_after. by rewrite foldl_app. Qed.

Lemma section_after_last cs :
  section_after None cs = last (omap section_of cs).
Proof.
  induction cs as [|c cs IH] using rev_ind; [done|].
  rewrite section_after_snoc, omap_app, IH. simpl.
  destruct (section_of c) as [s|]; simpl.
  - by rewrite last_snoc.
  - by rewrite app_nil_r.
Qed.

(** ** The loop *)

Lemma parse_constraints_from_Returned sm section acc cs out vs :
  parse_constraints_from sm section acc cs = (out, Returned vs) →
  ∃ new,
    vs = acc ++ new ∧ length new = length cs
    ∧ (∀ i c v, cs !! i = Some c → new !! i = Some v →
        ∃ s sec max_pos min_pos,
          section_after section (take (S i) cs) = Some s
          ∧ sm !! s = Some sec ∧ bit_range c = Some (max_pos, min_pos)
          ∧ v = mkVariable s None ((max_pos - min_pos + 1) `div` 8)
                  (vaddr sec + memsize sec - (max_pos + 1) `div` 8))
    ∧ out = (λ _, no_section_message) <$> filter (λ c, section_of c = None) cs.
Proof.
  revert section acc out. induction cs as [|c cs IH]; intros section acc out.
  - simpl. intros [= <- <-]. exists []. by rewrite app_nil_r.
  - cbn [parse_constraints_from]. rewrite parse_constraint_cases.
    destruct (bit_range c) as [[max_pos min_pos]|] eqn:Hr; [|done]. cbn zeta.
    destruct (section_after section [c]) as [s|] eqn:Hs; [|done].
    destruct (sm !! s) as [sec|] eqn:Hsec; [|done].
    destruct (parse_constraints_from sm (Some s) _ cs) as [out' r] eqn:Hrest.
    intros [= <- ->]. destruct (IH _ _ _ Hrest) as (new & -> & Hlen & Hname & ->).
    eexists (_ :: new). split_and!.
    + by rewrite <-app_assoc.
    + simpl. by rewrite Hlen.
    + intros [|i] c' v Hc' Hv.
      * simpl in Hc', Hv. injection Hc' as <-. injection Hv as <-.
        by exists s, sec, max_pos, min_pos.
      * simpl in Hc', Hv.
        destruct (Hname i c' v Hc' Hv) as (s' & sec' & M & m & Hs' & ?).
        exists s', sec', M, m. split; [|done]. rewrite <-Hs'.
        unfold section_after in *. simpl in *. by rewrite Hs.
    + rewrite filter_cons. unfold section_after in Hs. simpl in Hs.
      destruct (section_of c); [by rewrite decide_False|by rewrite decide_True].
Qed.

Lemma parse_constraints_from_Raised sm section acc cs out f :
  parse_constraints_from sm section acc cs = (out, Raised f) →
  ∃ done c rest,
    cs = done ++ c :: rest
    ∧ match f with
      | Builtin e =>
          (e = ValueError ∧ bit_range c = None)
          ∨ (e = KeyError ∧ is_Some (bit_range c)
             ∧ ∃ s, section_after section (done ++ [c]) = Some s ∧ sm !! s = None)
      | UnboundLocalError =>
          done = [] ∧ section = None ∧ is_Some (bit_range c)
          ∧ section_of c = None ∧ out = [no_section_message]
      end.
Proof.
  revert section acc out. induction cs as [|c cs IH]; intros section acc out.
  - done.
  - cbn [parse_constraints_from]. rewrite parse_constraint_cases.
    destruct (bit_range c) as [[max_pos min_pos]|] eqn:Hr.
    2:{ intros [= <- <-]. exists [], c, cs. split; [done|]. by left. }
    cbn zeta. destruct (section_after section [c]) as [s|] eqn:Hs.
    2:{ intros [= <- <-]. exists [], c, cs. split; [done|].
        unfold section_after in Hs. simpl in Hs.
        destruct (section_of c); [done|]. by subst. }
    destruct (sm !! s) as [sec|] eqn:Hsec.
    2:{ intros [= <- <-]. exists [], c, cs. split; [done|]. right.
        split_and!; [done..|]. by exists s. }
    destruct (parse_constraints_from sm (Some s) _ cs) as [out' r] eqn:Hrest.
    intros [= <- ->].
    destruct (IH _ _ _ Hrest) as (done & c' & rest & -> & Hf).
    exists (c :: done), c', rest. split; [done|].
    destruct f as [e|].
    + destruct Hf as [?|(-> & Hb & s' & Hs' & Hnone)]; [by left|right].
      split_and!; [done..|]. exists s'. split; [|done].
      unfold section_after in *. simpl in *. by rewrite Hs.
    + by destruct Hf as (_ & ? & _).
Qed.

Lemma with_sections sm section acc cs :
  Forall (λ c, is_Some (section_of c)) cs →
  (parse_constraints_from sm section acc cs).1 = []
  ∧ (parse_constraints_from sm section acc cs).2 ≠ Raised UnboundLocalError.
Proof.
  intros Hcs. revert section acc.
  induction Hcs as [|c cs [s Hc] _ IH]; intros section acc; [done|].
  cbn [parse_constraints_from]. rewrite parse_constraint_cases.
  destruct (bit_range c) as [[max_pos min_pos]|]; [|done]. cbn zeta.
  unfold section_after. simpl. rewrite Hc.
  destruct (sm !! s) as [sec|]; [|done].
  destruct (parse_constraints_from sm (Some s) _ cs) as [out' r] eqn:Hrest.
  specialize (IH (Some s)
    (acc ++ [mkVariable s None ((max_pos - min_pos + 1) `div` 8)
                        (vaddr sec + memsize sec - (max_pos + 1) `div` 8)])).
  rewrite Hrest in IH. simpl in *. by destruct IH as [-> ?].
Qed.

Lemma find_globals_sections {C} (str : C → string) cs :
  Forall (λ c, is_Some (section_of c)) (find_globals str cs).
Proof.
  unfold find_globals. apply Forall_fmap, Forall_forall.
  intros c [Hc _]%list_elem_of_filter. simpl. unfold section_of.
  destruct (str_in ".bss" (str c)); [by eauto|].
  destruct (str_in ".data" (str c)); [by eauto|done].
Qed.

(** The result of [parse_constraints]: when it returns, there is one
    variable per constraint, in order; its name is the section named by
    the last constraint, up to its own, that names one (a constraint
    that names none prints the message of the [SectionException] and
    goes on with the value that [section] still has from an earlier
    one); its type is [None], its size [(max - min + 1) // 8] and its
    address [vaddr + memsize - (max + 1) // 8] for the bit range
    [[max:min]] of the constraint and the section of that name. *)
Theorem parse_constraints_result (sm : gmap string SectionInfo)
    (cs : list string) (out : list string) (vs : list Variable_) :
  parse_constraints sm cs = (out, Returned vs) →
  length vs = length cs
  ∧ (∀ i c v, cs !! i = Some c → vs !! i = Some v →
      ∃ s sec max_pos min_pos,
        last (omap section_of (take (S i) cs)) = Some s
        ∧ sm !! s = Some sec ∧ bit_range c = Some (max_pos, min_pos)
        ∧ v = mkVariable s None ((max_pos - min_pos + 1) `div` 8)
                (vaddr sec + memsize sec - (max_pos + 1) `div` 8))
  ∧ out = (λ _, no_section_message) <$> filter (λ c, section_of c = None) cs.
Proof.
  intros (new & -> & Hlen & Hname & ->)%parse_constraints_from_Returned.
  split_and!; [done| |done]. intros i c v Hc Hv.
  destruct (Hname i c v Hc Hv) as (s & sec & M & m & Hs & ?).
  exists s, sec, M, m. by rewrite <-section_after_last.
Qed.

(** The failures of [parse_constraints]: [ValueError] at a constraint
    whose bit range does not parse, [KeyError] at one whose section the
    binary does not have, and [UnboundLocalError]; the last one only at
    the first constraint, after the message was printed, and it is what
    happens whenever the first constraint has a bit range and names no
    section: the [except] of line 53 swallows the [SectionException]
    and line 56 then reads [section]. *)
Theorem parse_constraints_failures (sm : gmap string SectionInfo) :
  (∀ cs out f,
     parse_constraints sm cs = (out, Raised f) →
     ∃ done c rest,
       cs = done ++ c :: rest
       ∧ match f with
         | Builtin e =>
             (e = ValueError ∧ bit_range c = None)
             ∨ (e = KeyError ∧ is_Some (bit_range c)
                ∧ ∃ s, last (omap section_of (done ++ [c])) = Some s
                       ∧ sm !! s = None)
         | UnboundLocalError =>
             done = [] ∧ is_Some (bit_range c) ∧ section_of c = None
             ∧ out = [no_section_message]
         end)
  ∧ (∀ c rest,
       is_Some (bit_range c) → section_of c = None →
       parse_constraints sm (c :: rest)
       = ([no_section_message], Raised UnboundLocalError)).
Proof.
  split.
  - intros cs out f (done & c & rest & -> & Hf)%parse_constraints_from_Raised.
    exists done, c, rest. split; [done|]. destruct f as [e|].
    + destruct Hf as [?|(-> & Hb & s & Hs & Hnone)]; [by left|right].
      split_and!; [done..|]. exists s. by rewrite <-section_after_last.
    + by destruct Hf as (? & _ & ? & ? & ?).
  - intros c rest [[M m] Hr] Hc. unfold parse_constraints.
    cbn [parse_constraints_from]. rewrite parse_constraint_cases, Hr.
    unfold section_after. simpl. by rewrite Hc.
Qed.

(** [find_globals] feeds [parse_constraints] only constraints that name
    a section: on its result nothing is printed, [UnboundLocalError] is
    not raised, and each variable returned is named by its own
    constraint, [.bss] when the constraint has both names. *)
Theorem globals_name_their_section {C : Type} (str : C → string)
    (constraints : list C) (sm : gmap string SectionInfo) :
  (parse_constraints sm (find_globals str constraints)).1 = []
  ∧ (parse_constraints sm (find_globals str constraints)).2
    ≠ Raised UnboundLocalError
  ∧ ∀ vs,
      (parse_constraints sm (find_globals str constraints)).2 = Returned vs →
      Forall2 (λ c v, section_of c = Some (v_name v))
              (find_globals str constraints) vs.
Proof.
  pose proof (find_globals_sections str constraints) as Hgs.
  destruct (with_sections sm None [] _ Hgs) as [Hout Hf].
  split_and!; [done..|]. intros vs Hvs.
  destruct (parse_constraints sm _) as [out r] eqn:Hp. simpl in Hvs. subst r.
  apply parse_constraints_from_Returned in Hp as (new & -> & Hlen & Hname & _).
  simpl. apply Forall2_same_length_lookup. split; [done|].
  intros i c v Hc Hv. destruct (Hname i c v Hc Hv) as (s & sec & M & m & Hs & _ & _ & ->).
  simpl. rewrite (take_S_r _ _ _ Hc), section_after_snoc in Hs.
  rewrite Forall_lookup in Hgs. destruct (Hgs i c Hc) as [s' Hs'].
  by rewrite Hs' in Hs |- *.
Qed.

(** Both ends of a variable lie in its section when its bit range lies
    in the bits of the section. *)
Theorem variable_lies_in_its_section (sm : gmap string SectionInfo)
    (cs : list string) (out : list string) (vs : list Variable_) (i : nat)
    (c : string) (v : Variable_) (sec : SectionInfo) (max_pos min_pos : Z) :
  parse_constraints sm cs = (out, Returned vs) →
  cs !! i = Some c → vs !! i = Some v →
  sm !! v_name v = Some sec → bit_range c = Some (max_pos, min_pos) →
  0 ≤ min_pos → min_pos ≤ max_pos + 1 → max_pos < 8 * memsize sec →
  vaddr sec ≤ v_address v ∧ 0 ≤ v_size v
  ∧ v_address v + v_size v ≤ vaddr sec + memsize sec.
Proof.
  intros (new & -> & _ & Hname & _)%parse_constraints_from_Returned Hc Hv.
  destruct (Hname i c v Hc Hv) as (s & sec' & M & m & _ & Hsec & Hr & ->).
  simpl. intros Hsec' Hr' Hmin Hle Hmax.
  rewrite Hsec' in Hsec. rewrite Hr' in Hr.
  injection Hsec as <-. injection Hr as <- <-.
  assert ((max_pos + 1) `div` 8 ≤ memsize sec)
    by (apply Z.div_le_upper_bound; lia).
  assert (0 ≤ (max_pos - min_pos + 1) `div` 8) by (apply Z.div_pos; lia).
  assert ((max_pos - min_pos + 1) `div` 8 ≤ (max_pos + 1) `div` 8)
    by (apply Z.div_le_mono; lia).
  lia.
Qed.

(** ** The text of a bit range *)

Lemma find_from_app i c l1 l2 :
  c ∉ l1 → find_from i c (l1 ++ c :: l2) = i + Z.of_nat (length l1).
Proof.
  revert i. induction l1 as [|x l1 IH]; intros i Hc; simpl.
  - rewrite bool_decide_eq_true_2 by done. lia.
  - rewrite bool_decide_eq_false_2 by (intros ->; apply Hc, elem_of_cons; by left).
    rewrite IH by (intros ?; apply Hc, elem_of_cons; by right). lia.
Qed.

Lemma split_chars_absent c l : c ∉ l → split_chars c l = [l].
Proof.
  induction l as [|x l IH]; intros Hc; simpl; [done|].
  rewrite bool_decide_eq_false_2 by (intros ->; apply Hc, elem_of_cons; by left).
  by rewrite IH by (intros ?; apply Hc, elem_of_cons; by right).
Qed.

Lemma split_chars_app c l1 l2 :
  c ∉ l1 → split_chars c (l1 ++ c :: l2) = l1 :: split_chars c l2.
Proof.
  induction l1 as [|x l1 IH]; intros Hc; simpl.
  - by rewrite bool_decide_eq_true_2.
  - rewrite bool_decide_eq_false_2 by (intros ->; apply Hc, elem_of_cons; by left).
    by rewrite IH by (intros ?; apply Hc, elem_of_cons; by right).
Qed.

Lemma slice_between l1 l2 l3 :
  Py.slice (Py.str (l1 ++ l2 ++ l3)) (Z.of_nat (length l1))
           (Z.of_nat (length l1) + Z.of_nat (length l2))
  = Py.str l2.
Proof.
  unfold Py.slice, Py.clamp. rewrite chars_str, !length_app.
  destruct (Z.ltb_spec (Z.of_nat (length l1)) 0) as [?|_]; [lia|].
  destruct (Z.ltb_spec (Z.of_nat (length l1) + Z.of_nat (length l2)) 0)
    as [?|_]; [lia|].
  replace (Z.to_nat (Z.min (Z.of_nat (length l1)) _)) with (length l1) by lia.
  rewrite drop_app_length. f_equal.
  replace (Z.to_nat _) with (length l2) by lia. by rewrite take_app_length.
Qed.

(** The bit range of a constraint whose first bracket pair reads
    [[hi:lo]]: [max_pos] is [int(hi)] and [min_pos] is [int(lo)], for
    every text before and after; if [int()] refuses one of them the
    range does not parse. *)
Theorem bit_range_syntax (pre hi lo post : string) :
  "["%char ∉ Py.chars pre → "]"%char ∉ Py.chars pre →
  "]"%char ∉ Py.chars hi → ":"%char ∉ Py.chars hi →
  "]"%char ∉ Py.chars lo → ":"%char ∉ Py.chars lo →
  bit_range (pre +:+ "[" +:+ hi +:+ ":" +:+ lo +:+ "]" +:+ post)
  = match Py.int hi, Py.int lo with
    | Some max_pos, Some min_pos => Some (max_pos, min_pos)
    | _, _ => None
    end.
Proof.
  intros Hpre1 Hpre2 Hhi1 Hhi2 Hlo1 Hlo2.
  set (c := pre +:+ "[" +:+ hi +:+ ":" +:+ lo +:+ "]" +:+ post).
  assert (Py.chars c
          = Py.chars pre
            ++ "["%char :: (Py.chars hi ++ ":"%char :: Py.chars lo)
            ++ "]"%char :: Py.chars post) as Hchars.
  { unfold c. rewrite !chars_app. simpl. by rewrite <-!app_assoc. }
  unfold bit_range.
  assert (str_find c "[" = Z.of_nat (length (Py.chars pre))) as ->.
  { unfold str_find. by rewrite Hchars, find_from_app. }
  assert (str_find c "]"
          = Z.of_nat (length (Py.chars pre ++ ["["%char]))
            + Z.of_nat (length (Py.chars hi ++ ":"%char :: Py.chars lo))) as ->.
  { unfold str_find. rewrite Hchars.
    replace (Py.chars pre
             ++ "["%char :: (Py.chars hi ++ ":"%char :: Py.chars lo)
             ++ "]"%char :: Py.chars post)
      with ((Py.chars pre ++ "["%char :: Py.chars hi ++ ":"%char :: Py.chars lo)
            ++ "]"%char :: Py.chars post)
      by (rewrite <-!app_assoc; simpl; by rewrite <-!app_assoc).
    rewrite find_from_app.
    - rewrite !length_app. simpl. rewrite !length_app. simpl. lia.
    - rewrite !elem_of_app, !elem_of_cons, !elem_of_app, !elem_of_cons.
      intros [?|[?|[?|[?|?]]]]; done. }
  replace (Z.of_nat (length (Py.chars pre)) + 1)
    with (Z.of_nat (length (Py.chars pre ++ ["["%char])))
    by (rewrite length_app; simpl; lia).
  rewrite <-(str_chars c), Hchars.
  replace (Py.chars pre
           ++ "["%char :: (Py.chars hi ++ ":"%char :: Py.chars lo)
           ++ "]"%char :: Py.chars post)
    with ((Py.chars pre ++ ["["%char])
          ++ (Py.chars hi ++ ":"%char :: Py.chars lo)
          ++ "]"%char :: Py.chars post)
    by (by rewrite <-!app_assoc).
  rewrite slice_between. unfold str_split.
  rewrite chars_str, split_chars_app, split_chars_absent by done. simpl.
  by rewrite !str_chars.
Qed.

(** ** Examples *)

Lemma parse_constraints_result_witness :
  length example_variables = length example_constraints
  ∧ (∀ i c v, example_constraints !! i = Some c →
              example_variables !! i = Some v →
      ∃ s sec max_pos min_pos,
        last (omap section_of (take (S i) example_constraints)) = Some s
        ∧ example_sections !! s = Some sec
        ∧ bit_range c = Some (max_pos, min_pos)
        ∧ v = mkVariable s None ((max_pos - min_pos + 1) `div` 8)
                (vaddr sec + memsize sec - (max_pos + 1) `div` 8))
  ∧ [no_section_message]
    = (λ _, no_section_message)
        <$> filter (λ c, section_of c = None) example_constraints.
Proof.
  apply (parse_constraints_result example_sections example_constraints
           [no_section_message] example_variables).
  vm_compute. reflexivity.
Defined.

Lemma variable_lies_in_its_section_witness :
  vaddr (mkSectionInfo 4096 64) ≤ v_address (mkVariable ".bss" None 1 4096)
  ∧ 0 ≤ v_size (mkVariable ".bss" None 1 4096)
  ∧ v_address (mkVariable ".bss" None 1 4096)
    + v_size (mkVariable ".bss" None 1 4096)
    ≤ vaddr (mkSectionInfo 4096 64) + memsize (mkSectionInfo 4096 64).
Proof.
  apply (variable_lies_in_its_section example_sections example_constraints
           [no_section_message] example_variables 0
           "<Bool .bss_0_512[511:504] == 65>" (mkVariable ".bss" None 1 4096)
           (mkSectionInfo 4096 64) 511 504);
    try (vm_compute; reflexivity); vm_compute; congruence.
Defined.

Lemma bit_range_syntax_witness :
  bit_range ("<Bool .bss_0_512" +:+ "[" +:+ "511" +:+ ":" +:+ "504" +:+ "]"
             +:+ " == 65>")
  = match Py.int "511", Py.int "504" with
    | Some max_pos, Some min_pos => Some (max_pos, min_pos)
    | _, _ => None
    end.
Proof.
  apply (bit_range_syntax "<Bool .bss_0_512" "511" "504" " == 65>");
    vm_compute; intros H;
    repeat (apply elem_of_cons in H as [H|H]; [done|]);
    by apply elem_of_nil in H.
Defined.

(** * The layout tree and the catalogue *)

(** ** Slots and members *)

Lemma process_field_outcome structs cur st f st' :
  process_field structs cur st f = Ok st' →
  ∃ n t e,
    array_member (f_type f) (f_size f) = Ok (n, t, e)
    ∧ (st' = store_scalars cur (f_offset f) e n st
       ∨ (Py.endswith t "*" = true
          ∧ st' = expand structs cur (p_name (heap st !!! cur)) (target t)
                    (f_offset f) e n st)).
Proof.
  unfold process_field. case_bool_decide as Hun.
  - intros [= <-]. exists 1, (f_type f), (f_size f). split.
    + apply elem_of_cons in Hun as [Hun|Hun%list_elem_of_singleton];
        rewrite Hun; by vm_compute.
    + left. unfold store_scalars. simpl. by rewrite Z.add_0_r.
  - destruct (array_member (f_type f) (f_size f)) as [[[n t] e]| |];
      simpl; [|done..].
    intros Hpf. exists n, t, e. split; [done|].
    destruct (Py.endswith t "*") eqn:Hstar; [|left; by simplify_eq].
    destruct (negb _ && negb _); [|left; by simplify_eq].
    destruct (detect_loop _ _ _) as [[]| |]; simpl in Hpf; [| |done..].
    + left. by simplify_eq.
    + right. split; [done|]. by simplify_eq.
Qed.

Lemma set_field_keeps h off v hp c pc :
  hp !! c = Some pc →
  ∃ pc', set_field h off v hp !! c = Some pc' ∧ p_name pc' = p_name pc.
Proof.
  intros Hc. destruct (decide (h = c)) as [->|Hne].
  - rewrite set_field_lookup_eq, Hc. simpl. by eexists.
  - rewrite set_field_lookup_ne by done. by eexists.
Qed.

(** One write into the current node keeps the slots declared, when
    the written slot is. *)
Lemma slots_declared_write structs cur off v hp p s :
  slots_declared structs hp →
  hp !! cur = Some p → structs !! p_name p = Some s →
  element_of s off (λ t e,
    match v with
    | VInt sz => sz = e
    | VRef c =>
        Py.endswith t "*" = true
        ∧ ∃ pc, hp !! c = Some pc ∧ p_name pc = target t
    end) →
  slots_declared structs (set_field cur off v hp).
Proof.
  intros Hsl Hp Hs Hnew h p' off' w
    (p0 & Hp0 & Hname & _ & _ & Hslot)%set_field_lookup Hw.
  rewrite Hname.
  assert (∃ s0, structs !! p_name p0 = Some s0
                ∧ element_of s0 off' (λ t e,
                    match w with
                    | VInt sz => sz = e
                    | VRef c =>
                        Py.endswith t "*" = true
                        ∧ ∃ pc, hp !! c = Some pc ∧ p_name pc = target t
                    end)) as (s0 & Hs0 & f & n & t & e & i & Hf & Ham & Hi & Hoff & Hv).
  { destruct (Hslot _ _ Hw) as [(Hh & Ho & Hv)|Hold].
    - subst h off' w. rewrite Hp in Hp0. injection Hp0 as <-.
      exists s. split; [exact Hs|exact Hnew].
    - by eapply Hsl. }
  exists s0. split; [done|]. exists f, n, t, e, i. split_and!; try done; try lia.
  destruct w as [sz|c]; [done|]. destruct Hv as (Hstar & pc & Hpc & Hpcn).
  split; [done|]. destruct (set_field_keeps cur off v hp c pc Hpc) as (pc' & ? & ?).
  exists pc'. split; [done|congruence].
Qed.

Lemma slots_declared_ints structs cur (g : Z → Z) sz l hp p s :
  slots_declared structs hp →
  hp !! cur = Some p → structs !! p_name p = Some s →
  Forall (λ i, element_of s (g i) (λ _ e, sz = e)) l →
  slots_declared structs (foldl (λ hp i, set_field cur (g i) (VInt sz) hp) hp l).
Proof.
  intros Hsl Hp Hs Hl. revert hp p Hsl Hp Hs.
  induction Hl as [|i l Hi _ IH]; intros hp p Hsl Hp Hs; simpl; [done|].
  destruct (set_field_keeps cur (g i) (VInt sz) hp cur p Hp) as (p' & Hp' & Hn).
  apply (IH _ p'); [|done|by rewrite Hn].
  by eapply slots_declared_write.
Qed.

Lemma slots_declared_snoc structs hp new :
  p_fields new = ∅ → slots_declared structs hp →
  slots_declared structs (hp ++ [new]).
Proof.
  intros Hnew Hsl h p off v [[_ Hp]|[_ <-]]%lookup_snoc_Some Hv.
  - destruct (Hsl _ _ _ _ Hp Hv) as (s & Hs & f & n & t & e & i & Hf & Ham & Hi & Hoff & Hval).
    exists s. split; [done|]. exists f, n, t, e, i. split_and!; try done; try lia.
    destruct v as [sz|c]; [done|]. destruct Hval as (Hstar & pc & Hpc & Hpcn).
    split; [done|]. exists pc. split; [by apply lookup_app_l_Some|done].
  - by rewrite Hnew, lookup_empty in Hv.
Qed.

Lemma slots_declared_children structs cur t' foff e l st p s :
  slots_declared structs (heap st) →
  heap st !! cur = Some p → structs !! p_name p = Some s →
  Forall (λ i, element_of s (foff + i * e)
                 (λ t _, Py.endswith t "*" = true ∧ t' = target t)) l →
  slots_declared structs (heap (foldl (add_child structs cur t' foff e) st l)).
Proof.
  intros Hsl Hp Hs Hl. revert st p Hsl Hp Hs.
  induction Hl as [|i l Hi _ IH]; intros st p Hsl Hp Hs; simpl; [done|].
  unfold add_child at 2. destruct (structs !! t') as [s'|] eqn:Ht'; [|by eapply IH].
  set (new := mkPointer t' (s_size s') ∅).
  assert ((heap st ++ [new]) !! cur = Some p) as Hp1 by by apply lookup_app_l_Some.
  destruct (set_field_keeps cur (foff + i * e) (VRef (length (heap st)))
              (heap st ++ [new]) cur p Hp1) as (p' & Hp' & Hn).
  apply (IH _ p'); simpl; [|done|by rewrite Hn].
  eapply slots_declared_write; [by apply slots_declared_snoc|done..|].
  destruct Hi as (f & n & t & e' & i' & Hf & Ham & Hi' & Hoff & Hstar & Htarget).
  exists f, n, t, e', i'. split_and!; try done; try lia.
  exists new. split; [|done]. apply lookup_snoc_Some. by right.
Qed.

Lemma process_field_slots structs cur st f st' p s :
  process_field structs cur st f = Ok st' →
  heap st !! cur = Some p → structs !! p_name p = Some s → f ∈ s_fields s →
  slots_declared structs (heap st) → slots_declared structs (heap st').
Proof.
  intros (n & t & e & Ham & [->|[Hstar ->]])%process_field_outcome Hp Hs Hf Hsl.
  - unfold store_scalars. simpl.
    apply (slots_declared_ints structs cur (λ i, f_offset f + i * e) e _ _ p s);
      try done.
    apply Forall_forall. intros i Hi%elem_of_seqZ.
    exists f, n, t, e, i. split_and!; try done; lia.
  - unfold expand.
    apply (slots_declared_children structs cur (target t) (f_offset f) e _
             (mkState (heap st) (q st) _) p s); try done.
    apply Forall_forall. intros i Hi%elem_of_seqZ.
    exists f, n, t, e, i. split_and!; try done; lia.
Qed.

Lemma process_field_name structs cur st f st' p :
  process_field structs cur st f = Ok st' → heap st !! cur = Some p →
  ∃ p', heap st' !! cur = Some p' ∧ p_name p' = p_name p.
Proof.
  intros Hpf Hp.
  destruct (process_field_step structs cur st f)
    as [(e & He & _)|(st1 & Hst1 & Hstep)]; [congruence|].
  assert (st1 = st') as -> by congruence.
  assert (∃ ext, header <$> heap st' = (header <$> heap st) ++ ext) as [ext Hext].
  { destruct Hstep as [(_ & _ & ->)|(t & m & sz & _ & _ & _ & -> & _)];
      [exists []; by rewrite app_nil_r|by eauto]. }
  assert ((header <$> heap st') !! cur = Some (header p)) as Hcur.
  { rewrite Hext. apply lookup_app_l_Some. by rewrite list_lookup_fmap, Hp. }
  rewrite list_lookup_fmap in Hcur.
  destruct (heap st' !! cur) as [p'|]; [|done]. exists p'. split; [done|].
  unfold header in Hcur. simpl in Hcur. by simplify_eq.
Qed.

Lemma process_fields_slots structs cur st fs st' p s :
  process_fields structs cur st fs = Ok st' →
  heap st !! cur = Some p → structs !! p_name p = Some s →
  (∀ f, f ∈ fs → f ∈ s_fields s) →
  slots_declared structs (heap st) → slots_declared structs (heap st').
Proof.
  revert st p. induction fs as [|f fs IH]; intros st p; simpl.
  { by intros [= <-]. }
  destruct (process_field structs cur st f) as [st1| |] eqn:Hf; simpl; [|done..].
  intros Hfs Hp Hs Hsub Hsl.
  destruct (process_field_name _ _ _ _ _ _ Hf Hp) as (p1 & Hp1 & Hn1).
  apply (IH st1 p1); [done|done|by rewrite Hn1| |].
  - intros f' Hf'. apply Hsub, elem_of_cons. by right.
  - eapply process_field_slots; [done..| |done].
    apply Hsub, elem_of_cons. by left.
Qed.

Lemma bfs_slots structs fuel st st' :
  bfs fuel structs st = Ok st' → sound structs st →
  slots_declared structs (heap st) → slots_declared structs (heap st').
Proof.
  revert st. induction fuel as [|fuel IH]; intros st; simpl.
  - destruct (q st); [|done]. by intros [= <-].
  - destruct (q st) as [|cur rest] eqn:Hq; [by intros [= <-]|].
    intros Hb Hst Hsl.
    pose proof (sound_dequeue _ _ _ _ Hst Hq) as Hat.
    destruct Hst as (Hcat & _ & _ & Hpend & _).
    destruct (Hpend cur) as (p & Hp & _); [rewrite Hq; apply elem_of_cons; by left|].
    rewrite (list_lookup_total_correct _ _ _ Hp) in Hb.
    destruct (Hcat _ _ Hp) as (s & Hs & _). rewrite Hs in Hb.
    destruct (process_fields _ _ _ _) as [st1| |] eqn:Hfs; simpl in Hb; [|done..].
    apply (IH st1 Hb).
    + by apply (process_fields_sound _ _ _ _ _ Hfs).
    + by eapply (process_fields_slots _ _ _ _ _ p s Hfs).
Qed.

Lemma parse_struct_ptr_slots fuel name structs hp :
  parse_struct_ptr fuel name structs = Ok (Some hp) →
  catalogued structs hp ∧ slots_declared structs hp.
Proof.
  unfold parse_struct_ptr. destruct (structs !! name) as [s|] eqn:Hs; [|done].
  pose proof (sound_initial structs name s Hs) as Hinit.
  pose proof (bfs_sound structs fuel _ Hinit) as Hb.
  destruct (bfs _ _ _) as [st'| |] eqn:Hbfs; simpl; [|done..].
  intros [= <-]. split; [by destruct Hb|].
  apply (bfs_slots _ _ _ _ Hbfs Hinit).
  intros h p off v [-> <-]%list_lookup_singleton_Some Hv. simpl in Hv.
  by rewrite lookup_empty in Hv.
Qed.

(** ** The tree *)

Lemma mapM_Some_elem {A B} (f : A → option B) l k y :
  mapM f l = Some k → y ∈ k → ∃ x, x ∈ l ∧ f x = Some y.
Proof.
  intros Hk%mapM_Some_1 Hy. apply list_elem_of_lookup in Hy as [i Hi].
  destruct (Forall2_lookup_r _ _ _ _ _ Hk Hi) as (x & Hx & Hfx).
  exists x. split; [by eapply list_elem_of_lookup_2|done].
Qed.

Lemma layout_slot hp depth h t off slot :
  layout (S depth) hp h = Some t → fields t !! off = Some slot →
  ∃ p v, hp !! h = Some p ∧ p_fields p !! off = Some v
         ∧ match v with
           | VInt n => slot = Scalar n
           | VRef c => ∃ child, slot = Nested child
                                ∧ layout depth hp c = Some child
           end.
Proof.
  simpl. destruct (hp !! h) as [p|] eqn:Hp; [|done]. simpl.
  destruct (mapM _ _) as [slots|] eqn:Hslots; [|done]. simpl. intros [= <-].
  simpl. intros Hslot%elem_of_list_to_map_2.
  destruct (mapM_Some_elem _ _ _ _ Hslots Hslot) as ([off' v] & Hin & Hv).
  apply elem_of_map_to_list in Hin. simpl in Hv.
  destruct v as [n|c].
  - simplify_eq. exists p, (VInt n). by split_and!.
  - destruct (layout depth hp c) as [child|] eqn:Hc; [|done]. simpl in Hv.
    simplify_eq. exists p, (VRef c). split_and!; [done..|]. by exists child.
Qed.

Lemma layout_root hp depth h t :
  layout depth hp h = Some t →
  ∃ p, hp !! h = Some p ∧ type_name t = p_name p ∧ total_size t = p_size p.
Proof.
  destruct depth as [|depth]; [done|]. simpl.
  destruct (hp !! h) as [p|]; [|done]. simpl.
  destruct (mapM _ _) as [slots|]; [|done]. simpl. intros [= <-]. by exists p.
Qed.

Lemma layout_conforms structs hp depth h t :
  catalogued structs hp → slots_declared structs hp →
  layout depth hp h = Some t → conforms structs t.
Proof.
  intros Hcat Hsl. revert h t. induction depth as [|depth IH]; intros h t Ht;
    [done|].
  destruct (layout_root _ _ _ _ Ht) as (p & Hp & Hname & Hsize).
  destruct (Hcat _ _ Hp) as (s & Hs & Hsz).
  destruct t as [name size fs]. simpl in Hname, Hsize. subst name size.
  apply (conforms_node structs _ _ _ s); [done|done| |].
  - intros off sz Hslot.
    destruct (layout_slot _ _ _ _ off (Scalar sz) Ht Hslot)
      as (p' & v & Hp' & Hv & Hmatch).
    rewrite Hp in Hp'. injection Hp' as <-.
    destruct v as [n|c]; [|by destruct Hmatch as (? & ? & _)].
    injection Hmatch as ->.
    destruct (Hsl _ _ _ _ Hp Hv) as (s' & Hs' & f & n' & t & e & i & Hf & Ham & Hi & Hoff & Hval).
    rewrite Hs in Hs'. injection Hs' as <-. by exists f, n', t, e, i.
  - intros off child Hslot.
    destruct (layout_slot _ _ _ _ off (Nested child) Ht Hslot)
      as (p' & v & Hp' & Hv & Hmatch).
    rewrite Hp in Hp'. injection Hp' as <-.
    destruct v as [n|c]; [done|]. destruct Hmatch as (child' & [= <-] & Hchild).
    split; [|by eapply IH].
    destruct (Hsl _ _ _ _ Hp Hv)
      as (s' & Hs' & f & n' & t & e & i & Hf & Ham & Hi & Hoff & Hstar & pc & Hpc & Hpcn).
    rewrite Hs in Hs'. injection Hs' as <-.
    destruct (layout_root _ _ _ _ Hchild) as (pc' & Hpc' & Hcn & _).
    rewrite Hpc in Hpc'. injection Hpc' as <-.
    exists f, n', t, e, i. split_and!; try done; try lia. congruence.
Qed.

(** The tree [resolve] returns conforms to the catalogue: every node,
    the root and the nested ones at every depth, is a structure of the
    catalogue with the size declared for its name; every slot of a node
    is at the place of an element of a member of that structure; a
    scalar slot holds the element size of such a member, and a nested
    node is of the type such a member points to. *)
Theorem layout_conforms_to_catalogue (fuel : nat)
    (structs : gmap string Struct) (name : string) (t : LayoutNode) :
  resolve fuel structs name = Ok (Some t) → conforms structs t.
Proof.
  unfold resolve.
  destruct (parse_struct_ptr fuel name structs) as [[hp|]| |] eqn:Hp;
    simpl; [|done..].
  destruct (layout (length hp) hp 0) as [t'|] eqn:Hl; [|done].
  intros [= <-]. destruct (parse_struct_ptr_slots _ _ _ _ Hp) as [Hcat Hsl].
  by eapply layout_conforms.
Qed.

Lemma layout_conforms_to_catalogue_witness :
  conforms (mutual 8 8 0 0 8 8 "b" "a")
    (Node "A" 8
       {[0 := Nested (Node "B" 8
                        {[0 := Nested (Node "A" 8 {[0 := Scalar 8]})]})]}).
Proof.
  apply (layout_conforms_to_catalogue 3 (mutual 8 8 0 0 8 8 "b" "a") "A").
  vm_compute. reflexivity.
Defined.
